(** * Destinations routing service: reconciliation of live destinations

    A shallow embedding of the [destinations] package (Service, its
    constructor, the read accessors, [updateDestinations], [init] and
    [remove]) together with the properties of its reconciliation cycle.

    Go maps are [gmap]s.  Resources built by the external factories
    (storages, queues, loggers) are handles drawn from a counter, so that
    "the same instance" is equality of handles.  A nil-pointer dereference
    is the only way the modelled code can stop early; a function that may
    hit one returns [option] and [None] stands for the panic.  The service
    record carries an event trace and the state of its lock, which the
    code itself does not store but which the properties talk about. *)

From stdpp Require Import gmap strings list fin_maps.
From Stdlib Require Import ZArith.

Local Open Scope string_scope.

(** ** Data model *)

(** A resource built outside this package: a storage proxy, a persistent
    queue or an incoming-events logger. *)
Definition Handle := nat.

(** storages.DestinationConfig, read-only here.  [Type_] is the field
    [Type]; [Settings] stands for the remaining fields of the struct, which
    this package only hands to the factory and to [getHash]. *)
Record DestinationConfig := mkDestinationConfig {
  Type_ : string;
  Mode : string;
  OnlyTokens : list string;
  Staged : bool;
  Settings : string
}.

(** Modelled from the spec: the two execution modes of storages, whose
    constants are declared in the storages package. *)
Definition StreamMode : string := "stream".
Definition BatchMode : string := "batch".

(** The assignment [destinationConfig.OnlyTokens = ids] on the local copy. *)
Definition with_OnlyTokens (d : DestinationConfig) (ids : list string) : DestinationConfig :=
  {| Type_ := Type_ d; Mode := Mode d; OnlyTokens := ids;
     Staged := Staged d; Settings := Settings d |}.

(** The pure helpers of the package that [init] and [updateDestinations]
    call.  Modelled from the spec: [getHash] is a deterministic hash of the
    destination's name and config value, [parseFromBytes] turns a payload
    into the mapping name -> config or fails. *)
Class Helpers := {
  Hash : Type;
  Hash_eq_dec :: EqDecision Hash;
  getHash : string → DestinationConfig → Hash;
  parseFromBytes : list Byte.byte → option (gmap string DestinationConfig)
}.

(** events.Consumer: either a destination's queue (the pointer the factory
    returned, nil included) or a token's shared logger. *)
Inductive Consumer :=
| QueueConsumer (q : option Handle)
| LoggerConsumer (l : Handle).

#[global] Instance Consumer_eq_dec : EqDecision Consumer.
Proof. solve_decision. Defined.

(** LoggerUsage: the logger and the count of its users (a Go int; the count
    never exceeds the number of token occurrences registered, so its 64-bit
    range is not modelled). *)
Record LoggerUsage := mkLoggerUsage {
  logger : Handle;
  usage : Z
}.

Inductive Region := RUnits | RLoggers | RConsumers | RStorages | RIDs.

#[global] Instance Region_eq_dec : EqDecision Region.
Proof. solve_decision. Defined.

Inductive LogMsg :=
| MarshallingError
| DestinationsEmpty
| DestinationsNotConfigured
| OnlyTokensNotProvided (name : string)
| AuthorizationNotReady (name : string)
| ErrorInitializing (name : string)
| SkippingStaged (name : string)
| HasBeenRemoved (name : string).

Inductive LoadFunc := LoadFromHTTP | LoadFromFile.

(** What a run leaves behind besides the service's fields. *)
Inductive Event :=
| EvLock
| EvUnlock
| EvMutate (r : Region) (held : bool)
| EvFactoryCreate (name : string) (ok : bool)
| EvCreateIncomingLogger (tokenID : string) (l : Handle)
| EvLoggerClose (tokenID : string) (l : Handle)
| EvUnitClose (name : string) (storage : Handle) (eventQueue : option Handle)
| EvWatch (load : LoadFunc) (source : string)
| EvLog (m : LogMsg).

#[global] Instance LogMsg_eq_dec : EqDecision LogMsg.
Proof. solve_decision. Defined.
#[global] Instance LoadFunc_eq_dec : EqDecision LoadFunc.
Proof. solve_decision. Defined.
#[global] Instance Event_eq_dec : EqDecision Event.
Proof. solve_decision. Defined.

(** Modelled from the spec: the three tokenized collections and their
    [Add] and [AddAll] methods, declared in a file of the package that is
    not at hand.  [Add] creates the per-token map on first use; [AddAll]
    merges every entry of [other] into the receiver. *)
Abbreviation Tokenized V := (gmap string (gmap string V)).

Definition Add {V} (tokenID name : string) (v : V) (ts : Tokenized V) : Tokenized V :=
  <[tokenID := <[name := v]> (default ∅ (ts !! tokenID))]> ts.

Definition AddAll {V} (other : Tokenized V) (ts : Tokenized V) : Tokenized V :=
  map_fold (λ tokenID inner acc,
              map_fold (λ name v acc', Add tokenID name v acc') acc inner)
           ts other.

(** The entry of a tokenized collection under a token and a key. *)
Definition lookup2 {V} (ts : Tokenized V) (tokenID key : string) : option V :=
  ts !! tokenID ≫= (.!! key).

Section Model.
Context `{Helpers}.

(** Modelled from the spec: Unit, the bundle of one live destination (its
    struct is declared in a file of the package that is not at hand). *)
Record Unit := mkUnit {
  eventQueue : option Handle;
  storage : Handle;
  tokenIDs : list string;
  hash : Hash
}.

(** The Service struct, the package-level [StatusInstance.Reloading], and
    the instrumentation: whether the write lock is held, the next fresh
    handle and the trace of events so far (latest last). *)
Record Service := mkService {
  unitsByName : gmap string Unit;
  loggersUsageByTokenID : gmap string LoggerUsage;
  consumersByTokenID : Tokenized Consumer;
  storagesByTokenID : Tokenized Handle;
  destinationsIDByTokenID : Tokenized bool;
  Reloading : bool;
  locked : bool;
  nextHandle : Handle;
  trace : list Event
}.

Definition emit (e : Event) (s : Service) : Service :=
  mkService (unitsByName s) (loggersUsageByTokenID s) (consumersByTokenID s)
    (storagesByTokenID s) (destinationsIDByTokenID s) (Reloading s) (locked s)
    (nextHandle s) (trace s ++ [e]).

Definition log (m : LogMsg) : Service → Service := emit (EvLog m).

Definition set_locked (b : bool) (s : Service) : Service :=
  mkService (unitsByName s) (loggersUsageByTokenID s) (consumersByTokenID s)
    (storagesByTokenID s) (destinationsIDByTokenID s) (Reloading s) b
    (nextHandle s) (trace s).

Definition set_Reloading (b : bool) (s : Service) : Service :=
  mkService (unitsByName s) (loggersUsageByTokenID s) (consumersByTokenID s)
    (storagesByTokenID s) (destinationsIDByTokenID s) b (locked s)
    (nextHandle s) (trace s).

(** A fresh handle for a resource a factory builds. *)
Definition fresh (s : Service) : Handle * Service :=
  (nextHandle s,
   mkService (unitsByName s) (loggersUsageByTokenID s) (consumersByTokenID s)
     (storagesByTokenID s) (destinationsIDByTokenID s) (Reloading s) (locked s)
     (S (nextHandle s)) (trace s)).

(** Writes to the five shared structures; each one records whether the
    write lock was held when it happened. *)
Definition write_units (f : gmap string Unit → gmap string Unit) (s : Service) : Service :=
  emit (EvMutate RUnits (locked s))
    (mkService (f (unitsByName s)) (loggersUsageByTokenID s) (consumersByTokenID s)
       (storagesByTokenID s) (destinationsIDByTokenID s) (Reloading s) (locked s)
       (nextHandle s) (trace s)).

Definition write_loggers (f : gmap string LoggerUsage → gmap string LoggerUsage)
    (s : Service) : Service :=
  emit (EvMutate RLoggers (locked s))
    (mkService (unitsByName s) (f (loggersUsageByTokenID s)) (consumersByTokenID s)
       (storagesByTokenID s) (destinationsIDByTokenID s) (Reloading s) (locked s)
       (nextHandle s) (trace s)).

Definition write_consumers (f : Tokenized Consumer → Tokenized Consumer)
    (s : Service) : Service :=
  emit (EvMutate RConsumers (locked s))
    (mkService (unitsByName s) (loggersUsageByTokenID s) (f (consumersByTokenID s))
       (storagesByTokenID s) (destinationsIDByTokenID s) (Reloading s) (locked s)
       (nextHandle s) (trace s)).

Definition write_storages (f : Tokenized Handle → Tokenized Handle)
    (s : Service) : Service :=
  emit (EvMutate RStorages (locked s))
    (mkService (unitsByName s) (loggersUsageByTokenID s) (consumersByTokenID s)
       (f (storagesByTokenID s)) (destinationsIDByTokenID s) (Reloading s) (locked s)
       (nextHandle s) (trace s)).

Definition write_ids (f : Tokenized bool → Tokenized bool) (s : Service) : Service :=
  emit (EvMutate RIDs (locked s))
    (mkService (unitsByName s) (loggersUsageByTokenID s) (consumersByTokenID s)
       (storagesByTokenID s) (f (destinationsIDByTokenID s)) (Reloading s) (locked s)
       (nextHandle s) (trace s)).

(** s.Lock() and s.Unlock() of the embedded RWMutex. *)
Definition Lock (s : Service) : Service := set_locked true (emit EvLock s).
Definition Unlock (s : Service) : Service := set_locked false (emit EvUnlock s).

(** A [for ... range] loop whose body may panic. *)
Fixpoint forEach {A St : Type} (body : A → St → option St) (l : list A) (st : St)
    : option St :=
  match l with
  | [] => Some st
  | x :: l' => st' ← body x st; forEach body l' st'
  end.

(** ** Collaborators of one reconciliation cycle

    The authorization service, the outcome of the storage factory, and the
    order in which the two [range] loops over Go maps visit their entries
    (Go leaves it unspecified: any permutation, see [EnvOK]). *)
Record Env := mkEnv {
  GetAllIDsByToken : list string → list string;
  GetAllTokenIDs : list string;
  Create_fails : string → DestinationConfig → bool;
  range_units : list (string * Unit) → list (string * Unit);
  range_dc : list (string * DestinationConfig) → list (string * DestinationConfig)
}.

Definition EnvOK (env : Env) : Prop :=
  (∀ l, range_units env l ≡ₚ l) ∧ (∀ l, range_dc env l ≡ₚ l).

(** Modelled from the spec: the storage factory's Create gives a storage
    handle and, for stream mode only, a queue handle, or an error. *)
Definition Create (env : Env) (name : string) (destinationConfig : DestinationConfig)
    (s : Service) : option (Handle * option Handle) * Service :=
  if Create_fails env name destinationConfig then
    (None, emit (EvFactoryCreate name false) s)
  else
    let '(newStorageProxy, s) := fresh s in
    if decide (Mode destinationConfig = StreamMode) then
      let '(q, s) := fresh s in
      (Some (newStorageProxy, Some q), emit (EvFactoryCreate name true) s)
    else (Some (newStorageProxy, None), emit (EvFactoryCreate name true) s).

(** Modelled from the spec: the logger factory's CreateIncomingLogger. *)
Definition CreateIncomingLogger (tokenID : string) (s : Service) : Handle * Service :=
  let '(l, s) := fresh s in (l, emit (EvCreateIncomingLogger tokenID l) s).

(** Modelled from the spec: Unit.Close closes the unit's queue, if any, and
    its storage. *)
Definition Unit_Close (name : string) (unit : Unit) (s : Service) : Service :=
  emit (EvUnitClose name (storage unit) (eventQueue unit)) s.

(** ** remove *)

(** The body of the loop over [unit.tokenIDs] in [remove], in its three
    blocks.  [oldConsumers := s.consumersByTokenID[tokenID]] is a reference:
    deletes on it are seen through the outer map, and deleting from a nil
    map does nothing. *)
Definition remove_consumer (name : string) (unit : Unit) (tokenID : string) (s : Service)
    : option Service :=
  s ← match eventQueue unit with
      | Some _ =>
          Some (write_consumers (alter (delete name) tokenID) s)
      | None =>
          (* loggerUsage := s.loggersUsageByTokenID[tokenID]; a missing
             entry is a nil pointer and the decrement dereferences it *)
          loggerUsage ← loggersUsageByTokenID s !! tokenID;
          let loggerUsage := mkLoggerUsage (logger loggerUsage) (usage loggerUsage - 1)%Z in
          let s := write_loggers (<[tokenID := loggerUsage]>) s in
          if decide (usage loggerUsage = 0%Z) then
            let s := write_consumers (alter (delete tokenID) tokenID) s in
            let s := write_loggers (delete tokenID) s in
            Some (emit (EvLoggerClose tokenID (logger loggerUsage)) s)
          else Some s
      end;
  Some (if decide (size (default ∅ (consumersByTokenID s !! tokenID)) = 0)
        then write_consumers (delete tokenID) s else s).

Definition remove_storage (name tokenID : string) (s : Service) : Service :=
  match storagesByTokenID s !! tokenID with
  | Some _ =>
      let s := write_storages (alter (delete name) tokenID) s in
      if decide (size (default ∅ (storagesByTokenID s !! tokenID)) = 0)
      then write_storages (delete tokenID) s else s
  | None => s
  end.

Definition remove_id (name tokenID : string) (s : Service) : Service :=
  match destinationsIDByTokenID s !! tokenID with
  | Some _ =>
      let s := write_ids (alter (delete name) tokenID) s in
      if decide (size (default ∅ (destinationsIDByTokenID s !! tokenID)) = 0)
      then write_ids (delete tokenID) s else s
  | None => s
  end.

Definition remove_token (name : string) (unit : Unit) (tokenID : string) (s : Service)
    : option Service :=
  s ← remove_consumer name unit tokenID s;
  Some (remove_id name tokenID (remove_storage name tokenID s)).

Definition remove (name : string) (unit : Unit) (s : Service) : option Service :=
  s ← forEach (remove_token name unit) (tokenIDs unit) s;
  let s := Unit_Close name unit s in
  let s := write_units (delete name) s in
  Some (log (HasBeenRemoved name) s).

(** ** init *)

(** The three collections [init] fills during a cycle and merges at its
    end: newConsumers, newStorages, newIDs. *)
Record Pending := mkPending {
  newConsumers : Tokenized Consumer;
  newStorages : Tokenized Handle;
  newIDs : Tokenized bool
}.

(** The body of the loop over [destinationConfig.OnlyTokens] that registers
    a freshly built destination under one token. *)
Definition register_token (name : string) (destinationConfig : DestinationConfig)
    (newStorageProxy : Handle) (eventQueue : option Handle) (tokenID : string)
    (st : Service * Pending) : Service * Pending :=
  let '(s, p) := st in
  if Staged destinationConfig then
    (log (SkippingStaged name) s, p)
  else
    let p := mkPending (newConsumers p) (newStorages p) (Add tokenID name true (newIDs p)) in
    if decide (Mode destinationConfig = StreamMode) then
      (s, mkPending (Add tokenID name (QueueConsumer eventQueue) (newConsumers p))
            (newStorages p) (newIDs p))
    else
      (* get or create new logger *)
      let '(loggerUsage, s) :=
        match loggersUsageByTokenID s !! tokenID with
        | Some loggerUsage => (loggerUsage, s)
        | None =>
            let '(incomeLogger, s) := CreateIncomingLogger tokenID s in
            let loggerUsage := mkLoggerUsage incomeLogger 0%Z in
            (loggerUsage, write_loggers (<[tokenID := loggerUsage]>) s)
        end in
      (* loggerUsage != nil always holds here *)
      let loggerUsage := mkLoggerUsage (logger loggerUsage) (usage loggerUsage + 1)%Z in
      let s := write_loggers (<[tokenID := loggerUsage]>) s in
      let p := mkPending (Add tokenID tokenID (LoggerConsumer (logger loggerUsage)) (newConsumers p))
                 (newStorages p) (newIDs p) in
      (* add storage only if batch mode *)
      (s, mkPending (newConsumers p) (Add tokenID name newStorageProxy (newStorages p)) (newIDs p)).

(** From the empty-tokens check to the end of the loop body: build the
    destination and register it. *)
Definition create (env : Env) (name : string) (destinationConfig : DestinationConfig)
    (h : Hash) (st : Service * Pending) : Service * Pending :=
  let '(s, p) := st in
  if decide (length (OnlyTokens destinationConfig) = 0) then
    (log (AuthorizationNotReady name) s, p)
  else
    match Create env name destinationConfig s with
    | (None, s) => (log (ErrorInitializing name) s, p)
    | (Some (newStorageProxy, eventQueue), s) =>
        let s := write_units
                   (<[name := mkUnit eventQueue newStorageProxy
                                (OnlyTokens destinationConfig) h]>) s in
        foldl (λ st tokenID,
                 register_token name destinationConfig newStorageProxy eventQueue tokenID st)
              (s, p) (OnlyTokens destinationConfig)
    end.

(** The config after "map token -> id": OnlyTokens replaced by what the
    authorization service resolves. *)
Definition resolve (env : Env) (d : DestinationConfig) : DestinationConfig :=
  if decide (0 < length (OnlyTokens d)) then
    with_OnlyTokens d (GetAllIDsByToken env (OnlyTokens d))
  else
    with_OnlyTokens d (GetAllTokenIDs env).

(** The body of the create-or-recreate loop of [init]. *)
Definition init_destination (env : Env) (entry : string * DestinationConfig)
    (st : Service * Pending) : option (Service * Pending) :=
  let '(destinationName, d) := entry in
  let '(s, p) := st in
  let name := destinationName in
  let s := if decide (0 < length (OnlyTokens d)) then s
           else log (OnlyTokensNotProvided name) s in
  let destinationConfig := resolve env d in
  let h := getHash name destinationConfig in
  match unitsByName s !! name with
  | Some unit =>
      if decide (hash unit = h) then
        (* destination wasn't changed *)
        Some (s, p)
      else
        (* remove old (for recreation) *)
        s ← remove name unit (Lock s);
        Some (create env name destinationConfig h (Unlock s, p))
  | None => Some (create env name destinationConfig h (s, p))
  end.

(** toDelete: the live units whose name is absent from the new config. *)
Definition toDelete (dc : gmap string DestinationConfig) (units : gmap string Unit)
    : gmap string Unit :=
  filter (λ entry, dc !! entry.1 = None) units.

(** The first part of [init]: close and remove the units that are not in
    the new config. *)
Definition remove_stale (env : Env) (dc : gmap string DestinationConfig) (s : Service)
    : option Service :=
  let toDelete := toDelete dc (unitsByName s) in
  if decide (0 < size toDelete) then
    s ← forEach (λ entry : string * Unit, remove entry.1 entry.2)
          (range_units env (map_to_list toDelete)) (Lock s);
    Some (Unlock s)
  else Some s.

(** The last part of [init]: merge the cycle's collections into the live
    ones under the lock. *)
Definition publish (p : Pending) (s : Service) : Service :=
  let s := Lock s in
  let s := write_consumers (AddAll (newConsumers p)) s in
  let s := write_storages (AddAll (newStorages p)) s in
  let s := write_ids (AddAll (newIDs p)) s in
  Unlock s.

Definition init (env : Env) (dc : gmap string DestinationConfig) (s : Service)
    : option Service :=
  let s := set_Reloading true s in
  (* close and remove non-existent (in new config) *)
  s ← remove_stale env dc s;
  (* create or recreate *)
  '(s, p) ← forEach (init_destination env) (range_dc env (map_to_list dc))
              (s, mkPending ∅ ∅ ∅);
  let s := publish p s in
  Some (set_Reloading false s).

(** ** updateDestinations, the accessors and NewService *)

Definition updateDestinations (env : Env) (payload : list Byte.byte) (s : Service)
    : option Service :=
  match parseFromBytes payload with
  | None => Some (log MarshallingError s)
  | Some dc =>
      s ← init env dc s;
      Some (if decide (size (unitsByName s) = 0) then log DestinationsEmpty s else s)
  end.

Definition GetConsumers (s : Service) (tokenID : string) : list Consumer :=
  (map_to_list (default ∅ (consumersByTokenID s !! tokenID))).*2.

Definition GetStorageByID (s : Service) (id : string) : option Handle * bool :=
  match unitsByName s !! id with
  | None => (None, false)
  | Some unit => (Some (storage unit), true)
  end.

Definition GetStorages (s : Service) (tokenID : string) : list Handle :=
  (map_to_list (default ∅ (storagesByTokenID s !! tokenID))).*2.

Definition GetDestinationIDs (s : Service) (tokenID : string) : gmap string bool :=
  map_fold (λ id _ ids, <[id := true]> ids) ∅
    (default ∅ (destinationsIDByTokenID s !! tokenID)).

(** The service literal at the head of NewService. *)
Definition emptyService : Service :=
  mkService ∅ ∅ ∅ ∅ ∅ false false 0 [].

Inductive NewServiceError :=
| ReloadSecEmpty
| UnknownDestinationSource (destinationsSource : string).

(** strings.HasPrefix, strings.HasSuffix, strings.Contains and
    strings.Replace(s, old, new, 1) on the sources NewService inspects. *)
Definition HasPrefix (s p : string) : bool := String.prefix p s.
Definition HasSuffix (s p : string) : bool :=
  String.prefix (String.rev p) (String.rev s).
Definition Contains (s sub : string) : bool :=
  match String.index 0 sub s with Some _ => true | None => false end.
Definition ReplaceFirst (s old new : string) : string :=
  match String.index 0 old s with
  | Some i =>
      String.substring 0 i s ++ new ++
      String.substring (i + String.length old)
        (String.length s - (i + String.length old)) s
  | None => s
  end.

(** NewService.  [reloadSec] is viper's server.destinations_reload_sec;
    [destinations] is [None] for a nil viper, [Some None] for one whose
    Unmarshal fails and [Some (Some dc)] for one that unmarshals to [dc].
    resources.Watch is recorded as an event: the loads it triggers are
    later calls of [updateDestinations]. *)
Definition NewService (env : Env) (reloadSec : Z)
    (destinations : option (option (gmap string DestinationConfig)))
    (destinationsSource : string) : option (option Service * option NewServiceError) :=
  let service := emptyService in
  if decide (reloadSec = 0%Z) then Some (None, Some ReloadSecEmpty)
  else
    match destinations with
    | Some unmarshalled =>
        match unmarshalled with
        | None => Some (Some (log MarshallingError service), None)
        | Some dc =>
            service ← init env dc service;
            let service :=
              if decide (size (unitsByName service) = 0)
              then log DestinationsEmpty service else service in
            Some (Some service, None)
        end
    | None =>
        if decide (destinationsSource ≠ EmptyString) then
          if HasPrefix destinationsSource "http://" || HasPrefix destinationsSource "https://" then
            Some (Some (emit (EvWatch LoadFromHTTP destinationsSource) service), None)
          else if Contains destinationsSource "file://" || HasPrefix destinationsSource "/" then
            Some (Some (emit (EvWatch LoadFromFile
                                (ReplaceFirst destinationsSource "file://" EmptyString)) service), None)
          else if HasPrefix destinationsSource "{" && HasSuffix destinationsSource "}" then
            service ← updateDestinations env
                        (String.list_byte_of_string destinationsSource) service;
            Some (Some service, None)
          else Some (None, Some (UnknownDestinationSource destinationsSource))
        else Some (Some (log DestinationsNotConfigured service), None)
    end.

(** A run of reconciliation cycles, each with its own collaborators and
    config snapshot. *)
Fixpoint cycles (cs : list (Env * gmap string DestinationConfig)) (s : Service)
    : option Service :=
  match cs with
  | [] => Some s
  | (env, dc) :: cs' => s' ← init env dc s; cycles cs' s'
  end.

(** ** Close *)

(** What Close appends to its multierror: the logger of a token or the unit
    of a destination that failed to close. *)
Inductive CloseError :=
| LoggerCloseError (token : string)
| UnitCloseError (name : string).

(** The collaborators of Close: which loggers and units return an error
    from their Close, and the order in which its two [range] loops visit
    the registries. *)
Record CloseEnv := mkCloseEnv {
  logger_Close_fails : string → Handle → bool;
  unit_Close_fails : string → Unit → bool;
  range_loggers : list (string * LoggerUsage) → list (string * LoggerUsage);
  range_all_units : list (string * Unit) → list (string * Unit)
}.

Definition CloseEnvOK (cenv : CloseEnv) : Prop :=
  (∀ l, range_loggers cenv l ≡ₚ l) ∧ (∀ l, range_all_units cenv l ≡ₚ l).

(** The bodies of the two loops of Close; [multiErr] is the empty list for
    nil. *)
Definition close_logger (cenv : CloseEnv) (st : list CloseError * Service)
    (entry : string * LoggerUsage) : list CloseError * Service :=
  let '(multiErr, s) := st in
  let '(token, loggerUsage) := entry in
  let s := emit (EvLoggerClose token (logger loggerUsage)) s in
  if logger_Close_fails cenv token (logger loggerUsage)
  then ((multiErr ++ [LoggerCloseError token])%list, s)
  else (multiErr, s).

Definition close_unit (cenv : CloseEnv) (st : list CloseError * Service)
    (entry : string * Unit) : list CloseError * Service :=
  let '(multiErr, s) := st in
  let '(name, unit) := entry in
  let s := Unit_Close name unit s in
  if unit_Close_fails cenv name unit
  then ((multiErr ++ [UnitCloseError name])%list, s)
  else (multiErr, s).

(** Close: closes every registered logger, then every registered unit, and
    returns the errors it collected.  It takes no lock and deletes
    nothing. *)
Definition Close (cenv : CloseEnv) (s : Service) : list CloseError * Service :=
  let st := foldl (close_logger cenv) ([], s)
              (range_loggers cenv (map_to_list (loggersUsageByTokenID s))) in
  foldl (close_unit cenv) st
    (range_all_units cenv (map_to_list (unitsByName st.2))).

(** ** Predicates the properties are stated with *)

Local Close Scope string_scope.

(** Every registered logger has at least one user. *)
Definition LoggersOK (s : Service) : Prop :=
  ∀ tokenID lu, loggersUsageByTokenID s !! tokenID = Some lu → (1 ≤ usage lu)%Z.

(** The count the registry holds for a token, 0 when it has no entry. *)
Definition usage_of (s : Service) (tokenID : string) : Z :=
  match loggersUsageByTokenID s !! tokenID with
  | Some lu => usage lu
  | None => 0%Z
  end.

(** The logger [init] attaches a batch destination to under a token: the
    registered one, or the one the logger factory makes next. *)
Definition logger_at (s : Service) (tokenID : string) : Handle :=
  match loggersUsageByTokenID s !! tokenID with
  | Some lu => logger lu
  | None => nextHandle s
  end.

(** Occurrences of a token in a list of token IDs. *)
Definition occ (tokenID : string) (l : list string) : Z :=
  Z.of_nat (length (filter (λ t, t = tokenID) l)).

(** How many times [remove] decrements the token's count for this unit:
    once per occurrence of the token when the unit has no queue. *)
Definition contrib (tokenID : string) (unit : Unit) : Z :=
  match eventQueue unit with
  | Some _ => 0%Z
  | None => occ tokenID (tokenIDs unit)
  end.

Definition attached (units : gmap string Unit) (tokenID : string) : Z :=
  map_fold (λ _ unit acc, (contrib tokenID unit + acc)%Z) 0%Z units.

(** The registry counts exactly the decrements the live units will make. *)
Definition Consistent (s : Service) : Prop :=
  LoggersOK s ∧ ∀ tokenID, usage_of s tokenID = attached (unitsByName s) tokenID.

(** No destination of the snapshot is both staged and not in stream mode. *)
Definition NoStagedBatch (dc : gmap string DestinationConfig) : Prop :=
  ∀ name d, dc !! name = Some d → Staged d = true → Mode d = StreamMode.

(** The state after the factory has drawn [k] handles. *)
Definition bump (k : nat) (s : Service) : Service :=
  mkService (unitsByName s) (loggersUsageByTokenID s) (consumersByTokenID s)
    (storagesByTokenID s) (destinationsIDByTokenID s) (Reloading s) (locked s)
    (k + nextHandle s) (trace s).

(** The unit [create] registers when it builds a destination with the
    resolved config [d] in state [s], and the same from the snapshot's
    config. *)
Definition built_unit (d : DestinationConfig) (h : Hash) (s : Service) : Unit :=
  mkUnit (if decide (Mode d = StreamMode) then Some (S (nextHandle s)) else None)
         (nextHandle s) (OnlyTokens d) h.

Definition new_unit (env : Env) (name : string) (d : DestinationConfig) (s : Service) : Unit :=
  built_unit (resolve env d) (getHash name (resolve env d)) s.

(** Whether [init] gets past the empty-tokens check and the factory. *)
Definition builds (env : Env) (name : string) (d : DestinationConfig) : bool :=
  bool_decide (OnlyTokens (resolve env d) ≠ []) &&
  negb (Create_fails env name (resolve env d)).

(** The registry entry of a destination after its iteration of the loop,
    from the entry before it; [sm] is the state in which it is built. *)
Definition unit_after (env : Env) (name : string) (d : DestinationConfig)
    (old : option Unit) (sm : Service) : option Unit :=
  match old with
  | Some u =>
      if decide (hash u = getHash name (resolve env d)) then Some u
      else if builds env name d then Some (new_unit env name d sm) else None
  | None => if builds env name d then Some (new_unit env name d sm) else None
  end.

(** The factory calls the loop over the entries [l] may make. *)
Definition loop_event (env : Env) (l : list (string * DestinationConfig)) (e : Event) : Prop :=
  match e with
  | EvFactoryCreate name ok =>
      ∃ d, (name, d) ∈ l ∧ OnlyTokens (resolve env d) ≠ [] ∧
           ok = negb (Create_fails env name (resolve env d))
  | _ => True
  end.

(** Events of the life cycle of units and loggers: a removal or a build. *)
Definition lifecycle (e : Event) : bool :=
  match e with
  | EvFactoryCreate _ true | EvCreateIncomingLogger _ _ | EvLoggerClose _ _
  | EvUnitClose _ _ _ | EvMutate RUnits _ | EvMutate RLoggers _
  | EvLog (HasBeenRemoved _) => true
  | _ => false
  end.

(** How often a token's logger has been closed in a trace. *)
Definition closes (tokenID : string) (l : Handle) (tr : list Event) : nat :=
  length (filter (λ e, e = EvLoggerClose tokenID l) tr).

(** The logger events of a trace, in order. *)
Fixpoint levents (tr : list Event) : list Event :=
  match tr with
  | [] => []
  | e :: tr' =>
      match e with
      | EvCreateIncomingLogger _ _ | EvLoggerClose _ _ => e :: levents tr'
      | _ => levents tr'
      end
  end.

(** The logger registry as a state machine: what one step of the code can
    do to the registry, the handle counter and the logger events.  A step
    attaches a user to a token's logger (creating the logger for the first
    one), detaches one (closing the logger with the last one), or leaves
    the three alone. *)
Inductive lstep (s s' : Service) : Prop :=
| lstep_noise :
    loggersUsageByTokenID s' = loggersUsageByTokenID s →
    nextHandle s ≤ nextHandle s' →
    levents (trace s') = levents (trace s) →
    lstep s s'
| lstep_attach_new tokenID :
    loggersUsageByTokenID s !! tokenID = None →
    loggersUsageByTokenID s' =
      <[tokenID := mkLoggerUsage (nextHandle s) 1]> (loggersUsageByTokenID s) →
    nextHandle s' = S (nextHandle s) →
    levents (trace s') =
      levents (trace s) ++ [EvCreateIncomingLogger tokenID (nextHandle s)] →
    lstep s s'
| lstep_attach tokenID lu :
    loggersUsageByTokenID s !! tokenID = Some lu →
    loggersUsageByTokenID s' =
      <[tokenID := mkLoggerUsage (logger lu) (usage lu + 1)]> (loggersUsageByTokenID s) →
    nextHandle s' = nextHandle s →
    levents (trace s') = levents (trace s) →
    lstep s s'
| lstep_detach tokenID lu :
    loggersUsageByTokenID s !! tokenID = Some lu →
    usage lu ≠ 1%Z →
    loggersUsageByTokenID s' =
      <[tokenID := mkLoggerUsage (logger lu) (usage lu - 1)]> (loggersUsageByTokenID s) →
    nextHandle s' = nextHandle s →
    levents (trace s') = levents (trace s) →
    lstep s s'
| lstep_detach_close tokenID lu :
    loggersUsageByTokenID s !! tokenID = Some lu →
    usage lu = 1%Z →
    loggersUsageByTokenID s' = delete tokenID (loggersUsageByTokenID s) →
    nextHandle s' = nextHandle s →
    levents (trace s') = levents (trace s) ++ [EvLoggerClose tokenID (logger lu)] →
    lstep s s'.

(** The life of a logger: one that was created has a handle below the
    counter and has been closed once, unless it is the token's registered
    logger, which has not been closed; registered loggers were created and
    closed ones too. *)
Definition LoggerLife (s : Service) : Prop :=
  (∀ tokenID l, EvCreateIncomingLogger tokenID l ∈ trace s →
     l < nextHandle s ∧
     closes tokenID l (trace s) =
       if decide (logger <$> loggersUsageByTokenID s !! tokenID = Some l) then 0 else 1) ∧
  (∀ tokenID lu, loggersUsageByTokenID s !! tokenID = Some lu →
     EvCreateIncomingLogger tokenID (logger lu) ∈ trace s) ∧
  (∀ tokenID l, EvLoggerClose tokenID l ∈ trace s →
     EvCreateIncomingLogger tokenID l ∈ trace s).

(** What [remove_consumer] does to the logger registry. *)
Definition dec_logger (tokenID : string) (m : gmap string LoggerUsage) : gmap string LoggerUsage :=
  match m !! tokenID with
  | Some lu =>
      if decide (usage lu = 1%Z) then delete tokenID m
      else <[tokenID := mkLoggerUsage (logger lu) (usage lu - 1)]> m
  | None => m
  end.

(** The events a function adds to the trace. *)
Definition extends (P : Event → Prop) (s s' : Service) : Prop :=
  ∃ evs, trace s' = trace s ++ evs ∧ Forall P evs.

(** The events [remove] may add. *)
Definition removal_event (e : Event) : Prop :=
  match e with
  | EvMutate _ _ | EvLoggerClose _ _ | EvUnitClose _ _ _ | EvLog (HasBeenRemoved _) => True
  | _ => False
  end.

Definition not_factory (e : Event) : Prop :=
  match e with EvFactoryCreate _ _ => False | _ => True end.

(** The events [create] may add for the destination [name] with the
    resolved config [d]: a call of the factory is for this destination,
    with non-empty tokens, and has the collaborator's outcome. *)
Definition create_event (env : Env) (name : string) (d : DestinationConfig) (e : Event) : Prop :=
  match e with
  | EvFactoryCreate name' ok =>
      name' = name ∧ OnlyTokens d ≠ [] ∧ ok = negb (Create_fails env name d)
  | _ => True
  end.

(** A log line other than the one [remove] writes. *)
Definition log_event (e : Event) : Prop :=
  match e with
  | EvLog (HasBeenRemoved _) => False
  | EvLog _ => True
  | _ => False
  end.

(** The events that are neither a removal nor a build. *)
Definition quiet (e : Event) : Prop := lifecycle e = false.

(** A call of the factory in a cycle is for a destination of the snapshot
    whose tokens resolved to a non-empty list, and its outcome is the one
    the collaborator gives. *)
Definition factory_event (env : Env) (dc : gmap string DestinationConfig) (e : Event) : Prop :=
  match e with
  | EvFactoryCreate name ok =>
      ∃ d, dc !! name = Some d ∧ OnlyTokens (resolve env d) ≠ [] ∧
           ok = negb (Create_fails env name (resolve env d))
  | _ => True
  end.

(** The storage, ID and queue entries of three tokenized collections all
    belong to units of the registry that list the token; a storage entry
    belongs to a unit without a queue. *)
Definition Routed (units : gmap string Unit) (cs : Tokenized Consumer)
    (ss : Tokenized Handle) (ids : Tokenized bool) : Prop :=
  (∀ T n h, lookup2 ss T n = Some h →
     ∃ u, units !! n = Some u ∧ storage u = h ∧ eventQueue u = None ∧ T ∈ tokenIDs u) ∧
  (∀ T n b, lookup2 ids T n = Some b →
     b = true ∧ ∃ u, units !! n = Some u ∧ T ∈ tokenIDs u) ∧
  (∀ T n q, lookup2 cs T n = Some (QueueConsumer (Some q)) →
     ∃ u, units !! n = Some u ∧ eventQueue u = Some q ∧ T ∈ tokenIDs u).

(** The same for the live collections of the service and for the
    collections a cycle is filling. *)
Definition RoutedLive (s : Service) : Prop :=
  Routed (unitsByName s) (consumersByTokenID s) (storagesByTokenID s)
    (destinationsIDByTokenID s).

Definition RoutedPending (s : Service) (p : Pending) : Prop :=
  Routed (unitsByName s) (newConsumers p) (newStorages p) (newIDs p).

(** The cycle's collections hold no storage, ID or queue entry under the
    key [n]. *)
Definition NoPending (p : Pending) (n : string) : Prop :=
  ∀ T, lookup2 (newStorages p) T n = None ∧ lookup2 (newIDs p) T n = None ∧
       ∀ q, lookup2 (newConsumers p) T n ≠ Some (QueueConsumer (Some q)).

(** Every shared-logger entry of a collection of consumers sits under its
    token's own key and holds the logger registered for the token. *)
Definition LoggersRouted (loggers : gmap string LoggerUsage) (cs : Tokenized Consumer)
    : Prop :=
  ∀ T k l, lookup2 cs T k = Some (LoggerConsumer l) →
    k = T ∧ logger <$> loggers !! T = Some l.

(** The same for the consumers a cycle is collecting, each with a
    registered unit without a queue that uses the token's logger and whose
    name is not among the names [rest] still to be visited. *)
Definition PendingLoggers (rest : list string) (s : Service) (p : Pending) : Prop :=
  ∀ T k l, lookup2 (newConsumers p) T k = Some (LoggerConsumer l) →
    k = T ∧ logger <$> loggersUsageByTokenID s !! T = Some l ∧
    ∃ n0 u0, n0 ∉ rest ∧ unitsByName s !! n0 = Some u0 ∧
             eventQueue u0 = None ∧ T ∈ tokenIDs u0.

(** The lock discipline.  What a step may leave in the trace while the
    write lock stays in the state [held]: it neither locks nor unlocks,
    every write records the state of the lock as it is, and the three
    tokenized maps are written only when the lock is held (the two
    registries may be written without it). *)
Definition lock_ok (held : bool) (e : Event) : bool :=
  match e with
  | EvLock | EvUnlock => false
  | EvMutate r h =>
      Bool.eqb h held && (held || bool_decide (r = RUnits ∨ r = RLoggers))
  | _ => true
  end.

(** Runs a stretch of the trace from the lock state [held]: Lock needs a
    free lock, Unlock a held one, and every other event must be [lock_ok].
    The result is the state of the lock at the end, or [None] when the
    discipline is broken. *)
Fixpoint lock_run (held : bool) (evs : list Event) : option bool :=
  match evs with
  | [] => Some held
  | EvLock :: evs' => if held then None else lock_run true evs'
  | EvUnlock :: evs' => if held then lock_run false evs' else None
  | e :: evs' => if lock_ok held e then lock_run held evs' else None
  end.

(** The events between two states obey the lock discipline. *)
Definition lockrun (s s' : Service) : Prop :=
  ∃ evs, trace s' = trace s ++ evs ∧ lock_run (locked s) evs = Some (locked s').

(** The same service state, the trace and the flags apart. *)
Definition same_state (s s' : Service) : Prop :=
  unitsByName s' = unitsByName s ∧
  loggersUsageByTokenID s' = loggersUsageByTokenID s ∧
  consumersByTokenID s' = consumersByTokenID s ∧
  storagesByTokenID s' = storagesByTokenID s ∧
  destinationsIDByTokenID s' = destinationsIDByTokenID s ∧
  nextHandle s' = nextHandle s.

End Model.

(** ** A concrete instance, for the examples *)

#[global] Instance DestinationConfig_eq_dec : EqDecision DestinationConfig.
Proof. solve_decision. Defined.

#[global] Instance byte_eq_dec : EqDecision Byte.byte := Byte.byte_eq_dec.

(** The hash is the pair itself and only the payload "{}" parses. *)
#[global] Instance demoHelpers : Helpers := {|
  Hash := string * DestinationConfig;
  getHash := pair;
  parseFromBytes := λ payload,
    if decide (payload = String.list_byte_of_string "{}") then Some ∅ else None
|}.

(** Tokens resolve to themselves, the factory never fails, and the range
    loops visit the entries in the order of [map_to_list], or in the
    reverse order for the destinations of [demoEnvRev]. *)
Definition demoEnv : Env :=
  mkEnv (λ ts, ts) [] (λ _ _, false) (λ l, l) (λ l, l).
Definition demoEnvRev : Env :=
  mkEnv (λ ts, ts) [] (λ _ _, false) (λ l, l) (λ l, reverse l).

Definition demoBatch (t : string) : DestinationConfig :=
  mkDestinationConfig "redshift" "batch" [t] false EmptyString.
Definition demoStream (t : string) : DestinationConfig :=
  mkDestinationConfig "redshift" "stream" [t] false EmptyString.
Definition demoStaged (type : string) (t : string) : DestinationConfig :=
  mkDestinationConfig type "batch" [t] true EmptyString.

(** Snapshots: one batch destination; one staged batch destination; the
    staged one with another type next to a batch one on the same token. *)
Definition demoOneBatch : gmap string DestinationConfig :=
  {[ "A" := demoBatch "T" ]}.
Definition demoStagedOnly : gmap string DestinationConfig :=
  {[ "A" := demoStaged "redshift" "T" ]}.
Definition demoStagedChanged : gmap string DestinationConfig :=
  <[ "A" := demoStaged "postgres" "T" ]> {[ "B" := demoBatch "T" ]}.

(** More snapshots: a batch and a stream destination on one token; a
    destination that lists no token; and collaborators that know the
    token T. *)
Definition demoTwo : gmap string DestinationConfig :=
  <[ "A" := demoBatch "T" ]> {[ "B" := demoStream "T" ]}.
Definition demoNoTokens : DestinationConfig :=
  mkDestinationConfig "redshift" "batch" [] false EmptyString.
Definition demoNoTokensOnly : gmap string DestinationConfig :=
  {[ "C" := demoNoTokens ]}.

(** Collaborators of Close: every logger fails to close, no unit does, and
    the units are visited in the reverse order. *)
Definition demoCloseEnv : CloseEnv :=
  mkCloseEnv (λ _ _, true) (λ _ _, false) (λ l, l) (λ l, reverse l).

(** * Properties *)

Local Close Scope string_scope.

Section Proofs.
Context `{Helpers}.

Ltac prim :=
  cbn [write_units write_loggers write_consumers write_storages write_ids
       Unit_Close log Lock Unlock set_locked set_Reloading emit fresh bump
       CreateIncomingLogger
       unitsByName loggersUsageByTokenID consumersByTokenID storagesByTokenID
       destinationsIDByTokenID Reloading locked nextHandle trace fst snd] in *.

Ltac primg :=
  cbn [write_units write_loggers write_consumers write_storages write_ids
       Unit_Close log Lock Unlock set_locked set_Reloading emit fresh bump
       CreateIncomingLogger
       unitsByName loggersUsageByTokenID consumersByTokenID storagesByTokenID
       destinationsIDByTokenID Reloading locked nextHandle trace fst snd].

Ltac ext :=
  unfold extends; prim; rewrite <- ?app_assoc;
  eexists; split; [reflexivity|]; cbn [app].

Ltac fa :=
  repeat first [apply Forall_nil_2 | apply Forall_cons_2; [try exact I; try done|]].

(** ** Loops *)

Lemma forEach_inv {A St} (P : St → Prop) (body : A → St → option St) l :
  (∀ x st st', x ∈ l → P st → body x st = Some st' → P st') →
  ∀ st st', P st → forEach body l st = Some st' → P st'.
Proof.
  induction l as [|x l IH]; intros Hb st st' HP Hrun; simpl in Hrun.
  - by simplify_eq.
  - destruct (body x st) as [st1|] eqn:E; simplify_option_eq.
    eapply IH; [| |done].
    + intros; eapply Hb; eauto. by right.
    + eapply Hb; eauto. by left.
Qed.

Lemma forEach_app {A St} (body : A → St → option St) l1 l2 st :
  forEach body (l1 ++ l2) st = forEach body l1 st ≫= forEach body l2.
Proof.
  revert st; induction l1 as [|x l1 IH]; intros st; simpl; [done|].
  destruct (body x st); simpl; auto.
Qed.

(** ** The primitives leave the other fields alone *)

Lemma remove_consumer_frame n u T s s' :
  remove_consumer n u T s = Some s' →
  unitsByName s' = unitsByName s ∧ storagesByTokenID s' = storagesByTokenID s ∧
  destinationsIDByTokenID s' = destinationsIDByTokenID s ∧
  nextHandle s' = nextHandle s ∧ locked s' = locked s ∧ Reloading s' = Reloading s.
Proof.
  unfold remove_consumer. intros Hr.
  destruct (eventQueue u); simplify_option_eq; repeat case_decide; prim; done.
Qed.

Lemma remove_consumer_loggers n u T s s' :
  remove_consumer n u T s = Some s' →
  loggersUsageByTokenID s' =
    match eventQueue u with
    | Some _ => loggersUsageByTokenID s
    | None => dec_logger T (loggersUsageByTokenID s)
    end ∧
  (eventQueue u = None → is_Some (loggersUsageByTokenID s !! T)).
Proof.
  unfold remove_consumer, dec_logger. intros Hr.
  destruct (eventQueue u); simplify_option_eq; repeat case_decide; prim.
  all: try (split; [|eauto]); try done.
  all: try (exfalso; simpl in *; lia); by rewrite delete_insert_eq.
Qed.

Lemma remove_consumer_total n u T s :
  (eventQueue u = None → is_Some (loggersUsageByTokenID s !! T)) →
  is_Some (remove_consumer n u T s).
Proof.
  unfold remove_consumer. intros Hl.
  destruct (eventQueue u); simpl; [eauto|].
  destruct Hl as [lu ->]; [done|]. simpl. case_decide; simpl; eauto.
Qed.

Lemma extends_refl P s : extends P s s.
Proof. exists []. by rewrite app_nil_r. Qed.

Lemma extends_trans P s1 s2 s3 : extends P s1 s2 → extends P s2 s3 → extends P s1 s3.
Proof.
  intros (e1 & E1 & F1) (e2 & E2 & F2). exists (e1 ++ e2).
  rewrite E2, E1, app_assoc. split; [done|]. by apply Forall_app.
Qed.

Lemma extends_weaken (P Q : Event → Prop) s s' :
  (∀ e, P e → Q e) → extends P s s' → extends Q s s'.
Proof. intros HPQ (e & E & F). exists e. split; [done|]. eapply Forall_impl; eauto. Qed.

Lemma extends_emit (P : Event → Prop) e s : P e → extends P s (emit e s).
Proof. intros. exists [e]. split; [done|]. by constructor. Qed.

Lemma levents_app tr1 tr2 : levents (tr1 ++ tr2) = levents tr1 ++ levents tr2.
Proof.
  induction tr1 as [|e tr1 IH]; [done|]. destruct e; simpl; by rewrite ?IH.
Qed.

Ltac lev := rewrite ?levents_app; cbn [levents app]; rewrite ?app_nil_r.

Lemma lstep_noise_refl s : lstep s s.
Proof. by apply lstep_noise. Qed.

Lemma lsteps_forEach {A} (body : A → Service → option Service) l :
  (∀ x s s', body x s = Some s' → rtc lstep s s') →
  ∀ s s', forEach body l s = Some s' → rtc lstep s s'.
Proof.
  intros Hb. induction l as [|x l IH]; intros s s' Hrun; simpl in Hrun.
  - simplify_eq. done.
  - destruct (body x s) as [s1|] eqn:E; simplify_option_eq.
    etrans; [by eapply Hb|]. by apply IH.
Qed.

Lemma remove_consumer_lsteps n u T s s' :
  remove_consumer n u T s = Some s' → rtc lstep s s'.
Proof.
  unfold remove_consumer. intros Hr.
  destruct (eventQueue u); simplify_option_eq; repeat case_decide.
  all: apply rtc_once.
  all: try (apply lstep_noise; prim; lev; done).
  1,2: apply (lstep_detach_close _ _ T H1); prim; lev; try done; try lia;
       by rewrite delete_insert_eq.
  all: apply (lstep_detach _ _ T H1); prim; lev; try done; lia.
Qed.

Lemma lstep_other s s' :
  loggersUsageByTokenID s' = loggersUsageByTokenID s →
  nextHandle s' = nextHandle s →
  levents (trace s') = levents (trace s) →
  rtc lstep s s'.
Proof. intros. apply rtc_once, lstep_noise; auto. lia. Qed.

Lemma remove_storage_lsteps n T s : rtc lstep s (remove_storage n T s).
Proof.
  unfold remove_storage. destruct (storagesByTokenID s !! T); [|done].
  case_decide; apply lstep_other; prim; lev; done.
Qed.

Lemma remove_id_lsteps n T s : rtc lstep s (remove_id n T s).
Proof.
  unfold remove_id. destruct (destinationsIDByTokenID s !! T); [|done].
  case_decide; apply lstep_other; prim; lev; done.
Qed.

Lemma remove_token_lsteps n u T s s' :
  remove_token n u T s = Some s' → rtc lstep s s'.
Proof.
  unfold remove_token. intros Hr.
  destruct (remove_consumer n u T s) as [s1|] eqn:E; simplify_option_eq.
  etrans; [by eapply remove_consumer_lsteps|].
  etrans; [apply remove_storage_lsteps|]. apply remove_id_lsteps.
Qed.

Lemma remove_lsteps n u s s' : remove n u s = Some s' → rtc lstep s s'.
Proof.
  unfold remove. intros Hr.
  destruct (forEach (remove_token n u) (tokenIDs u) s) as [s1|] eqn:E; simplify_option_eq.
  etrans; [eapply lsteps_forEach; [|done]; apply remove_token_lsteps|].
  apply lstep_other; prim; lev; done.
Qed.

Lemma register_token_lsteps n d st q T s p :
  rtc lstep s (register_token n d st q T (s, p)).1.
Proof.
  unfold register_token.
  destruct (Staged d); [apply lstep_other; prim; lev; done|].
  case_decide; [done|].
  destruct (loggersUsageByTokenID s !! T) as [lu|] eqn:E.
  - apply rtc_once, (lstep_attach _ _ T lu); prim; lev; done.
  - apply rtc_once, (lstep_attach_new _ _ T); prim; lev; try done.
    by rewrite insert_insert_eq.
Qed.
Lemma register_loop_lsteps n d st q ts sp :
  rtc lstep sp.1 (foldl (λ acc T, register_token n d st q T acc) sp ts).1.
Proof.
  revert sp. induction ts as [|T ts IH]; intros [s p]; [done|].
  cbn [foldl]. etrans; [apply (register_token_lsteps n d st q T s p)|].
  apply IH.
Qed.

Lemma create_lsteps env n d h s p : rtc lstep s (create env n d h (s, p)).1.
Proof.
  unfold create. case_decide; [apply lstep_other; prim; lev; done|].
  unfold Create. destruct (Create_fails env n d).
  { apply lstep_other; prim; lev; done. }
  case_decide.
  all: etrans; [|apply register_loop_lsteps].
  all: apply rtc_once, lstep_noise; prim; lev; try done; lia.
Qed.

Lemma init_destination_lsteps env x s p s' p' :
  init_destination env x (s, p) = Some (s', p') → rtc lstep s s'.
Proof.
  unfold init_destination. destruct x as [n d]. intros Hr.
  set (s0 := if decide (0 < length (OnlyTokens d)) then s
             else log (OnlyTokensNotProvided n) s) in *.
  assert (rtc lstep s s0) as H0.
  { subst s0. case_decide; [done|]. apply lstep_other; prim; lev; done. }
  etrans; [exact H0|]. clear H0.
  set (d' := resolve env d) in *. set (h := getHash n d') in *.
  destruct (unitsByName s0 !! n) as [u|].
  - case_decide; [by simplify_eq|].
    destruct (remove n u (Lock s0)) as [s1|] eqn:E; [|done].
    cbn [mbind option_bind] in Hr. apply (inj Some) in Hr.
    etrans; [apply (lstep_other s0 (Lock s0)); prim; lev; done|].
    etrans; [by eapply remove_lsteps|].
    etrans; [apply (lstep_other s1 (Unlock s1)); prim; lev; done|].
    pose proof (create_lsteps env n d' h (Unlock s1) p) as Hs.
    by rewrite Hr in Hs.
  - apply (inj Some) in Hr.
    pose proof (create_lsteps env n d' h s0 p) as Hs.
    by rewrite Hr in Hs.
Qed.

Lemma init_loop_lsteps env l : ∀ s p s' p',
  forEach (init_destination env) l (s, p) = Some (s', p') → rtc lstep s s'.
Proof.
  induction l as [|x l IH]; intros s p s' p' Hr; cbn [forEach] in Hr.
  - by simplify_eq.
  - destruct (init_destination env x (s, p)) as [[s1 p1]|] eqn:E; simplify_option_eq.
    etrans; [by eapply init_destination_lsteps|]. by eapply IH.
Qed.

Lemma remove_stale_lsteps env dc s s' : remove_stale env dc s = Some s' → rtc lstep s s'.
Proof.
  unfold remove_stale. intros Hr.
  case_decide; [|by simplify_eq].
  match type of Hr with (?loop ≫= _) = _ => destruct loop as [s0|] eqn:E0 end; [|done].
  cbn [mbind option_bind] in Hr. simplify_eq.
  etrans; [apply (lstep_other _ (Lock s)); prim; lev; done|].
  etrans; [|apply (lstep_other s0 (Unlock s0)); prim; lev; done].
  eapply (lsteps_forEach (λ entry, remove entry.1 entry.2)); [|exact E0].
  intros x a b Hx. by eapply remove_lsteps.
Qed.

Lemma init_lsteps env dc s s' : init env dc s = Some s' → rtc lstep s s'.
Proof.
  unfold init. intros Hr.
  destruct (remove_stale env dc (set_Reloading true s)) as [s1|] eqn:Edel; [|done].
  cbn [mbind option_bind] in Hr.
  match type of Hr with (?loop ≫= _) = _ => destruct loop as [[s2 p2]|] eqn:Eloop end;
    [|done].
  cbn [mbind option_bind] in Hr. simplify_eq.
  etrans; [apply (lstep_other s (set_Reloading true s)); prim; lev; done|].
  etrans; [by eapply remove_stale_lsteps|].
  etrans; [by eapply init_loop_lsteps|].
  apply lstep_other; unfold publish; prim; lev; done.
Qed.

Lemma cycles_lsteps cs : ∀ s s', cycles cs s = Some s' → rtc lstep s s'.
Proof.
  induction cs as [|[env dc] cs IH]; intros s s' Hr; cbn [cycles] in Hr.
  - by simplify_eq.
  - destruct (init env dc s) as [s1|] eqn:E; [|done].
    cbn [mbind option_bind] in Hr.
    etrans; [by eapply init_lsteps|]. by apply IH.
Qed.

(** ** Invariants of the logger registry *)

Lemma lstep_LoggersOK s s' : lstep s s' → LoggersOK s → LoggersOK s'.
Proof.
  unfold LoggersOK.
  intros [Hl _ _|T Hn Hl _ _|T lu Hs Hl _ _|T lu Hs Hu Hl _ _|T lu Hs Hu Hl _ _] HI T' lu';
    rewrite Hl; intros Hlk.
  - eauto.
  - destruct (decide (T = T')) as [->|]; simplify_map_eq; [cbn; lia|eauto].
  - destruct (decide (T = T')) as [->|]; simplify_map_eq; [|eauto].
    apply HI in Hs. cbn; lia.
  - destruct (decide (T = T')) as [->|]; simplify_map_eq; [|eauto].
    apply HI in Hs. cbn; lia.
  - destruct (decide (T = T')) as [->|]; simplify_map_eq; eauto.
Qed.

Lemma lsteps_LoggersOK s s' : rtc lstep s s' → LoggersOK s → LoggersOK s'.
Proof. induction 1; eauto using lstep_LoggersOK. Qed.

Lemma elem_of_levents e tr :
  e ∈ levents tr ↔
  e ∈ tr ∧ ((∃ T l, e = EvCreateIncomingLogger T l) ∨ (∃ T l, e = EvLoggerClose T l)).
Proof.
  induction tr as [|e' tr IH].
  - cbn [levents]. split; [by intros ?%elem_of_nil|by intros [?%elem_of_nil _]].
  - destruct e'; cbn [levents]; rewrite ?elem_of_cons, IH; naive_solver.
Qed.

Lemma created_levents T l tr :
  EvCreateIncomingLogger T l ∈ tr ↔ EvCreateIncomingLogger T l ∈ levents tr.
Proof. rewrite elem_of_levents. naive_solver. Qed.

Lemma closed_levents T l tr :
  EvLoggerClose T l ∈ tr ↔ EvLoggerClose T l ∈ levents tr.
Proof. rewrite elem_of_levents. naive_solver. Qed.

Lemma closes_app T l tr1 tr2 : closes T l (tr1 ++ tr2) = closes T l tr1 + closes T l tr2.
Proof. unfold closes. by rewrite filter_app, length_app. Qed.

Lemma closes_levents T l tr : closes T l (levents tr) = closes T l tr.
Proof.
  unfold closes. induction tr as [|e tr IH]; [done|].
  destruct e; cbn [levents]; rewrite ?filter_cons; repeat case_decide;
    simplify_eq; cbn [length]; congruence.
Qed.

Lemma closes_0 T l tr : closes T l tr = 0 ↔ EvLoggerClose T l ∉ tr.
Proof.
  unfold closes. induction tr as [|e tr IH].
  - split; [intros _ ?%elem_of_nil; done|done].
  - rewrite filter_cons, not_elem_of_cons. case_decide; cbn [length]; naive_solver.
Qed.

Lemma closes_single T l e :
  closes T l [e] = if decide (e = EvLoggerClose T l) then 1 else 0.
Proof. unfold closes. rewrite filter_cons. by case_decide. Qed.

(** [LoggerLife] stated on the logger events only. *)
Lemma LoggerLife_levents s :
  LoggerLife s ↔
  (∀ T l, EvCreateIncomingLogger T l ∈ levents (trace s) →
     l < nextHandle s ∧
     closes T l (levents (trace s)) =
       if decide (logger <$> loggersUsageByTokenID s !! T = Some l) then 0 else 1) ∧
  (∀ T lu, loggersUsageByTokenID s !! T = Some lu →
     EvCreateIncomingLogger T (logger lu) ∈ levents (trace s)) ∧
  (∀ T l, EvLoggerClose T l ∈ levents (trace s) →
     EvCreateIncomingLogger T l ∈ levents (trace s)).
Proof.
  unfold LoggerLife.
  setoid_rewrite closes_levents.
  setoid_rewrite <- created_levents. setoid_rewrite <- closed_levents. done.
Qed.

Lemma logger_lookup_insert_same (m : gmap string LoggerUsage) T lu z T' :
  m !! T = Some lu →
  logger <$> <[T := mkLoggerUsage (logger lu) z]> m !! T' = logger <$> m !! T'.
Proof.
  intros Hs. destruct (decide (T = T')) as [->|].
  - by rewrite lookup_insert_eq, Hs.
  - by rewrite lookup_insert_ne.
Qed.

Lemma lstep_LoggerLife s s' : lstep s s' → LoggerLife s → LoggerLife s'.
Proof.
  rewrite !LoggerLife_levents.
  intros [Hl Hn He|T Hnone Hl Hn He|T lu Hs Hl Hn He|T lu Hs Hu Hl Hn He|T lu Hs Hu Hl Hn He]
    (I1 & I2 & I3); rewrite He, Hl.
  - split_and!; [|done..]. intros T l Hin. destruct (I1 T l Hin). split; [lia|done].
  - assert (closes T (nextHandle s) (levents (trace s)) = 0) as Hfresh.
    { apply closes_0. intros Hin%I3%I1. lia. }
    split_and!.
    + intros T' l [Hin|Hin%list_elem_of_singleton]%elem_of_app.
      * destruct (I1 T' l Hin) as [Hlt Hc]. split; [lia|].
        rewrite closes_app, closes_single, decide_False by done.
        rewrite Nat.add_0_r, Hc.
        destruct (decide (T = T')) as [->|].
        -- rewrite lookup_insert_eq, Hnone. cbn [fmap option_fmap option_map].
           rewrite (decide_False (P := None = _)) by done.
           rewrite decide_False; [done|]. intros [=]. lia.
        -- by rewrite lookup_insert_ne.
      * simplify_eq. split; [lia|].
        rewrite closes_app, closes_single, decide_False by done.
        rewrite Nat.add_0_r, Hfresh, lookup_insert_eq. by rewrite decide_True.
    + intros T' lu' Hlk. apply elem_of_app.
      destruct (decide (T = T')) as [->|].
      * rewrite lookup_insert_eq in Hlk. simplify_eq.
        right. by apply list_elem_of_singleton.
      * rewrite lookup_insert_ne in Hlk by done. left. eauto.
    + intros T' l [Hin|Hin%list_elem_of_singleton]%elem_of_app; [|done].
      apply elem_of_app. left. eauto.
  - split_and!; [| |done].
    + intros T' l Hin. rewrite logger_lookup_insert_same, Hn by done. eauto.
    + intros T' lu' Hlk. destruct (decide (T = T')) as [->|].
      * rewrite lookup_insert_eq in Hlk. simplify_eq. apply (I2 _ _ Hs).
      * rewrite lookup_insert_ne in Hlk by done. eauto.
  - split_and!; [| |done].
    + intros T' l Hin. rewrite logger_lookup_insert_same, Hn by done. eauto.
    + intros T' lu' Hlk. destruct (decide (T = T')) as [->|].
      * rewrite lookup_insert_eq in Hlk. simplify_eq. apply (I2 _ _ Hs).
      * rewrite lookup_insert_ne in Hlk by done. eauto.
  - split_and!.
    + intros T' l [Hin|Hin%list_elem_of_singleton]%elem_of_app; [|done].
      destruct (I1 T' l Hin) as [Hlt Hc]. split; [lia|].
      rewrite closes_app, closes_single, Hc.
      destruct (decide (T = T')) as [->|].
      * rewrite lookup_delete_eq, Hs. cbn [fmap option_fmap option_map].
        rewrite (decide_False (P := None = Some l)) by done.
        destruct (decide (logger lu = l)) as [->|].
        -- by rewrite !decide_True by done.
        -- rewrite !decide_False by congruence. done.
      * rewrite lookup_delete_ne by done.
        rewrite (decide_False (P := EvLoggerClose _ _ = _)) by congruence. lia.
    + intros T' lu' Hlk. apply elem_of_app. left.
      destruct (decide (T = T')) as [->|].
      * by rewrite lookup_delete_eq in Hlk.
      * rewrite lookup_delete_ne in Hlk by done. eauto.
    + intros T' l [Hin|Hin%list_elem_of_singleton]%elem_of_app; apply elem_of_app; left.
      * eauto.
      * simplify_eq. eauto.
Qed.

Lemma lsteps_LoggerLife s s' : rtc lstep s s' → LoggerLife s → LoggerLife s'.
Proof. induction 1; eauto using lstep_LoggerLife. Qed.

(** ** What [remove] does to the registry of units and to the trace *)

Lemma extends_mono P s s' : extends P s s' → ∃ evs, trace s' = trace s ++ evs.
Proof. intros (evs & E & _). eauto. Qed.

Lemma extends_elem P s s' e : extends P s s' → e ∈ trace s → e ∈ trace s'.
Proof. intros (evs & -> & _) Hin. apply elem_of_app. by left. Qed.

Lemma remove_consumer_extends n u T s s' :
  remove_consumer n u T s = Some s' → extends removal_event s s'.
Proof.
  unfold remove_consumer. intros Hr.
  destruct (eventQueue u); simplify_option_eq; repeat case_decide; ext; fa.
Qed.

Lemma remove_storage_frame n T s :
  let s' := remove_storage n T s in
  unitsByName s' = unitsByName s ∧ loggersUsageByTokenID s' = loggersUsageByTokenID s ∧
  nextHandle s' = nextHandle s ∧ locked s' = locked s ∧ Reloading s' = Reloading s ∧
  extends removal_event s s'.
Proof.
  unfold remove_storage. destruct (storagesByTokenID s !! T).
  - case_decide; prim; split_and!; try done; ext; fa.
  - split_and!; try done. apply extends_refl.
Qed.

Lemma remove_id_frame n T s :
  let s' := remove_id n T s in
  unitsByName s' = unitsByName s ∧ loggersUsageByTokenID s' = loggersUsageByTokenID s ∧
  nextHandle s' = nextHandle s ∧ locked s' = locked s ∧ Reloading s' = Reloading s ∧
  extends removal_event s s'.
Proof.
  unfold remove_id. destruct (destinationsIDByTokenID s !! T).
  - case_decide; prim; split_and!; try done; ext; fa.
  - split_and!; try done. apply extends_refl.
Qed.

Lemma remove_token_frame n u T s s' :
  remove_token n u T s = Some s' →
  unitsByName s' = unitsByName s ∧ nextHandle s' = nextHandle s ∧
  locked s' = locked s ∧ Reloading s' = Reloading s ∧ extends removal_event s s'.
Proof.
  unfold remove_token. intros Hr.
  destruct (remove_consumer n u T s) as [s1|] eqn:E; [|done].
  cbn [mbind option_bind] in Hr. apply (inj Some) in Hr. subst s'.
  destruct (remove_consumer_frame _ _ _ _ _ E) as (U1 & _ & _ & N1 & L1 & R1).
  pose proof (remove_consumer_extends _ _ _ _ _ E) as X1.
  destruct (remove_storage_frame n T s1) as (U2 & _ & N2 & L2 & R2 & X2).
  destruct (remove_id_frame n T (remove_storage n T s1)) as (U3 & _ & N3 & L3 & R3 & X3).
  split_and!; try congruence.
  eauto using extends_trans.
Qed.

Lemma remove_tokens_frame n u ts : ∀ s s',
  forEach (remove_token n u) ts s = Some s' →
  unitsByName s' = unitsByName s ∧ nextHandle s' = nextHandle s ∧
  locked s' = locked s ∧ Reloading s' = Reloading s ∧ extends removal_event s s'.
Proof.
  induction ts as [|T ts IH]; intros s s' Hr; cbn [forEach] in Hr.
  - simplify_eq. split_and!; try done. apply extends_refl.
  - destruct (remove_token n u T s) as [s1|] eqn:E; [|done].
    cbn [mbind option_bind] in Hr.
    destruct (remove_token_frame _ _ _ _ _ E) as (U1 & N1 & L1 & R1 & X1).
    destruct (IH _ _ Hr) as (U2 & N2 & L2 & R2 & X2).
    split_and!; try congruence. eauto using extends_trans.
Qed.

Lemma remove_spec n u s s' :
  remove n u s = Some s' →
  unitsByName s' = delete n (unitsByName s) ∧ nextHandle s' = nextHandle s ∧
  locked s' = locked s ∧ Reloading s' = Reloading s ∧
  extends removal_event s s' ∧
  ∃ evs, trace s' = trace s ++ evs ∧ EvUnitClose n (storage u) (eventQueue u) ∈ evs.
Proof.
  unfold remove. intros Hr.
  destruct (forEach (remove_token n u) (tokenIDs u) s) as [s1|] eqn:E; [|done].
  cbn [mbind option_bind] in Hr. apply (inj Some) in Hr. subst s'.
  destruct (remove_tokens_frame _ _ _ _ _ E) as (U1 & N1 & L1 & R1 & (evs & E1 & F1)).
  unfold extends. prim. rewrite U1, N1, L1, R1, E1. split_and!; try done.
  - rewrite <- !app_assoc. eexists; split; [reflexivity|].
    apply Forall_app; split; [done|]. cbn [app]. fa.
  - rewrite <- !app_assoc. eexists; split; [reflexivity|].
    rewrite elem_of_app. right. cbn [app]. apply elem_of_cons. by left.
Qed.

(** ** What building a destination does *)

Lemma register_token_frame n d st q T s p :
  let s' := (register_token n d st q T (s, p)).1 in
  unitsByName s' = unitsByName s ∧ consumersByTokenID s' = consumersByTokenID s ∧
  storagesByTokenID s' = storagesByTokenID s ∧
  destinationsIDByTokenID s' = destinationsIDByTokenID s ∧
  locked s' = locked s ∧ Reloading s' = Reloading s ∧
  nextHandle s ≤ nextHandle s' ∧ extends not_factory s s'.
Proof.
  unfold register_token. destruct (Staged d).
  { prim. split_and!; try done. ext. fa. }
  case_decide.
  { prim. split_and!; try done. apply extends_refl. }
  destruct (loggersUsageByTokenID s !! T); prim; split_and!; try done; try lia.
  all: ext; fa.
Qed.

Lemma register_loop_frame n d st q ts : ∀ sp,
  let s' := (foldl (λ acc T, register_token n d st q T acc) sp ts).1 in
  unitsByName s' = unitsByName sp.1 ∧ consumersByTokenID s' = consumersByTokenID sp.1 ∧
  storagesByTokenID s' = storagesByTokenID sp.1 ∧
  destinationsIDByTokenID s' = destinationsIDByTokenID sp.1 ∧
  locked s' = locked sp.1 ∧ Reloading s' = Reloading sp.1 ∧
  nextHandle sp.1 ≤ nextHandle s' ∧ extends not_factory sp.1 s'.
Proof.
  induction ts as [|T ts IH]; intros [s p]; cbn [foldl].
  - cbn [fst]. split_and!; try done. apply extends_refl.
  - destruct (register_token_frame n d st q T s p) as (U1 & C1 & S1 & I1 & L1 & R1 & N1 & X1).
    specialize (IH (register_token n d st q T (s, p))).
    destruct IH as (U2 & C2 & S2 & I2 & L2 & R2 & N2 & X2).
    cbn [fst]. split_and!; try congruence; [lia|]. eauto using extends_trans.
Qed.

Lemma Create_eq env n d s :
  Create env n d s =
    if Create_fails env n d then (None, emit (EvFactoryCreate n false) s)
    else (Some (nextHandle s,
                if decide (Mode d = StreamMode) then Some (S (nextHandle s)) else None),
          emit (EvFactoryCreate n true)
            (bump (if decide (Mode d = StreamMode) then 2 else 1) s)).
Proof.
  unfold Create. destruct (Create_fails env n d); [done|].
  case_decide; reflexivity.
Qed.

Lemma create_spec env n d h s p sp' :
  create env n d h (s, p) = sp' →
  consumersByTokenID sp'.1 = consumersByTokenID s ∧
  storagesByTokenID sp'.1 = storagesByTokenID s ∧
  destinationsIDByTokenID sp'.1 = destinationsIDByTokenID s ∧
  locked sp'.1 = locked s ∧ Reloading sp'.1 = Reloading s ∧
  nextHandle s ≤ nextHandle sp'.1 ∧
  extends (create_event env n d) s sp'.1 ∧
  if bool_decide (OnlyTokens d ≠ []) && negb (Create_fails env n d)
  then unitsByName sp'.1 = <[n := built_unit d h s]> (unitsByName s) ∧
       nextHandle s < nextHandle sp'.1 ∧
       ∃ evs, trace sp'.1 = trace s ++ evs ∧ EvFactoryCreate n true ∈ evs
  else same_state s sp'.1 ∧ sp'.2 = p ∧ extends quiet s sp'.1.
Proof.
  unfold create. case_decide as Hlen.
  { intros <-.
    apply length_zero_iff_nil in Hlen. rewrite bool_decide_false by (by intros []).
    cbn [andb]. unfold same_state. prim. split_and!; try done.
    - ext. fa.
    - ext. fa. }
  assert (OnlyTokens d ≠ []) as Hne by (intros E; by rewrite E in Hlen).
  rewrite bool_decide_true by done. cbn [andb].
  rewrite Create_eq. destruct (Create_fails env n d) eqn:Ef; cbn [negb].
  { intros <-. unfold same_state. prim. split_and!; try done.
    - ext. fa. cbn [create_event]. by rewrite Ef.
    - ext. fa. }
  unfold built_unit.
  set (q := if decide (Mode d = StreamMode) then Some (S (nextHandle s)) else None).
  set (k := if decide (Mode d = StreamMode) then 2 else 1).
  assert (1 ≤ k) as Hk by (subst k; case_decide; lia).
  intros <-.
  match goal with |- context [foldl ?f ?sp0 ?ts] =>
    destruct (register_loop_frame n d (nextHandle s) q ts sp0)
      as (U & C & S & I & L & R & N & (evs & E & F)) end.
  unfold extends. prim. rewrite U, C, S, I, L, R, E. clear U C S I L R.
  split_and!; try done; try lia.
  - rewrite <- !app_assoc. eexists; split; [reflexivity|]. cbn [app].
    fa.
    + cbn [create_event]. by rewrite Ef.
    + eapply Forall_impl; [exact F|]. by intros [].
  - rewrite <- !app_assoc. eexists; split; [reflexivity|]. cbn [app].
    apply elem_of_cons. by left.
Qed.

(** ** What one iteration of the create-or-recreate loop does *)

Lemma built_unit_ext d h s1 s2 :
  nextHandle s1 = nextHandle s2 → built_unit d h s1 = built_unit d h s2.
Proof. unfold built_unit. by intros ->. Qed.


Lemma log_event_create env n d e : log_event e → create_event env n d e.
Proof. by destruct e. Qed.

Lemma log_quiet m s :
  (∀ n, m ≠ HasBeenRemoved n) →
  same_state s (log m s) ∧ locked (log m s) = locked s ∧ extends log_event s (log m s).
Proof.
  intros Hm. unfold same_state. prim. split_and!; try done.
  ext. fa. destruct m; try done. by destruct (Hm name).
Qed.

Lemma same_state_trans s1 s2 s3 : same_state s1 s2 → same_state s2 s3 → same_state s1 s3.
Proof. unfold same_state. intros (?&?&?&?&?&?) (?&?&?&?&?&?). split_and!; congruence. Qed.

Lemma same_state_refl s : same_state s s.
Proof. by unfold same_state. Qed.

(** The state in which the loop body looks the unit up. *)
Lemma only_tokens_log n d s :
  let s0 := if decide (0 < length (OnlyTokens d)) then s
            else log (OnlyTokensNotProvided n) s in
  same_state s s0 ∧ locked s0 = locked s ∧ extends log_event s s0.
Proof.
  cbn zeta. case_decide.
  - split_and!; [apply same_state_refl|done|apply extends_refl].
  - by apply log_quiet.
Qed.



Lemma removal_not_factory env n d e : removal_event e → create_event env n d e.
Proof. by destruct e. Qed.

Lemma log_not_factory env n d s s' :
  extends log_event s s' → extends (create_event env n d) s s'.
Proof. apply extends_weaken, log_event_create. Qed.

Lemma extends_Lock P s : P EvLock → extends P s (Lock s).
Proof. intros. ext. by fa. Qed.

Lemma extends_Unlock P s : P EvUnlock → extends P s (Unlock s).
Proof. intros. ext. by fa. Qed.

Lemma extends_elem_new P s s' s'' e :
  extends P s s' → (∃ evs, trace s'' = trace s' ++ evs ∧ e ∈ evs) →
  ∃ evs, trace s'' = trace s ++ evs ∧ e ∈ evs.
Proof.
  intros (e1 & E1 & _) (e2 & E2 & Hin). exists (e1 ++ e2).
  rewrite E2, E1, app_assoc. split; [done|]. apply elem_of_app. by right.
Qed.

Lemma elem_new_extends P s s' s'' e :
  (∃ evs, trace s' = trace s ++ evs ∧ e ∈ evs) → extends P s' s'' →
  ∃ evs, trace s'' = trace s ++ evs ∧ e ∈ evs.
Proof.
  intros (e1 & E1 & Hin) (e2 & E2 & _). exists (e1 ++ e2).
  rewrite E2, E1, app_assoc. split; [done|]. apply elem_of_app. by left.
Qed.

Lemma init_destination_spec env n d s p s' p' :
  init_destination env (n, d) (s, p) = Some (s', p') →
  nextHandle s ≤ nextHandle s' ∧
  (locked s = false → locked s' = false) ∧
  extends (create_event env n (resolve env d)) s s' ∧
  unitsByName s' =
    match unitsByName s !! n with
    | Some u =>
        if decide (hash u = getHash n (resolve env d)) then unitsByName s
        else if builds env n d then <[n := new_unit env n d s]> (unitsByName s)
             else delete n (unitsByName s)
    | None =>
        if builds env n d then <[n := new_unit env n d s]> (unitsByName s)
        else unitsByName s
    end ∧
  (∀ u, unitsByName s !! n = Some u → hash u ≠ getHash n (resolve env d) →
     ∃ evs, trace s' = trace s ++ evs ∧ EvUnitClose n (storage u) (eventQueue u) ∈ evs) ∧
  ((∀ u, unitsByName s !! n = Some u → hash u ≠ getHash n (resolve env d)) →
   builds env n d = true →
     nextHandle s < nextHandle s' ∧
     ∃ evs, trace s' = trace s ++ evs ∧ EvFactoryCreate n true ∈ evs).
Proof.
  unfold init_destination. intros Hr.
  destruct (only_tokens_log n d s) as ((U0 & _ & _ & _ & _ & N0) & L0 & X0).
  set (s0 := if decide (0 < length (OnlyTokens d)) then s
             else log (OnlyTokensNotProvided n) s) in *.
  clearbody s0.
  set (d' := resolve env d) in *. set (h := getHash n d') in *.
  rewrite <- U0.
  destruct (unitsByName s0 !! n) as [u|] eqn:Eu.
  - case_decide as Hh.
    { apply (inj Some) in Hr. injection Hr as <- <-.
      split_and!; [lia|congruence|by apply log_not_factory|done| |].
      - intros u' [= <-] Hne. done.
      - intros Hall. by destruct (Hall u). }
    destruct (remove n u (Lock s0)) as [s1|] eqn:Er; [|done].
    cbn [mbind option_bind] in Hr. apply (inj Some) in Hr.
    apply remove_spec in Er.
    destruct Er as (U1 & N1 & L1 & R1 & X1 & In1).
    apply create_spec in Hr.
    destruct Hr as (_ & _ & _ & L2 & R2 & N2 & X2 & Hc). cbn [fst snd] in *.
    change (bool_decide (OnlyTokens d' ≠ []) && negb (Create_fails env n d'))
      with (builds env n d) in Hc.
    change (nextHandle (Lock s0)) with (nextHandle s0) in N1.
    change (unitsByName (Lock s0)) with (unitsByName s0) in U1.
    change (nextHandle (Unlock s1)) with (nextHandle s1) in N2.
    change (unitsByName (Unlock s1)) with (unitsByName s1) in Hc.
    change (locked (Unlock s1)) with false in L2.
    assert (extends (create_event env n d') (Lock s0) s1) as X1'.
    { eapply extends_weaken; [|exact X1]. apply removal_not_factory. }
    assert (extends (create_event env n d') s (Lock s0)) as Xa.
    { eapply extends_trans; [by apply log_not_factory|]. by apply extends_Lock. }
    assert (extends (create_event env n d') s1 s') as Xb.
    { eapply extends_trans; [|exact X2]. by apply extends_Unlock. }
    assert (∃ evs, trace s' = trace s ++ evs ∧
                   EvUnitClose n (storage u) (eventQueue u) ∈ evs) as Hclose.
    { eapply elem_new_extends; [|exact Xb]. eapply extends_elem_new; [exact Xa|done]. }
    split_and!; [lia|done|eauto using extends_trans| | |].
    + destruct (builds env n d).
      * destruct Hc as (-> & _). rewrite U1, insert_delete_eq.
        unfold new_unit. f_equal. apply built_unit_ext.
        change (nextHandle (Unlock s1)) with (nextHandle s1). lia.
      * destruct Hc as ((-> & _) & _). exact U1.
    + intros u' [= <-] _. exact Hclose.
    + intros _ Hb. rewrite Hb in Hc.
      destruct Hc as (_ & Hlt & Hin).
      change (nextHandle (Unlock s1)) with (nextHandle s1) in Hlt.
      split; [lia|].
      eapply extends_elem_new; [|exact Hin].
      eapply extends_trans; [exact Xa|]. eapply extends_trans; [exact X1'|].
      by apply extends_Unlock.
  - apply (inj Some) in Hr. apply create_spec in Hr.
    destruct Hr as (_ & _ & _ & L2 & R2 & N2 & X2 & Hc). cbn [fst snd] in *.
    change (bool_decide (OnlyTokens d' ≠ []) && negb (Create_fails env n d'))
      with (builds env n d) in Hc.
    split_and!; [lia|congruence| | |done|].
    + eapply extends_trans; [|exact X2]. by apply log_not_factory.
    + destruct (builds env n d).
      * destruct Hc as (-> & _).
        unfold new_unit. f_equal. apply built_unit_ext. lia.
      * destruct Hc as ((-> & _) & _). done.
    + intros _ Hb. rewrite Hb in Hc.
      destruct Hc as (_ & Hlt & Hin). split; [lia|].
      eapply extends_elem_new; [exact X0|exact Hin].
Qed.

(** ** The two loops of [init] *)

Lemma remove_all_spec ld : ∀ s s',
  forEach (λ entry : string * Unit, remove entry.1 entry.2) ld s = Some s' →
  (∀ m, unitsByName s' !! m = if decide (m ∈ ld.*1) then None else unitsByName s !! m) ∧
  nextHandle s' = nextHandle s ∧ locked s' = locked s ∧
  extends removal_event s s' ∧
  (∀ m u, (m, u) ∈ ld →
     ∃ evs, trace s' = trace s ++ evs ∧ EvUnitClose m (storage u) (eventQueue u) ∈ evs).
Proof.
  induction ld as [|[n u] ld IH]; intros s s' Hr; cbn [forEach fst snd] in Hr.
  - simplify_eq. split_and!; try done.
    + apply extends_refl.
    + by intros m u ?%elem_of_nil.
  - destruct (remove n u s) as [s1|] eqn:Er; [|done].
    cbn [mbind option_bind fst snd] in *.
    apply remove_spec in Er. destruct Er as (U1 & N1 & L1 & _ & X1 & C1).
    destruct (IH _ _ Hr) as (U2 & N2 & L2 & X2 & C2).
    split_and!; try congruence.
    + intros m. rewrite U2, U1. cbn [fmap list_fmap fst].
      destruct (decide (m ∈ ld.*1)) as [Hin|Hnin];
        destruct (decide (m ∈ n :: ld.*1)) as [Hin'|Hnin']; try done.
      * exfalso. apply Hnin'. by right.
      * apply elem_of_cons in Hin' as [->|?]; [|done]. apply lookup_delete_eq.
      * apply not_elem_of_cons in Hnin' as [? _]. by apply lookup_delete_ne.
    + eauto using extends_trans.
    + intros m u' [[= -> ->]|Hin]%elem_of_cons.
      * eapply elem_new_extends; [exact C1|exact X2].
      * eapply extends_elem_new; [exact X1|eauto].
Qed.

Lemma loop_event_mono env l1 l2 e :
  l1 ⊆ l2 → loop_event env l1 e → loop_event env l2 e.
Proof. intros Hsub. destruct e; try done. intros (d & Hin & ?). exists d. auto. Qed.

Lemma create_event_loop env n d l e :
  (n, d) ∈ l → create_event env n (resolve env d) e → loop_event env l e.
Proof. intros Hin. destruct e; try done. intros (-> & ? & ?). by exists d. Qed.

Lemma init_loop_spec env l : NoDup l.*1 → ∀ s p s' p',
  forEach (init_destination env) l (s, p) = Some (s', p') →
  nextHandle s ≤ nextHandle s' ∧
  (locked s = false → locked s' = false) ∧
  extends (loop_event env l) s s' ∧
  (∀ m, m ∉ l.*1 → unitsByName s' !! m = unitsByName s !! m) ∧
  (∀ m d, (m, d) ∈ l →
     ∃ sm, nextHandle s ≤ nextHandle sm ∧ nextHandle sm ≤ nextHandle s' ∧
           unitsByName s' !! m = unit_after env m d (unitsByName s !! m) sm ∧
           (∀ u, unitsByName s !! m = Some u → hash u ≠ getHash m (resolve env d) →
              ∃ evs, trace s' = trace s ++ evs ∧
                     EvUnitClose m (storage u) (eventQueue u) ∈ evs) ∧
           ((∀ u, unitsByName s !! m = Some u → hash u ≠ getHash m (resolve env d)) →
            builds env m d = true →
              nextHandle sm < nextHandle s' ∧
              ∃ evs, trace s' = trace s ++ evs ∧ EvFactoryCreate m true ∈ evs)).
Proof.
  induction l as [|[n d] l IH]; intros Hnd s p s' p' Hr; cbn [forEach] in Hr.
  - simplify_eq. split_and!; try done.
    + apply extends_refl.
    + by intros m d ?%elem_of_nil.
  - cbn [fmap list_fmap fst] in Hnd. apply NoDup_cons in Hnd as [Hn Hnd].
    destruct (init_destination env (n, d) (s, p)) as [[s1 p1]|] eqn:E1; [|done].
    cbn [mbind option_bind] in Hr.
    destruct (init_destination_spec _ _ _ _ _ _ _ E1) as (N1 & L1 & X1 & U1 & C1 & B1).
    destruct (IH Hnd _ _ _ _ Hr) as (N2 & L2 & X2 & U2 & P2).
    assert (∀ m, m ≠ n → unitsByName s1 !! m = unitsByName s !! m) as Hother.
    { intros m Hm. rewrite U1.
      destruct (unitsByName s !! n); repeat case_match;
        by rewrite ?lookup_insert_ne, ?lookup_delete_ne by done. }
    assert (extends (loop_event env ((n, d) :: l)) s s1) as X1'.
    { eapply extends_weaken; [|exact X1]. intros e. apply create_event_loop. by left. }
    assert (extends (loop_event env ((n, d) :: l)) s1 s') as X2'.
    { eapply extends_weaken; [|exact X2]. intros e. apply loop_event_mono.
      intros x. by right. }
    split_and!; [lia|auto|eauto using extends_trans| |].
    + intros m [Hm1 Hm2]%not_elem_of_cons. rewrite U2 by done. by apply Hother.
    + intros m d' [[= -> ->]|Hin]%elem_of_cons.
      * exists s. split_and!; [lia|lia| | |].
        -- rewrite U2 by done. rewrite U1. unfold unit_after.
           destruct (unitsByName s !! n) as [u|] eqn:Eu; repeat case_match;
             by rewrite ?lookup_insert_eq, ?lookup_delete_eq.
        -- intros u Hu Hh. eapply elem_new_extends; [by eapply C1|exact X2].
        -- intros Hall Hb. destruct (B1 Hall Hb) as (Hlt & Hev).
           split; [lia|]. eapply elem_new_extends; [exact Hev|exact X2].
      * assert (m ≠ n) as Hne.
        { intros ->. apply Hn. apply list_elem_of_fmap. by exists (n, d'). }
        destruct (P2 _ _ Hin) as (sm & Na & Nb & Um & Cm & Bm).
        rewrite (Hother m Hne) in *.
        exists sm. split_and!; [lia|lia|done| |].
        -- intros u Hu Hh. eapply extends_elem_new; [exact X1|eauto].
        -- intros Hall Hb. destruct (Bm Hall Hb) as (Hlt & Hev).
           split; [done|]. eapply extends_elem_new; [exact X1|done].
Qed.

(** ** The whole cycle *)

Lemma range_dc_elem env dc m d :
  EnvOK env → (m, d) ∈ range_dc env (map_to_list dc) ↔ dc !! m = Some d.
Proof. intros [_ Hp]. rewrite (Hp _). apply elem_of_map_to_list. Qed.

Lemma range_dc_NoDup env dc : EnvOK env → NoDup (range_dc env (map_to_list dc)).*1.
Proof. intros [_ Hp]. rewrite (Hp _). apply NoDup_fst_map_to_list. Qed.

Lemma range_dc_fst env dc m :
  EnvOK env → m ∈ (range_dc env (map_to_list dc)).*1 ↔ is_Some (dc !! m).
Proof.
  intros Hok. rewrite list_elem_of_fmap. split.
  - intros ([m' d] & -> & Hin). apply range_dc_elem in Hin; [|done]. by exists d.
  - intros [d Hd]. exists (m, d). split; [done|]. by apply range_dc_elem.
Qed.

Lemma toDelete_lookup dc (units : gmap string Unit) m u :
  toDelete dc units !! m = Some u ↔ units !! m = Some u ∧ dc !! m = None.
Proof. unfold toDelete. by rewrite map_lookup_filter_Some. Qed.

Lemma range_units_elem env dc (units : gmap string Unit) m u :
  EnvOK env →
  (m, u) ∈ range_units env (map_to_list (toDelete dc units)) ↔
  units !! m = Some u ∧ dc !! m = None.
Proof.
  intros [Hp _]. rewrite (Hp _), elem_of_map_to_list. apply toDelete_lookup.
Qed.

Lemma remove_stale_spec env dc s s' :
  EnvOK env → remove_stale env dc s = Some s' →
  (∀ m, unitsByName s' !! m =
        match dc !! m with None => None | Some _ => unitsByName s !! m end) ∧
  nextHandle s' = nextHandle s ∧ (locked s = false → locked s' = false) ∧
  extends (λ e, removal_event e ∨ e = EvLock ∨ e = EvUnlock) s s' ∧
  (∀ m u, dc !! m = None → unitsByName s !! m = Some u →
     ∃ evs, trace s' = trace s ++ evs ∧ EvUnitClose m (storage u) (eventQueue u) ∈ evs).
Proof.
  intros Hok. unfold remove_stale. case_decide as Hsz; intros Hr.
  - match type of Hr with (?loop ≫= _) = _ => destruct loop as [s0|] eqn:E0 end; [|done].
    cbn [mbind option_bind] in Hr. apply (inj Some) in Hr. subst s'.
    apply remove_all_spec in E0. destruct E0 as (U & N & L & X & C).
    change (unitsByName (Unlock s0)) with (unitsByName s0).
    change (nextHandle (Unlock s0)) with (nextHandle s0).
    change (unitsByName (Lock s)) with (unitsByName s) in U.
    change (nextHandle (Lock s)) with (nextHandle s) in N.
    assert (extends (λ e, removal_event e ∨ e = EvLock ∨ e = EvUnlock) s (Lock s)) as Xa
      by (apply extends_Lock; auto).
    assert (extends (λ e, removal_event e ∨ e = EvLock ∨ e = EvUnlock) s0 (Unlock s0)) as Xb
      by (apply extends_Unlock; auto).
    assert (extends (λ e, removal_event e ∨ e = EvLock ∨ e = EvUnlock) (Lock s) s0) as Xc
      by (eapply extends_weaken; [|exact X]; auto).
    split_and!; [|done|done|eauto using extends_trans|].
    + intros m. rewrite U. case_decide as Hin.
      * apply list_elem_of_fmap in Hin as ([m' u] & -> & Hin).
        apply range_units_elem in Hin as [_ Hd]; [|done]. cbn [fst]. by rewrite Hd.
      * destruct (dc !! m) eqn:Ed; [done|].
        destruct (unitsByName s !! m) as [u|] eqn:Eu; [|done].
        exfalso. apply Hin. apply list_elem_of_fmap. exists (m, u). split; [done|].
        by apply range_units_elem.
    + intros m u Hd Hu.
      eapply elem_new_extends; [|exact Xb]. eapply extends_elem_new; [exact Xa|].
      apply C. by apply range_units_elem.
  - apply (inj Some) in Hr. subst s'.
    assert (toDelete dc (unitsByName s) = ∅) as Hemp.
    { apply map_size_empty_iff. lia. }
    assert (∀ m u, dc !! m = None → unitsByName s !! m = Some u → False) as Hno.
    { intros m u Hd Hu.
      assert (toDelete dc (unitsByName s) !! m = Some u) as Hl by (by apply toDelete_lookup).
      by rewrite Hemp in Hl. }
    split_and!; [|done|done|apply extends_refl|].
    + intros m. destruct (dc !! m) eqn:Ed; [done|].
      destruct (unitsByName s !! m) as [u|] eqn:Eu; [|done]. destruct (Hno m u Ed Eu).
    + intros m u Hd Hu. destruct (Hno m u Hd Hu).
Qed.

Lemma publish_frame p s :
  unitsByName (publish p s) = unitsByName s ∧
  loggersUsageByTokenID (publish p s) = loggersUsageByTokenID s ∧
  nextHandle (publish p s) = nextHandle s ∧ locked (publish p s) = false ∧
  extends (λ e, quiet e ∧ not_factory e) s (publish p s).
Proof.
  unfold publish. primg. split_and!; try done. ext. fa.
Qed.

Lemma loop_factory_event env dc e :
  EnvOK env → loop_event env (range_dc env (map_to_list dc)) e → factory_event env dc e.
Proof.
  intros Hok. destruct e; try done. intros (d & Hin & ?). exists d.
  split; [|done]. by apply range_dc_elem in Hin.
Qed.

Lemma init_spec env dc s s' :
  EnvOK env → init env dc s = Some s' →
  nextHandle s ≤ nextHandle s' ∧ locked s' = false ∧ Reloading s' = false ∧
  extends (factory_event env dc) s s' ∧
  (∀ m, dc !! m = None → unitsByName s' !! m = None) ∧
  (∀ m u, dc !! m = None → unitsByName s !! m = Some u →
     ∃ evs, trace s' = trace s ++ evs ∧ EvUnitClose m (storage u) (eventQueue u) ∈ evs) ∧
  (∀ m d, dc !! m = Some d →
     ∃ sm, nextHandle s ≤ nextHandle sm ∧ nextHandle sm ≤ nextHandle s' ∧
           unitsByName s' !! m = unit_after env m d (unitsByName s !! m) sm ∧
           (∀ u, unitsByName s !! m = Some u → hash u ≠ getHash m (resolve env d) →
              ∃ evs, trace s' = trace s ++ evs ∧
                     EvUnitClose m (storage u) (eventQueue u) ∈ evs) ∧
           ((∀ u, unitsByName s !! m = Some u → hash u ≠ getHash m (resolve env d)) →
            builds env m d = true →
              nextHandle sm < nextHandle s' ∧
              ∃ evs, trace s' = trace s ++ evs ∧ EvFactoryCreate m true ∈ evs)).
Proof.
  intros Hok. unfold init. intros Hr.
  destruct (remove_stale env dc (set_Reloading true s)) as [s1|] eqn:Edel; [|done].
  cbn [mbind option_bind] in Hr.
  match type of Hr with (?loop ≫= _) = _ => destruct loop as [[s2 p2]|] eqn:Eloop end;
    [|done].
  cbn [mbind option_bind] in Hr.
  assert (∃ s3, unitsByName s3 = unitsByName s2 ∧ nextHandle s3 = nextHandle s2 ∧
                locked s3 = false ∧
                extends (λ e, quiet e ∧ not_factory e) s2 s3 ∧
                s' = set_Reloading false s3) as (s3 & U3 & N3 & L3 & X3 & ->).
  { exists (publish p2 s2). destruct (publish_frame p2 s2) as (? & _ & ? & ? & ?).
    split_and!; try done. by injection Hr. }
  clear Hr.
  apply remove_stale_spec in Edel; [|done].
  destruct Edel as (U1 & N1 & _ & X1 & C1).
  change (unitsByName (set_Reloading true s)) with (unitsByName s) in *.
  change (nextHandle (set_Reloading true s)) with (nextHandle s) in *.
  change (trace (set_Reloading true s)) with (trace s) in *.
  apply init_loop_spec in Eloop; [|by apply range_dc_NoDup].
  destruct Eloop as (N2 & _ & X2 & U2 & P2).
  assert (extends (λ e, quiet e ∧ not_factory e) s3 (set_Reloading false s3)) as X4
    by (exists []; split; [symmetry; apply app_nil_r|done]).
  change (unitsByName (set_Reloading false s3)) with (unitsByName s3).
  change (nextHandle (set_Reloading false s3)) with (nextHandle s3).
  change (locked (set_Reloading false s3)) with (locked s3). rewrite L3.
  change (Reloading (set_Reloading false s3)) with false.
  remember (set_Reloading false s3) as s4 eqn:Es4. clear Es4.
  assert (extends (factory_event env dc) s s1) as X1'.
  { destruct X1 as (e1 & E1 & F1). exists e1. split; [done|].
    eapply Forall_impl; [exact F1|]. intros e [He|[->| ->]]; [|done..]. by destruct e. }
  assert (extends (factory_event env dc) s1 s2) as X2'.
  { eapply extends_weaken; [|exact X2]. intros e. by apply loop_factory_event. }
  assert (extends (factory_event env dc) s2 s4) as X3'.
  { eapply extends_weaken; [|eapply extends_trans; [exact X3|exact X4]].
    by intros [] [_ Hq]. }
  rewrite U3, N3.
  split_and!; [lia|done|done|eauto using extends_trans| | |].
  - intros m Hd. rewrite U2.
    + by rewrite U1, Hd.
    + rewrite range_dc_fst by done. rewrite Hd. by intros [].
  - intros m u Hd Hu. eapply elem_new_extends; [by eapply C1|].
    eauto using extends_trans.
  - intros m d Hd.
    assert ((m, d) ∈ range_dc env (map_to_list dc)) as Hin by (by apply range_dc_elem).
    destruct (P2 _ _ Hin) as (sm & Na & Nb & Um & Cm & Bm).
    rewrite U1, Hd in Um, Cm, Bm.
    exists sm. split_and!; [lia|lia|done| |].
    + intros u Hu Hh. eapply elem_new_extends; [|exact X3'].
      eapply extends_elem_new; [exact X1'|eauto].
    + intros Hall Hb. destruct (Bm Hall Hb) as (Hlt & Hev).
      split; [lia|]. eapply elem_new_extends; [|exact X3'].
      eapply extends_elem_new; [exact X1'|eauto].
Qed.

(** ** The registry counts the users of each logger *)

Lemma occ_nil T : occ T [] = 0%Z.
Proof. done. Qed.

Lemma occ_cons T T' ts :
  occ T (T' :: ts) = ((if decide (T' = T) then 1 else 0) + occ T ts)%Z.
Proof.
  unfold occ. rewrite filter_cons. case_decide; cbn [length]; lia.
Qed.

Lemma occ_nonneg T ts : (0 ≤ occ T ts)%Z.
Proof. unfold occ. lia. Qed.

Lemma contrib_nonneg T u : (0 ≤ contrib T u)%Z.
Proof. unfold contrib. destruct (eventQueue u); [done|apply occ_nonneg]. Qed.

Lemma attached_insert units n u T :
  units !! n = None →
  attached (<[n := u]> units) T = (contrib T u + attached units T)%Z.
Proof.
  intros Hn. unfold attached. rewrite map_fold_insert_L; [done| |done].
  intros. lia.
Qed.

Lemma attached_delete units n u T :
  units !! n = Some u →
  attached units T = (contrib T u + attached (delete n units) T)%Z.
Proof.
  intros Hn. unfold attached. rewrite (map_fold_delete_L _ _ n u); [done| |done].
  intros. lia.
Qed.

Lemma attached_nonneg units T : (0 ≤ attached units T)%Z.
Proof.
  unfold attached. apply (map_fold_weak_ind (λ r _, (0 ≤ r)%Z)); [done|].
  intros n u m r _ Hr. pose proof (contrib_nonneg T u). lia.
Qed.

Lemma Consistent_ext s1 s2 :
  unitsByName s2 = unitsByName s1 → loggersUsageByTokenID s2 = loggersUsageByTokenID s1 →
  Consistent s1 → Consistent s2.
Proof.
  unfold Consistent, LoggersOK, usage_of. intros -> ->. done.
Qed.

Lemma usage_of_pos s T : LoggersOK s → (0 < usage_of s T)%Z → is_Some (loggersUsageByTokenID s !! T).
Proof.
  unfold usage_of. intros _ Hp. destruct (loggersUsageByTokenID s !! T); [eauto|lia].
Qed.

Lemma usage_of_dec_logger (m : gmap string LoggerUsage) T lu T' :
  m !! T = Some lu → (1 ≤ usage lu)%Z →
  match dec_logger T m !! T' with Some lu' => usage lu' | None => 0%Z end =
  ((match m !! T' with Some lu' => usage lu' | None => 0%Z end) -
   if decide (T = T') then 1 else 0)%Z.
Proof.
  intros Hs Hu. unfold dec_logger. rewrite Hs.
  destruct (decide (T = T')) as [<-|Hne].
  - rewrite Hs. case_decide.
    + rewrite lookup_delete_eq. lia.
    + rewrite lookup_insert_eq. cbn. lia.
  - case_decide.
    + rewrite lookup_delete_ne by done. lia.
    + rewrite lookup_insert_ne by done. lia.
Qed.

(** One iteration of the loop of [remove] for a unit without a queue. *)
Lemma remove_token_batch n u T s :
  eventQueue u = None → LoggersOK s → (1 ≤ usage_of s T)%Z →
  ∃ s', remove_token n u T s = Some s' ∧ LoggersOK s' ∧
        ∀ T', usage_of s' T' = (usage_of s T' - if decide (T = T') then 1 else 0)%Z.
Proof.
  intros Hq Hok Hpos.
  destruct (usage_of_pos s T Hok) as [lu Hlu]; [lia|].
  destruct (remove_consumer_total n u T s) as [s1 E1]; [eauto|].
  unfold remove_token. rewrite E1. cbn [mbind option_bind]. eexists. split; [done|].
  destruct (remove_consumer_loggers _ _ _ _ _ E1) as [Hl _]. rewrite Hq in Hl.
  destruct (remove_storage_frame n T s1) as (_ & Hl2 & _).
  destruct (remove_id_frame n T (remove_storage n T s1)) as (_ & Hl3 & _).
  split.
  - eapply lsteps_LoggersOK; [|exact Hok].
    eapply (remove_token_lsteps n u T). unfold remove_token. by rewrite E1.
  - intros T'. unfold usage_of. rewrite Hl3, Hl2, Hl.
    apply (usage_of_dec_logger _ _ lu); [done|]. by apply Hok in Hlu.
Qed.

Lemma remove_token_stream n u T s q :
  eventQueue u = Some q →
  ∃ s', remove_token n u T s = Some s' ∧
        loggersUsageByTokenID s' = loggersUsageByTokenID s.
Proof.
  intros Hq.
  destruct (remove_consumer_total n u T s) as [s1 E1]; [by rewrite Hq|].
  unfold remove_token. rewrite E1. cbn [mbind option_bind]. eexists. split; [done|].
  destruct (remove_consumer_loggers _ _ _ _ _ E1) as [Hl _]. rewrite Hq in Hl.
  destruct (remove_storage_frame n T s1) as (_ & Hl2 & _).
  destruct (remove_id_frame n T (remove_storage n T s1)) as (_ & Hl3 & _).
  congruence.
Qed.

Lemma remove_tokens_batch n u ts : ∀ s,
  eventQueue u = None → LoggersOK s → (∀ T, occ T ts ≤ usage_of s T)%Z →
  ∃ s', forEach (remove_token n u) ts s = Some s' ∧ LoggersOK s' ∧
        ∀ T, usage_of s' T = (usage_of s T - occ T ts)%Z.
Proof.
  induction ts as [|T ts IH]; intros s Hq Hok Hle; cbn [forEach].
  - exists s. split_and!; [done|done|]. intros T. rewrite occ_nil. lia.
  - destruct (remove_token_batch n u T s Hq Hok) as (s1 & E1 & Hok1 & Hu1).
    { specialize (Hle T). rewrite occ_cons, decide_True in Hle by done.
      pose proof (occ_nonneg T ts). lia. }
    rewrite E1. cbn [mbind option_bind].
    destruct (IH s1 Hq Hok1) as (s' & E' & Hok' & Hu').
    { intros T'. rewrite Hu1. specialize (Hle T'). rewrite occ_cons in Hle.
      repeat case_decide; lia. }
    exists s'. split_and!; [done|done|].
    intros T'. rewrite Hu', Hu1, occ_cons. repeat case_decide; lia.
Qed.

Lemma remove_tokens_stream n u q ts : ∀ s,
  eventQueue u = Some q →
  ∃ s', forEach (remove_token n u) ts s = Some s' ∧
        loggersUsageByTokenID s' = loggersUsageByTokenID s.
Proof.
  induction ts as [|T ts IH]; intros s Hq; cbn [forEach].
  - by exists s.
  - destruct (remove_token_stream n u T s q Hq) as (s1 & E1 & Hl1).
    rewrite E1. cbn [mbind option_bind].
    destruct (IH s1 Hq) as (s' & E' & Hl'). exists s'. split; [done|]. congruence.
Qed.

(** [remove] on a live unit of a consistent state does not panic and keeps
    the state consistent. *)
Lemma remove_total n u s :
  Consistent s → unitsByName s !! n = Some u →
  ∃ s', remove n u s = Some s' ∧ Consistent s'.
Proof.
  intros [Hok Hc] Hu. unfold remove.
  assert (∀ T, attached (unitsByName s) T =
               (contrib T u + attached (delete n (unitsByName s)) T)%Z) as Hd
    by (intros T; by apply attached_delete).
  assert (∃ s1, forEach (remove_token n u) (tokenIDs u) s = Some s1 ∧ LoggersOK s1 ∧
                ∀ T, usage_of s1 T = (usage_of s T - contrib T u)%Z) as (s1 & E1 & Hok1 & Hu1).
  { unfold contrib. destruct (eventQueue u) as [q|] eqn:Eq.
    - destruct (remove_tokens_stream n u q (tokenIDs u) s Eq) as (s1 & E1 & Hl1).
      exists s1. split; [done|]. unfold LoggersOK, usage_of. rewrite Hl1.
      split; [done|]. intros T. lia.
    - apply remove_tokens_batch; [done..|].
      intros T. rewrite Hc, Hd. unfold contrib. rewrite Eq.
      pose proof (attached_nonneg (delete n (unitsByName s)) T). lia. }
  rewrite E1. cbn [mbind option_bind]. eexists. split; [done|].
  destruct (remove_tokens_frame _ _ _ _ _ E1) as (U1 & _).
  match goal with |- Consistent ?x => set (s2 := x) end.
  assert (unitsByName s2 = delete n (unitsByName s1)) as U2 by reflexivity.
  assert (loggersUsageByTokenID s2 = loggersUsageByTokenID s1) as L2 by reflexivity.
  clearbody s2. split.
  - unfold LoggersOK. rewrite L2. exact Hok1.
  - intros T. unfold usage_of. rewrite L2, U2, U1.
    specialize (Hu1 T). specialize (Hc T). specialize (Hd T). unfold usage_of in *. lia.
Qed.

Lemma register_token_usage n d st q T s p :
  LoggersOK s →
  ∀ T', usage_of (register_token n d st q T (s, p)).1 T' =
        (usage_of s T' +
         if decide (Staged d = false ∧ Mode d ≠ StreamMode ∧ T = T') then 1 else 0)%Z.
Proof.
  intros Hok T'. unfold register_token.
  destruct (Staged d).
  { rewrite decide_False by (by intros [? _]). unfold usage_of. prim. lia. }
  case_decide as Hm.
  { rewrite decide_False by (by intros (_ & ? & _)). cbn [fst]. lia. }
  unfold usage_of.
  destruct (loggersUsageByTokenID s !! T) as [lu|] eqn:E; prim.
  - destruct (decide (T = T')) as [<-|Hne].
    + rewrite decide_True by done. rewrite lookup_insert_eq, E. cbn. lia.
    + rewrite decide_False by (by intros (_ & _ & ?)).
      rewrite lookup_insert_ne by done. lia.
  - destruct (decide (T = T')) as [<-|Hne].
    + rewrite decide_True by done. rewrite lookup_insert_eq, E. cbn. lia.
    + rewrite decide_False by (by intros (_ & _ & ?)).
      rewrite !lookup_insert_ne by done. lia.
Qed.

Lemma register_loop_usage n d st q ts : ∀ sp,
  LoggersOK sp.1 →
  let s' := (foldl (λ acc T, register_token n d st q T acc) sp ts).1 in
  LoggersOK s' ∧
  ∀ T, usage_of s' T =
       (usage_of sp.1 T +
        if decide (Staged d = false ∧ Mode d ≠ StreamMode) then occ T ts else 0)%Z.
Proof.
  induction ts as [|T ts IH]; intros [s p] Hok; cbn [foldl fst].
  - split; [done|]. intros T. rewrite occ_nil. case_decide; lia.
  - pose proof (register_token_lsteps n d st q T s p) as Hst.
    pose proof (register_token_usage n d st q T s p Hok) as Hu.
    destruct (register_token n d st q T (s, p)) as [s1 p1] eqn:E1. cbn [fst] in *.
    assert (LoggersOK s1) as Hok1 by (eapply lsteps_LoggersOK; eauto).
    destruct (IH (s1, p1) Hok1) as [Hok' Hu']. cbn [fst] in *.
    split; [done|]. intros T'. rewrite Hu', Hu, occ_cons.
    repeat case_decide; try lia; exfalso; intuition congruence.
Qed.

Lemma contrib_built_unit T d h s :
  contrib T (built_unit d h s) =
    if decide (Mode d = StreamMode) then 0%Z else occ T (OnlyTokens d).
Proof. unfold contrib, built_unit. cbn. by case_decide. Qed.

Lemma create_Consistent env n d h s p :
  Consistent s → unitsByName s !! n = None →
  (Staged d = true → Mode d = StreamMode) →
  Consistent (create env n d h (s, p)).1.
Proof.
  intros [Hok Hc] Hn Hst.
  destruct (create env n d h (s, p)) as [s' p'] eqn:Ec.
  pose proof (create_spec _ _ _ _ _ _ _ Ec) as (_ & _ & _ & _ & _ & _ & _ & Hspec).
  cbn [fst snd] in *.
  destruct (bool_decide (OnlyTokens d ≠ []) && negb (Create_fails env n d)) eqn:Eb.
  2:{ destruct Hspec as ((U & L & _) & _). eapply (Consistent_ext s); done. }
  destruct Hspec as (U & _).
  apply andb_true_iff in Eb as [Hne%bool_decide_eq_true Hf%negb_true_iff].
  revert Ec. unfold create. rewrite decide_False by (by destruct (OnlyTokens d)).
  rewrite Create_eq, Hf. cbv beta iota zeta.
  match goal with
  | |- context [foldl (λ a t, register_token _ _ ?st ?q t a) ?sp0 ?ts] =>
      pose proof (register_loop_usage n d st q ts sp0) as Hl
  end.
  intros Ec. apply (f_equal fst) in Ec. cbn [fst] in Ec.
  destruct Hl as [Hok' Hu']; [exact Hok|]. rewrite Ec in Hok', Hu'.
  split; [done|]. intros T. rewrite Hu', U, attached_insert by done.
  rewrite contrib_built_unit.
  change (usage_of ?x T) with (usage_of s T) at 1.
  rewrite Hc. repeat case_decide; try lia.
  - exfalso. intuition congruence.
  - destruct (Staged d) eqn:Es; [|exfalso; intuition congruence].
    by specialize (Hst eq_refl).
Qed.

Lemma resolve_Staged env d : Staged (resolve env d) = Staged d.
Proof. unfold resolve. by case_decide. Qed.

Lemma resolve_Mode env d : Mode (resolve env d) = Mode d.
Proof. unfold resolve. by case_decide. Qed.

(** One iteration of the create-or-recreate loop, from a consistent state
    and for a destination that is not staged in batch mode, does not panic
    and keeps the state consistent. *)
Lemma init_destination_total env n d s p :
  Consistent s → (Staged d = true → Mode d = StreamMode) →
  ∃ s' p', init_destination env (n, d) (s, p) = Some (s', p') ∧ Consistent s'.
Proof.
  intros Hc Hst. unfold init_destination.
  destruct (only_tokens_log n d s) as ((U0 & L0 & _) & _ & _).
  set (s0 := if decide (0 < length (OnlyTokens d)) then s
             else log (OnlyTokensNotProvided n) s) in *.
  clearbody s0.
  assert (Consistent s0) as Hc0 by (by eapply Consistent_ext).
  clear Hc U0 L0.
  assert (Staged (resolve env d) = true → Mode (resolve env d) = StreamMode) as Hst'
    by (by rewrite resolve_Staged, resolve_Mode).
  destruct (unitsByName s0 !! n) as [u|] eqn:Eu.
  - case_decide; [by eauto|].
    destruct (remove_total n u (Lock s0)) as (s1 & E1 & Hc1); [by eapply Consistent_ext|done|].
    rewrite E1. cbn [mbind option_bind].
    apply remove_spec in E1 as (U1 & _).
    match goal with |- context [create ?e ?a ?b ?c ?sp] =>
      destruct (create e a b c sp) as [s' p'] eqn:Ec;
      pose proof (create_Consistent e a b c (Unlock s1) p) as Hcc;
      rewrite Ec in Hcc end.
    exists s', p'. split; [done|]. apply Hcc; [by eapply Consistent_ext| |done].
    change (unitsByName (Unlock s1)) with (unitsByName s1).
    rewrite U1. apply lookup_delete_eq.
  - match goal with |- context [create ?e ?a ?b ?c ?sp] =>
      destruct (create e a b c sp) as [s' p'] eqn:Ec;
      pose proof (create_Consistent e a b c s0 p) as Hcc;
      rewrite Ec in Hcc end.
    exists s', p'. split; [done|]. by apply Hcc.
Qed.

Lemma init_loop_total env l : ∀ s p,
  Consistent s → (∀ n d, (n, d) ∈ l → Staged d = true → Mode d = StreamMode) →
  ∃ s' p', forEach (init_destination env) l (s, p) = Some (s', p') ∧ Consistent s'.
Proof.
  induction l as [|[n d] l IH]; intros s p Hc Hst; cbn [forEach].
  - by eauto.
  - destruct (init_destination_total env n d s p Hc) as (s1 & p1 & E1 & Hc1).
    { apply (Hst n). by left. }
    rewrite E1. cbn [mbind option_bind]. apply IH; [done|].
    intros n' d' Hin. apply (Hst n'). by right.
Qed.

Lemma remove_all_total ld : ∀ s,
  NoDup ld.*1 → Consistent s → (∀ n u, (n, u) ∈ ld → unitsByName s !! n = Some u) →
  ∃ s', forEach (λ entry : string * Unit, remove entry.1 entry.2) ld s = Some s' ∧
        Consistent s'.
Proof.
  induction ld as [|[n u] ld IH]; intros s Hnd Hc Hlive; cbn [forEach fst snd].
  - by eauto.
  - cbn [fmap list_fmap fst] in Hnd. apply NoDup_cons in Hnd as [Hn Hnd].
    destruct (remove_total n u s Hc) as (s1 & E1 & Hc1); [apply Hlive; by left|].
    rewrite E1. cbn [mbind option_bind].
    apply remove_spec in E1 as (U1 & _).
    apply IH; [done|done|].
    intros n' u' Hin. rewrite U1, lookup_delete_ne; [apply Hlive; by right|].
    intros <-. apply Hn. apply list_elem_of_fmap. by exists (n, u').
Qed.

Lemma remove_stale_total env dc s :
  EnvOK env → Consistent s → ∃ s', remove_stale env dc s = Some s' ∧ Consistent s'.
Proof.
  intros Hok Hc. unfold remove_stale. case_decide; [|by eauto].
  destruct (remove_all_total
              (range_units env (map_to_list (toDelete dc (unitsByName s)))) (Lock s))
    as (s1 & E1 & Hc1).
  - destruct Hok as [Hp _]. rewrite (Hp _). apply NoDup_fst_map_to_list.
  - by eapply Consistent_ext.
  - intros n u Hin. by apply range_units_elem in Hin as [? _].
  - rewrite E1. cbn [mbind option_bind]. eexists. split; [done|].
    by eapply Consistent_ext.
Qed.

(** A cycle from a consistent state, with no destination staged in batch
    mode, runs to its end and leaves a consistent state. *)
Lemma init_total env dc s :
  EnvOK env → Consistent s → NoStagedBatch dc →
  ∃ s', init env dc s = Some s' ∧ Consistent s'.
Proof.
  intros Hok Hc Hns. unfold init.
  destruct (remove_stale_total env dc (set_Reloading true s) Hok) as (s1 & E1 & Hc1);
    [by eapply Consistent_ext|].
  rewrite E1. cbn [mbind option_bind].
  destruct (init_loop_total env (range_dc env (map_to_list dc)) s1 (mkPending ∅ ∅ ∅) Hc1)
    as (s2 & p2 & E2 & Hc2).
  { intros n d Hin. apply range_dc_elem in Hin; [|done]. by eapply Hns. }
  rewrite E2. cbn [mbind option_bind].
  exists (set_Reloading false (publish p2 s2)). split; [reflexivity|].
  destruct (publish_frame p2 s2) as (U & L & _).
  generalize dependent (publish p2 s2). intros s3 U L.
  eapply (Consistent_ext s3); [reflexivity|reflexivity|]. by eapply (Consistent_ext s2).
Qed.

(** ** Removal and the logger registry *)

Lemma remove_consumer_close n u T s s' lu :
  eventQueue u = None → loggersUsageByTokenID s !! T = Some lu →
  remove_consumer n u T s = Some s' →
  if decide (usage lu - 1 = 0)%Z
  then loggersUsageByTokenID s' !! T = None ∧
       ∃ evs, trace s' = trace s ++ evs ∧ EvLoggerClose T (logger lu) ∈ evs
  else loggersUsageByTokenID s' !! T = Some (mkLoggerUsage (logger lu) (usage lu - 1)) ∧
       ∃ evs, trace s' = trace s ++ evs ∧ ∀ l, EvLoggerClose T l ∉ evs.
Proof.
  intros Hq Hlu. unfold remove_consumer. rewrite Hq, Hlu. cbn [mbind option_bind].
  intros Hr. repeat case_decide; cbn [usage] in *; try done;
    apply (inj Some) in Hr; subst s'; repeat case_decide; prim.
  all: rewrite <- ?app_assoc; cbn [app].
  - split; [by rewrite lookup_delete_eq|]. eexists; split; [reflexivity|].
    rewrite !elem_of_cons. auto.
  - split; [by rewrite lookup_delete_eq|]. eexists; split; [reflexivity|].
    rewrite !elem_of_cons. auto.
  - split; [by rewrite lookup_insert_eq|]. eexists; split; [reflexivity|].
    intros l. rewrite !elem_of_cons, elem_of_nil. intros [?|[?|[]]]; done.
  - split; [by rewrite lookup_insert_eq|]. eexists; split; [reflexivity|].
    intros l. rewrite !elem_of_cons, elem_of_nil. intros [?|[]]; done.
Qed.

Lemma remove_rest_no_close n T s :
  loggersUsageByTokenID (remove_id n T (remove_storage n T s)) = loggersUsageByTokenID s ∧
  ∃ evs, trace (remove_id n T (remove_storage n T s)) = trace s ++ evs ∧
         Forall (λ e, ∃ r b, e = EvMutate r b) evs.
Proof.
  split.
  { destruct (remove_storage_frame n T s) as (_ & L1 & _).
    destruct (remove_id_frame n T (remove_storage n T s)) as (_ & L2 & _). congruence. }
  unfold remove_id, remove_storage.
  destruct (storagesByTokenID s !! T); repeat case_match; prim;
    rewrite <- ?app_assoc; cbn [app];
    (eexists; split; [try reflexivity; symmetry; apply app_nil_r|]); fa; eauto.
Qed.

(** * The claims *)

Lemma LoggersOK_empty : LoggersOK emptyService.
Proof. intros T lu Hl. cbn in Hl. by rewrite lookup_empty in Hl. Qed.

Lemma cycles_LoggersOK cs s s' : cycles cs s = Some s' → LoggersOK s → LoggersOK s'.
Proof. intros Hc. eapply lsteps_LoggersOK. by eapply cycles_lsteps. Qed.

Lemma remove_token_close n u T s s' lu :
  eventQueue u = None → loggersUsageByTokenID s !! T = Some lu →
  remove_token n u T s = Some s' →
  if decide (usage lu - 1 = 0)%Z
  then loggersUsageByTokenID s' !! T = None ∧
       ∃ evs, trace s' = trace s ++ evs ∧ EvLoggerClose T (logger lu) ∈ evs
  else loggersUsageByTokenID s' !! T = Some (mkLoggerUsage (logger lu) (usage lu - 1)) ∧
       ∃ evs, trace s' = trace s ++ evs ∧ ∀ l, EvLoggerClose T l ∉ evs.
Proof.
  intros Hq Hlu. unfold remove_token. intros Hr.
  destruct (remove_consumer n u T s) as [s1|] eqn:E1; [|done].
  cbn [mbind option_bind] in Hr. apply (inj Some) in Hr.
  pose proof (remove_consumer_close _ _ _ _ _ _ Hq Hlu E1) as Hc.
  destruct (remove_rest_no_close n T s1) as (L2 & evs2 & E2 & F2).
  rewrite Hr in L2, E2. clear Hr E1.
  case_decide; destruct Hc as (Hl & evs1 & Ev1 & Hin); rewrite L2, E2, Ev1, <- app_assoc.
  - split; [done|]. eexists; split; [reflexivity|]. apply elem_of_app. by left.
  - split; [done|]. eexists; split; [reflexivity|].
    intros l [Hl1|Hl2]%elem_of_app; [by eapply Hin|].
    rewrite Forall_forall in F2. by destruct (F2 _ Hl2) as (? & ? & ?).
Qed.

(** C2: after every run of reconciliation cycles from the fresh service,
    every entry of the logger registry has a count >= 0 (in fact >= 1);
    and, in any state, an iteration of [remove] for a unit without a queue
    that decrements a token's count to 0 closes the token's logger and
    deletes its registry entry, while one that leaves it above 0 keeps the
    entry with the decremented count and closes no logger of the token.
    Staged destinations are not excluded: the run is any run that reaches
    its end. *)
Theorem C2_usage_never_negative cs s :
  cycles cs emptyService = Some s →
  (∀ tokenID lu, loggersUsageByTokenID s !! tokenID = Some lu →
     (0 ≤ usage lu)%Z ∧ (1 ≤ usage lu)%Z) ∧
  (∀ name unit tokenID s0 s1 lu,
     eventQueue unit = None →
     loggersUsageByTokenID s0 !! tokenID = Some lu →
     remove_token name unit tokenID s0 = Some s1 →
     if decide (usage lu - 1 = 0)%Z
     then loggersUsageByTokenID s1 !! tokenID = None ∧
          ∃ evs, trace s1 = trace s0 ++ evs ∧ EvLoggerClose tokenID (logger lu) ∈ evs
     else loggersUsageByTokenID s1 !! tokenID =
            Some (mkLoggerUsage (logger lu) (usage lu - 1)) ∧
          ∃ evs, trace s1 = trace s0 ++ evs ∧ ∀ l, EvLoggerClose tokenID l ∉ evs).
Proof.
  intros Hc. split.
  - intros T lu Hl.
    pose proof (cycles_LoggersOK _ _ _ Hc LoggersOK_empty T lu Hl). lia.
  - intros. by eapply remove_token_close.
Qed.

(** C7: when the payload does not parse, [updateDestinations] logs the
    marshalling error and leaves the unit registry, the logger registry,
    the three tokenized maps, the handle counter, the lock and the
    reloading flag as they were; no reconciliation runs. *)
Theorem C7_malformed_payload_keeps_state env payload s :
  parseFromBytes payload = None →
  ∃ s', updateDestinations env payload s = Some s' ∧
        same_state s s' ∧ locked s' = locked s ∧ Reloading s' = Reloading s ∧
        trace s' = trace s ++ [EvLog MarshallingError].
Proof.
  intros Hp. unfold updateDestinations. rewrite Hp.
  eexists. split; [reflexivity|]. by unfold same_state.
Qed.

(** C10 (amended): when server.destinations_reload_sec is not 0 and the
    in-memory destinations config fails to unmarshal, NewService returns a
    service and no error, and every lookup on that service is empty: no
    consumers, no storages, no destination IDs, no storage by ID. *)
Theorem C10_unmarshal_failure_gives_empty_service env reloadSec destinationsSource :
  reloadSec ≠ 0%Z →
  ∃ s, NewService env reloadSec (Some None) destinationsSource = Some (Some s, None) ∧
       ∀ id, GetConsumers s id = [] ∧ GetStorages s id = [] ∧
             GetDestinationIDs s id = ∅ ∧ GetStorageByID s id = (None, false).
Proof.
  intros Hr. unfold NewService. rewrite decide_False by done.
  eexists. split; [reflexivity|]. intros id.
  unfold GetConsumers, GetStorages, GetDestinationIDs, GetStorageByID, emptyService. prim.
  rewrite !lookup_empty. cbn [default]. rewrite map_to_list_empty, map_fold_empty.
  done.
Qed.

(** ** A second cycle with the same snapshot *)






Lemma remove_stale_none env dc s :
  (∀ n, is_Some (unitsByName s !! n) → is_Some (dc !! n)) →
  remove_stale env dc s = Some s.
Proof.
  intros Hin. unfold remove_stale.
  assert (toDelete dc (unitsByName s) = ∅) as ->.
  { apply map_eq. intros n. rewrite lookup_empty.
    destruct (toDelete dc (unitsByName s) !! n) as [u|] eqn:E; [|done].
    apply toDelete_lookup in E as [Hu Hd].
    destruct (Hin n) as [d Hd']; [by eexists|]. congruence. }
  rewrite map_size_empty. by rewrite decide_False by lia.
Qed.




(** X2: for a destination of the snapshot whose tokens resolve to the
    empty list, a cycle that reaches its end makes no call of the factory
    for it and registers no unit for it: its entry in the unit registry is
    absent, or is the unit that was there before with an unchanged hash.
    When it is absent, a later cycle (from a consistent state, with no
    destination staged in batch mode) in which the tokens resolve to a
    non-empty list and the factory succeeds runs to its end, calls the
    factory for it and registers the unit it builds. *)
Theorem no_tokens_no_unit env dc s s' name d :
  EnvOK env → dc !! name = Some d → OnlyTokens (resolve env d) = [] →
  init env dc s = Some s' →
  (unitsByName s' !! name = None ∨
   ∃ u, unitsByName s !! name = Some u ∧ hash u = getHash name (resolve env d) ∧
        unitsByName s' !! name = Some u) ∧
  (∃ evs, trace s' = trace s ++ evs ∧ ∀ ok, EvFactoryCreate name ok ∉ evs) ∧
  (∀ env2 dc2 d2,
     EnvOK env2 → Consistent s' → NoStagedBatch dc2 →
     unitsByName s' !! name = None →
     dc2 !! name = Some d2 → OnlyTokens (resolve env2 d2) ≠ [] →
     Create_fails env2 name (resolve env2 d2) = false →
     ∃ s'' sm, init env2 dc2 s' = Some s'' ∧
       nextHandle s' ≤ nextHandle sm ∧ nextHandle sm < nextHandle s'' ∧
       unitsByName s'' !! name = Some (new_unit env2 name d2 sm) ∧
       ∃ evs, trace s'' = trace s' ++ evs ∧ EvFactoryCreate name true ∈ evs).
Proof.
  intros Hok Hd Hts Hrun.
  destruct (init_spec _ _ _ _ Hok Hrun) as (_ & _ & _ & (evs & Ev & Fev) & _ & _ & Hsome).
  assert (builds env name d = false) as Hb.
  { unfold builds. rewrite Hts. by rewrite bool_decide_false by (by intros []). }
  split_and!.
  - destruct (Hsome _ _ Hd) as (sm & _ & _ & Hu & _).
    unfold unit_after in Hu. rewrite Hb in Hu.
    destruct (unitsByName s !! name) as [u|]; [|by left].
    case_decide; [|by left]. right. by exists u.
  - exists evs. split; [done|]. intros ok Hin.
    rewrite Forall_forall in Fev. apply Fev in Hin.
    destruct Hin as (d' & Hd' & Hne & _). congruence.
  - intros env2 dc2 d2 Hok2 Hc Hns Hu Hd2 Hts2 Hf2.
    destruct (init_total env2 dc2 s' Hok2 Hc Hns) as (s'' & Hrun2 & _).
    destruct (init_spec _ _ _ _ Hok2 Hrun2) as (_ & _ & _ & _ & _ & _ & Hsome2).
    destruct (Hsome2 _ _ Hd2) as (sm & N1 & N2 & Hu2 & _ & Hb2).
    assert (builds env2 name d2 = true) as Hbuilds.
    { unfold builds. rewrite Hf2. by rewrite bool_decide_true. }
    destruct Hb2 as (Hlt & Hev); [intros u; by rewrite Hu|done|].
    exists s'', sm. split_and!; [done|done|done| |done].
    rewrite Hu2, Hu. unfold unit_after. by rewrite Hbuilds.
Qed.



(** ** Runs of cycles *)

Lemma Consistent_empty : Consistent emptyService.
Proof.
  split; [apply LoggersOK_empty|]. intros T.
  unfold usage_of, attached, emptyService. prim.
  by rewrite lookup_empty, map_fold_empty.
Qed.

Lemma LoggerLife_empty : LoggerLife emptyService.
Proof.
  unfold LoggerLife, emptyService. prim. split_and!.
  - intros T l Hin. by apply elem_of_nil in Hin.
  - intros T lu Hl. by rewrite lookup_empty in Hl.
  - intros T l Hin. by apply elem_of_nil in Hin.
Qed.

(** X4: a run of reconciliation cycles never hits the nil dereference of
    [remove] when no snapshot holds a destination that is both staged and
    not in stream mode: started in a state whose usage counts match the
    live units (the fresh service is one), every cycle returns, and the
    counts match again at the end. *)
Theorem cycles_never_panic cs : ∀ s0,
  Consistent s0 →
  Forall (λ c : Env * gmap string DestinationConfig, EnvOK c.1 ∧ NoStagedBatch c.2) cs →
  ∃ s, cycles cs s0 = Some s ∧ Consistent s.
Proof.
  induction cs as [|[env dc] cs IH]; intros s0 Hc Hall.
  - exists s0. by split.
  - apply Forall_cons in Hall as [[Hok Hns] Hall]. cbn [fst snd] in *.
    destruct (init_total env dc s0 Hok Hc Hns) as (s1 & E1 & Hc1).
    destruct (IH s1 Hc1 Hall) as (s & E & Hcs).
    exists s. split; [|done]. cbn [cycles]. rewrite E1. exact E.
Qed.

(** X5: the life of the shared loggers over any completed run of cycles on
    a fresh service: a logger that was created has been closed exactly
    once, unless it is the logger registered for its token, which has not
    been closed at all; every registered logger came from the logger
    factory; and only loggers the factory made are ever closed. *)
Theorem loggers_closed_exactly_once cs s :
  cycles cs emptyService = Some s →
  (∀ tokenID l, EvCreateIncomingLogger tokenID l ∈ trace s →
     closes tokenID l (trace s) =
       if decide (logger <$> loggersUsageByTokenID s !! tokenID = Some l) then 0 else 1) ∧
  (∀ tokenID lu, loggersUsageByTokenID s !! tokenID = Some lu →
     EvCreateIncomingLogger tokenID (logger lu) ∈ trace s ∧
     closes tokenID (logger lu) (trace s) = 0) ∧
  (∀ tokenID l, EvLoggerClose tokenID l ∈ trace s →
     EvCreateIncomingLogger tokenID l ∈ trace s).
Proof.
  intros Hc.
  pose proof (lsteps_LoggerLife _ _ (cycles_lsteps _ _ _ Hc) LoggerLife_empty)
    as (Hlife & Hreg & Hcl).
  split_and!.
  - intros T l Hin. by apply Hlife.
  - intros T lu Hl. split; [by apply Hreg|].
    destruct (Hlife T (logger lu) (Hreg T lu Hl)) as [_ Hn].
    rewrite Hl in Hn. cbn [fmap option_fmap option_map] in Hn.
    by rewrite decide_True in Hn.
  - exact Hcl.
Qed.

(** ** The first cycle and NewService *)

Lemma init_destination_fresh env n d s p :
  unitsByName s !! n = None →
  ∃ s' p', init_destination env (n, d) (s, p) = Some (s', p') ∧
           ∀ n', n' ≠ n → unitsByName s' !! n' = unitsByName s !! n'.
Proof.
  intros Hu. unfold init_destination.
  destruct (only_tokens_log n d s) as ((U0 & _) & _ & _).
  set (s0 := if decide (0 < length (OnlyTokens d)) then s
             else log (OnlyTokensNotProvided n) s) in *.
  clearbody s0. rewrite U0, Hu.
  destruct (create env n (resolve env d) (getHash n (resolve env d)) (s0, p))
    as [s' p'] eqn:Ec.
  exists s', p'. split; [done|]. intros n' Hne.
  apply create_spec in Ec. destruct Ec as (_ & _ & _ & _ & _ & _ & _ & Hc).
  cbn [fst snd] in Hc. rewrite <- U0.
  destruct (bool_decide (OnlyTokens (resolve env d) ≠ []) &&
            negb (Create_fails env n (resolve env d))).
  - destruct Hc as (-> & _). by rewrite lookup_insert_ne.
  - destruct Hc as ((-> & _) & _). done.
Qed.

Lemma first_loop_total env l : NoDup l.*1 → ∀ s p,
  (∀ n d, (n, d) ∈ l → unitsByName s !! n = None) →
  is_Some (forEach (init_destination env) l (s, p)).
Proof.
  induction l as [|[n d] l IH]; intros Hnd s p Hl; cbn [forEach]; [by eexists|].
  rewrite fmap_cons in Hnd. apply NoDup_cons in Hnd as [Hn Hnd]. cbn [fst] in Hn.
  destruct (init_destination_fresh env n d s p) as (s1 & p1 & E1 & U1).
  { apply (Hl n d). by left. }
  rewrite E1. cbn [mbind option_bind]. apply IH; [done|].
  intros n' d' Hin. rewrite U1.
  - apply (Hl n' d'). by right.
  - intros ->. apply Hn. apply list_elem_of_fmap. by exists (n, d').
Qed.

Lemma init_first_total env dc s :
  EnvOK env → unitsByName s = ∅ → is_Some (init env dc s).
Proof.
  intros Hok Hu. unfold init.
  rewrite remove_stale_none.
  2:{ intros n [u Hn]. change (unitsByName (set_Reloading true s)) with (unitsByName s) in Hn.
      by rewrite Hu, lookup_empty in Hn. }
  cbn [mbind option_bind].
  destruct (first_loop_total env (range_dc env (map_to_list dc)) (range_dc_NoDup env dc Hok)
              (set_Reloading true s) (mkPending ∅ ∅ ∅)) as [[s2 p2] E2].
  { intros n d _. change (unitsByName (set_Reloading true s)) with (unitsByName s).
    by rewrite Hu, lookup_empty. }
  rewrite E2. cbn [mbind option_bind]. by eexists.
Qed.

(** X6: NewService never panics, whatever the snapshot holds (staged batch
    destinations included): it returns either a service and no error or no
    service and an error.  The error is returned exactly when the reload
    interval is 0, or when there is no in-memory config and the source is
    not empty, not an http(s) URL, not a file path and not inline JSON.  A
    service it returns has its lock released and is not reloading. *)
Theorem NewService_never_panics env reloadSec destinations destinationsSource :
  EnvOK env →
  ∃ r, NewService env reloadSec destinations destinationsSource = Some r ∧
       (is_Some r.1 ↔ r.2 = None) ∧
       (is_Some r.2 ↔
          reloadSec = 0%Z ∨
          (destinations = None ∧ destinationsSource ≠ EmptyString ∧
           HasPrefix destinationsSource "http://" = false ∧
           HasPrefix destinationsSource "https://" = false ∧
           Contains destinationsSource "file://" = false ∧
           HasPrefix destinationsSource "/" = false ∧
           (HasPrefix destinationsSource "{" && HasSuffix destinationsSource "}") = false)) ∧
       (∀ s, r.1 = Some s → locked s = false ∧ Reloading s = false).
Proof.
  intros Hok. unfold NewService. case_decide as Hr.
  { eexists. split; [reflexivity|]. cbn [fst snd]. split_and!.
    - split; [by intros []|done].
    - split; [by left|by eexists].
    - done. }
  destruct destinations as [[dc|]|].
  - destruct (init_first_total env dc emptyService Hok eq_refl) as [s1 E1].
    rewrite E1. cbn [mbind option_bind].
    apply init_spec in E1 as (_ & L & R & _); [|done].
    eexists. split; [reflexivity|]. cbn [fst snd]. split_and!.
    + split; [done|by eexists].
    + split; [by intros []|]. intros [?|(? & _)]; done.
    + intros s [= <-]. case_decide; done.
  - eexists. split; [reflexivity|]. cbn [fst snd]. split_and!.
    + split; [done|by eexists].
    + split; [by intros []|]. intros [?|(? & _)]; done.
    + by intros s [= <-].
  - case_decide as Hsrc.
    2:{ eexists. split; [reflexivity|]. cbn [fst snd]. split_and!.
        - split; [done|by eexists].
        - split; [by intros []|]. intros [?|(_ & ? & _)]; done.
        - by intros s [= <-]. }
    destruct (HasPrefix destinationsSource "http://") eqn:E1; cbn [orb].
    { eexists. split; [reflexivity|]. cbn [fst snd]. split_and!.
      - split; [done|by eexists].
      - split; [by intros []|]. intros [?|(_ & _ & ? & _)]; done.
      - by intros s [= <-]. }
    destruct (HasPrefix destinationsSource "https://") eqn:E2.
    { eexists. split; [reflexivity|]. cbn [fst snd]. split_and!.
      - split; [done|by eexists].
      - split; [by intros []|]. intros [?|(_ & _ & _ & ? & _)]; done.
      - by intros s [= <-]. }
    destruct (Contains destinationsSource "file://") eqn:E3; cbn [orb].
    { eexists. split; [reflexivity|]. cbn [fst snd]. split_and!.
      - split; [done|by eexists].
      - split; [by intros []|]. intros [?|(_ & _ & _ & _ & ? & _)]; done.
      - by intros s [= <-]. }
    destruct (HasPrefix destinationsSource "/") eqn:E4.
    { eexists. split; [reflexivity|]. cbn [fst snd]. split_and!.
      - split; [done|by eexists].
      - split; [by intros []|]. intros [?|(_ & _ & _ & _ & _ & ? & _)]; done.
      - by intros s [= <-]. }
    destruct (HasPrefix destinationsSource "{" && HasSuffix destinationsSource "}") eqn:E5.
    + unfold updateDestinations.
      destruct (parseFromBytes (String.list_byte_of_string destinationsSource)) as [dc|].
      * destruct (init_first_total env dc emptyService Hok eq_refl) as [s1 E].
        rewrite E. cbn [mbind option_bind].
        apply init_spec in E as (_ & L & R & _); [|done].
        eexists. split; [reflexivity|]. cbn [fst snd]. split_and!.
        -- split; [done|by eexists].
        -- split; [by intros []|]. intros [?|(_ & _ & _ & _ & _ & _ & ?)]; done.
        -- intros s [= <-]. case_decide; done.
      * cbn [mbind option_bind].
        eexists. split; [reflexivity|]. cbn [fst snd]. split_and!.
        -- split; [done|by eexists].
        -- split; [by intros []|]. intros [?|(_ & _ & _ & _ & _ & _ & ?)]; done.
        -- by intros s [= <-].
    + eexists. split; [reflexivity|]. cbn [fst snd]. split_and!.
      * split; [by intros []|done].
      * split; [|by eexists]. intros _. right. done.
      * done.
Qed.

(** ** Close *)

Lemma closes_Permutation T l tr1 tr2 : tr1 ≡ₚ tr2 → closes T l tr1 = closes T l tr2.
Proof. intros Hp. unfold closes. by rewrite Hp. Qed.

Lemma closes_loggers_map (m : gmap string LoggerUsage) T l :
  closes T l ((λ e : string * LoggerUsage, EvLoggerClose e.1 (logger e.2)) <$> map_to_list m) =
    if decide (logger <$> m !! T = Some l) then 1 else 0.
Proof.
  induction m as [|T' lu m Hn IH] using map_ind.
  - rewrite map_to_list_empty, lookup_empty. done.
  - rewrite (closes_Permutation _ _ _ _ (fmap_Permutation _ _ _ (map_to_list_insert m T' lu Hn))).
    rewrite fmap_cons. cbn [fst snd].
    change (?e :: ?tr) with ([e] ++ tr). rewrite closes_app, closes_single, IH.
    destruct (decide (T' = T)) as [->|Hne].
    + rewrite lookup_insert_eq, Hn. cbn [fmap option_fmap option_map].
      repeat case_decide; simplify_eq; done.
    + rewrite lookup_insert_ne by done.
      rewrite decide_False by congruence. done.
Qed.

Lemma close_loggers_spec cenv l : ∀ errs s,
  ∃ s', foldl (close_logger cenv) (errs, s) l =
          (errs ++ ((λ e : string * LoggerUsage, LoggerCloseError e.1) <$>
                    filter (λ e : string * LoggerUsage,
                              logger_Close_fails cenv e.1 (logger e.2) = true) l), s') ∧
        same_state s s' ∧ locked s' = locked s ∧ Reloading s' = Reloading s ∧
        trace s' = trace s ++
                   ((λ e : string * LoggerUsage, EvLoggerClose e.1 (logger e.2)) <$> l).
Proof.
  induction l as [|[T lu] l IH]; intros errs s; cbn [foldl].
  - exists s. rewrite filter_nil, fmap_nil, !app_nil_r.
    split_and!; try done; try apply same_state_refl.
  - rewrite filter_cons. cbn [close_logger fst snd].
    destruct (logger_Close_fails cenv T (logger lu)) eqn:Ef.
    + destruct (IH (errs ++ [LoggerCloseError T]) (emit (EvLoggerClose T (logger lu)) s))
        as (s' & E & S & L & R & Tr).
      exists s'. rewrite E. rewrite decide_True by done.
      rewrite !fmap_cons, <- !app_assoc. cbn [fst snd app].
      split_and!; try done. rewrite Tr. prim. by rewrite <- app_assoc.
    + destruct (IH errs (emit (EvLoggerClose T (logger lu)) s))
        as (s' & E & S & L & R & Tr).
      exists s'. rewrite E. rewrite decide_False by done.
      rewrite !fmap_cons. cbn [fst snd].
      split_and!; try done. rewrite Tr. prim. by rewrite <- app_assoc.
Qed.

Lemma close_units_spec cenv l : ∀ errs s,
  ∃ s', foldl (close_unit cenv) (errs, s) l =
          (errs ++ ((λ e : string * Unit, UnitCloseError e.1) <$>
                    filter (λ e : string * Unit, unit_Close_fails cenv e.1 e.2 = true) l), s') ∧
        same_state s s' ∧ locked s' = locked s ∧ Reloading s' = Reloading s ∧
        trace s' = trace s ++
                   ((λ e : string * Unit, EvUnitClose e.1 (storage e.2) (eventQueue e.2)) <$> l).
Proof.
  induction l as [|[n u] l IH]; intros errs s; cbn [foldl].
  - exists s. rewrite filter_nil, fmap_nil, !app_nil_r.
    split_and!; try done; try apply same_state_refl.
  - rewrite filter_cons. cbn [close_unit fst snd].
    destruct (unit_Close_fails cenv n u) eqn:Ef.
    + destruct (IH (errs ++ [UnitCloseError n]) (Unit_Close n u s))
        as (s' & E & S & L & R & Tr).
      exists s'. rewrite E. rewrite decide_True by done.
      rewrite !fmap_cons, <- !app_assoc. cbn [fst snd app].
      split_and!; try done. rewrite Tr. prim. by rewrite <- app_assoc.
    + destruct (IH errs (Unit_Close n u s)) as (s' & E & S & L & R & Tr).
      exists s'. rewrite E. rewrite decide_False by done.
      rewrite !fmap_cons. cbn [fst snd].
      split_and!; try done. rewrite Tr. prim. by rewrite <- app_assoc.
Qed.

(** Close as a whole: the state, the events and the errors. *)
Lemma Close_spec cenv s :
  CloseEnvOK cenv →
  ∃ Ls Us,
    Ls ≡ₚ map_to_list (loggersUsageByTokenID s) ∧
    Us ≡ₚ map_to_list (unitsByName s) ∧
    same_state s (Close cenv s).2 ∧
    locked (Close cenv s).2 = locked s ∧ Reloading (Close cenv s).2 = Reloading s ∧
    trace (Close cenv s).2 =
      trace s ++
      ((λ e : string * LoggerUsage, EvLoggerClose e.1 (logger e.2)) <$> Ls) ++
      ((λ e : string * Unit, EvUnitClose e.1 (storage e.2) (eventQueue e.2)) <$> Us) ∧
    (Close cenv s).1 =
      ((λ e : string * LoggerUsage, LoggerCloseError e.1) <$>
         filter (λ e : string * LoggerUsage,
                   logger_Close_fails cenv e.1 (logger e.2) = true) Ls) ++
      ((λ e : string * Unit, UnitCloseError e.1) <$>
         filter (λ e : string * Unit, unit_Close_fails cenv e.1 e.2 = true) Us).
Proof.
  intros [HpL HpU]. unfold Close.
  destruct (close_loggers_spec cenv
              (range_loggers cenv (map_to_list (loggersUsageByTokenID s))) [] s)
    as (s1 & E1 & S1 & L1 & R1 & T1).
  rewrite E1. cbn [snd].
  destruct (close_units_spec cenv (range_all_units cenv (map_to_list (unitsByName s1)))
              ([] ++ ((λ e : string * LoggerUsage, LoggerCloseError e.1) <$>
                 filter (λ e : string * LoggerUsage,
                           logger_Close_fails cenv e.1 (logger e.2) = true)
                   (range_loggers cenv (map_to_list (loggersUsageByTokenID s))))) s1)
    as (s2 & E2 & S2 & L2 & R2 & T2).
  rewrite E2. cbn [fst snd].
  exists (range_loggers cenv (map_to_list (loggersUsageByTokenID s))),
         (range_all_units cenv (map_to_list (unitsByName s1))).
  split_and!.
  - apply HpL.
  - destruct S1 as (<- & _). apply HpU.
  - eauto using same_state_trans.
  - congruence.
  - congruence.
  - rewrite T2, T1. by rewrite <- app_assoc.
  - done.
Qed.

(** X7: Close closes every registered logger exactly once and every
    registered unit, whether or not some of them fail to close: it does
    not stop at the first error.  The error it returns names exactly the
    tokens whose logger and the destinations whose unit failed to close.
    It deletes nothing: the registries and the tokenized maps are as
    before. *)
Theorem Close_closes_everything cenv s :
  CloseEnvOK cenv →
  same_state s (Close cenv s).2 ∧
  (∃ evs, trace (Close cenv s).2 = trace s ++ evs ∧
     (∀ tokenID l, closes tokenID l evs =
        if decide (logger <$> loggersUsageByTokenID s !! tokenID = Some l) then 1 else 0) ∧
     (∀ name u, unitsByName s !! name = Some u →
        EvUnitClose name (storage u) (eventQueue u) ∈ evs)) ∧
  (∀ tokenID, LoggerCloseError tokenID ∈ (Close cenv s).1 ↔
     ∃ lu, loggersUsageByTokenID s !! tokenID = Some lu ∧
           logger_Close_fails cenv tokenID (logger lu) = true) ∧
  (∀ name, UnitCloseError name ∈ (Close cenv s).1 ↔
     ∃ u, unitsByName s !! name = Some u ∧ unit_Close_fails cenv name u = true).
Proof.
  intros Hok. destruct (Close_spec cenv s Hok) as (Ls & Us & HL & HU & S & _ & _ & Tr & Er).
  split_and!.
  - exact S.
  - eexists. split; [exact Tr|]. split.
    + intros T l. rewrite closes_app.
      rewrite (closes_Permutation _ _ _ _ (fmap_Permutation _ _ _ HL)), closes_loggers_map.
      assert (closes T l ((λ e : string * Unit,
                EvUnitClose e.1 (storage e.2) (eventQueue e.2)) <$> Us) = 0) as ->; [|lia].
      apply closes_0. intros Hin. apply list_elem_of_fmap in Hin as (e & Heq & _). done.
    + intros n u Hu. apply elem_of_app. right. apply list_elem_of_fmap.
      exists (n, u). split; [done|]. rewrite HU. by apply elem_of_map_to_list.
  - intros T. rewrite Er, elem_of_app. split.
    + intros [Hin|Hin].
      * apply list_elem_of_fmap in Hin as ([T' lu] & [= ->] & Hin).
        apply list_elem_of_filter in Hin as [Hf Hin]. rewrite HL in Hin.
        apply elem_of_map_to_list in Hin. by exists lu.
      * apply list_elem_of_fmap in Hin as (e & Heq & _). done.
    + intros (lu & Hl & Hf). left. apply list_elem_of_fmap. exists (T, lu). split; [done|].
      apply list_elem_of_filter. split; [done|]. rewrite HL. by apply elem_of_map_to_list.
  - intros n. rewrite Er, elem_of_app. split.
    + intros [Hin|Hin].
      * apply list_elem_of_fmap in Hin as (e & Heq & _). done.
      * apply list_elem_of_fmap in Hin as ([n' u] & [= ->] & Hin).
        apply list_elem_of_filter in Hin as [Hf Hin]. rewrite HU in Hin.
        apply elem_of_map_to_list in Hin. by exists u.
    + intros (u & Hl & Hf). right. apply list_elem_of_fmap. exists (n, u). split; [done|].
      apply list_elem_of_filter. split; [done|]. rewrite HU. by apply elem_of_map_to_list.
Qed.

(** X8: shutting down after any completed run of cycles on a fresh service
    leaves no logger open and closes none twice: every logger the logger
    factory ever created has been closed exactly once when Close
    returns. *)
Theorem shutdown_closes_every_logger_once cenv cs s :
  CloseEnvOK cenv → cycles cs emptyService = Some s →
  ∀ tokenID l, EvCreateIncomingLogger tokenID l ∈ trace (Close cenv s).2 →
    closes tokenID l (trace (Close cenv s).2) = 1.
Proof.
  intros Hok Hc T l Hin.
  destruct (Close_spec cenv s Hok) as (Ls & Us & HL & HU & _ & _ & _ & Tr & _).
  pose proof (lsteps_LoggerLife _ _ (cycles_lsteps _ _ _ Hc) LoggerLife_empty)
    as (Hlife & _ & _).
  rewrite Tr in Hin |- *.
  assert (EvCreateIncomingLogger T l ∈ trace s) as Hin'.
  { apply elem_of_app in Hin as [?|Hin]; [done|].
    apply elem_of_app in Hin as [Hin|Hin];
      apply list_elem_of_fmap in Hin as (e & Heq & _); done. }
  destruct (Hlife T l Hin') as [_ Hcl].
  rewrite !closes_app, Hcl.
  rewrite (closes_Permutation _ _ _ _ (fmap_Permutation _ _ _ HL)), closes_loggers_map.
  assert (closes T l ((λ e : string * Unit,
            EvUnitClose e.1 (storage e.2) (eventQueue e.2)) <$> Us) = 0) as ->.
  { apply closes_0. intros Hi. apply list_elem_of_fmap in Hi as (e & Heq & _). done. }
  case_decide; lia.
Qed.

(** ** Entries of the tokenized collections *)

Lemma lookup2_Add {V} (T n : string) (v : V) ts T' n' :
  lookup2 (Add T n v ts) T' n' =
    if decide (T' = T ∧ n' = n) then Some v else lookup2 ts T' n'.
Proof.
  unfold lookup2, Add. destruct (decide (T' = T)) as [->|HT].
  - rewrite lookup_insert_eq. cbn [mbind option_bind].
    destruct (decide (n' = n)) as [->|Hn].
    + rewrite lookup_insert_eq. by rewrite decide_True.
    + rewrite lookup_insert_ne by done. rewrite decide_False by (by intros [_ ?]).
      destruct (ts !! T); [done|]. cbn [default mbind option_bind]. apply lookup_empty.
  - rewrite lookup_insert_ne by done. by rewrite decide_False by (by intros [? _]).
Qed.

Lemma lookup2_fold_Add {V} (T : string) (inner : gmap string V) acc T' n' :
  lookup2 (map_fold (λ n v acc', Add T n v acc') acc inner) T' n' =
    if decide (T' = T)
    then match inner !! n' with Some v => Some v | None => lookup2 acc T' n' end
    else lookup2 acc T' n'.
Proof.
  revert T' n'.
  apply (map_fold_weak_ind (λ r (m : gmap string V), ∀ T' n',
           lookup2 r T' n' =
             if decide (T' = T)
             then match m !! n' with Some v => Some v | None => lookup2 acc T' n' end
             else lookup2 acc T' n')).
  - intros T' n'. rewrite lookup_empty. by case_decide.
  - intros n v m r Hn IH T' n'. rewrite lookup2_Add, IH.
    destruct (decide (T' = T)) as [->|HT].
    + destruct (decide (n' = n)) as [->|Hne].
      * rewrite decide_True by done. by rewrite lookup_insert_eq.
      * rewrite decide_False by (by intros [_ ?]). by rewrite lookup_insert_ne.
    + by rewrite decide_False by (by intros [? _]).
Qed.

Lemma lookup2_insert {V} (m : gmap string (gmap string V)) T0 inner T n :
  lookup2 (<[T0 := inner]> m) T n = if decide (T = T0) then inner !! n else lookup2 m T n.
Proof.
  unfold lookup2. case_decide as HT.
  - subst. by rewrite lookup_insert_eq.
  - by rewrite lookup_insert_ne.
Qed.

Lemma lookup2_None {V} (m : gmap string (gmap string V)) T n :
  m !! T = None → lookup2 m T n = None.
Proof. unfold lookup2. by intros ->. Qed.

Lemma lookup2_AddAll {V} (other ts : gmap string (gmap string V)) T n :
  lookup2 (AddAll other ts) T n =
    match lookup2 other T n with Some v => Some v | None => lookup2 ts T n end.
Proof.
  unfold AddAll. revert T n.
  apply (map_fold_weak_ind (λ r (m : gmap string (gmap string V)), ∀ T n,
           lookup2 r T n =
             match lookup2 m T n with Some v => Some v | None => lookup2 ts T n end)).
  - intros T n. by rewrite (lookup2_None ∅ T n (lookup_empty _)).
  - intros T0 inner m r Hn IH T n. rewrite lookup2_fold_Add, IH, lookup2_insert.
    case_decide as HT; [|done]. subst. by rewrite (lookup2_None m T0 n Hn).
Qed.

Lemma lookup2_empty {V} T n : lookup2 (∅ : gmap string (gmap string V)) T n = None.
Proof. unfold lookup2. by rewrite lookup_empty. Qed.

(** Deleting a key under a token, and dropping the token when nothing is
    left under it. *)
Lemma lookup2_alter_delete {V} (ts : gmap string (gmap string V)) T n T' n' :
  lookup2 (alter (delete n) T ts) T' n' =
    if decide (T' = T ∧ n' = n) then None else lookup2 ts T' n'.
Proof.
  unfold lookup2. destruct (decide (T' = T)) as [->|HT].
  - rewrite lookup_alter_eq. destruct (ts !! T) as [inner|]; cbn [fmap option_fmap option_map mbind option_bind].
    + destruct (decide (n' = n)) as [->|Hn].
      * rewrite decide_True by done. apply lookup_delete_eq.
      * rewrite decide_False by (by intros [_ ?]). by apply lookup_delete_ne.
    + by case_decide.
  - rewrite lookup_alter_ne by done. by rewrite decide_False by (by intros [? _]).
Qed.

Lemma lookup2_delete_empty {V} (ts : gmap string (gmap string V)) T T' n' :
  size (default ∅ (ts !! T)) = 0 →
  lookup2 (delete T ts) T' n' = lookup2 ts T' n'.
Proof.
  intros Hsz. unfold lookup2. destruct (decide (T' = T)) as [->|HT].
  - rewrite lookup_delete_eq. destruct (ts !! T) as [inner|]; [|done].
    cbn [default] in Hsz. cbn [mbind option_bind].
    by rewrite (map_size_empty_inv inner Hsz), lookup_empty.
  - by rewrite lookup_delete_ne.
Qed.

(** ** What removal does to the entries of the tokenized collections *)

Lemma remove_storage_lookup2 n T s :
  consumersByTokenID (remove_storage n T s) = consumersByTokenID s ∧
  destinationsIDByTokenID (remove_storage n T s) = destinationsIDByTokenID s ∧
  ∀ T' n', lookup2 (storagesByTokenID (remove_storage n T s)) T' n' =
             if decide (T' = T ∧ n' = n) then None
             else lookup2 (storagesByTokenID s) T' n'.
Proof.
  unfold remove_storage. destruct (storagesByTokenID s !! T) as [inner|] eqn:E.
  - case_decide as Hsz; prim; (split; [done|split; [done|]]); intros T' n'.
    + rewrite lookup2_delete_empty by done. apply lookup2_alter_delete.
    + apply lookup2_alter_delete.
  - split; [done|split; [done|]]. intros T' n'. case_decide as Hd; [|done].
    destruct Hd as [-> ->]. by apply lookup2_None.
Qed.

Lemma remove_id_lookup2 n T s :
  consumersByTokenID (remove_id n T s) = consumersByTokenID s ∧
  storagesByTokenID (remove_id n T s) = storagesByTokenID s ∧
  ∀ T' n', lookup2 (destinationsIDByTokenID (remove_id n T s)) T' n' =
             if decide (T' = T ∧ n' = n) then None
             else lookup2 (destinationsIDByTokenID s) T' n'.
Proof.
  unfold remove_id. destruct (destinationsIDByTokenID s !! T) as [inner|] eqn:E.
  - case_decide as Hsz; prim; (split; [done|split; [done|]]); intros T' n'.
    + rewrite lookup2_delete_empty by done. apply lookup2_alter_delete.
    + apply lookup2_alter_delete.
  - split; [done|split; [done|]]. intros T' n'. case_decide as Hd; [|done].
    destruct Hd as [-> ->]. by apply lookup2_None.
Qed.

Lemma remove_consumer_lookup2 n u T s s' :
  remove_consumer n u T s = Some s' →
  ∀ T' k, lookup2 (consumersByTokenID s') T' k =
            if decide (T' = T ∧ k = match eventQueue u with Some _ => n | None => T end ∧
                       (eventQueue u = None → usage_of s T = 1%Z))
            then None else lookup2 (consumersByTokenID s) T' k.
Proof.
  unfold remove_consumer, usage_of. intros Hr T' k.
  destruct (eventQueue u) as [q|].
  - cbn [mbind option_bind] in Hr. case_decide as Hsz; apply (inj Some) in Hr; subst s'; prim.
    + rewrite lookup2_delete_empty by done. rewrite lookup2_alter_delete.
      repeat case_decide; naive_solver.
    + rewrite lookup2_alter_delete. repeat case_decide; naive_solver.
  - destruct (loggersUsageByTokenID s !! T) as [lu|] eqn:El; [|done].
    cbn [mbind option_bind usage logger] in Hr.
    destruct (decide (usage lu - 1 = 0)%Z) as [Hz|Hz]; cbn [mbind option_bind] in Hr.
    + case_decide as Hsz; apply (inj Some) in Hr; subst s'; prim.
      * rewrite lookup2_delete_empty by done. rewrite lookup2_alter_delete.
        repeat case_decide; try done; exfalso; naive_solver lia.
      * rewrite lookup2_alter_delete.
        repeat case_decide; try done; exfalso; naive_solver lia.
    + case_decide as Hsz; apply (inj Some) in Hr; subst s'; prim.
      * rewrite lookup2_delete_empty by done.
        rewrite decide_False; [done|]. intros (_ & _ & Hu). specialize (Hu eq_refl). lia.
      * rewrite decide_False; [done|]. intros (_ & _ & Hu). specialize (Hu eq_refl). lia.
Qed.

Lemma remove_token_lookup2 n u T s s' :
  remove_token n u T s = Some s' →
  (∀ T' n', lookup2 (storagesByTokenID s') T' n' =
              if decide (T' = T ∧ n' = n) then None
              else lookup2 (storagesByTokenID s) T' n') ∧
  (∀ T' n', lookup2 (destinationsIDByTokenID s') T' n' =
              if decide (T' = T ∧ n' = n) then None
              else lookup2 (destinationsIDByTokenID s) T' n') ∧
  (∀ T' k, lookup2 (consumersByTokenID s') T' k =
             if decide (T' = T ∧ k = match eventQueue u with Some _ => n | None => T end ∧
                        (eventQueue u = None → usage_of s T = 1%Z))
             then None else lookup2 (consumersByTokenID s) T' k).
Proof.
  unfold remove_token. intros Hr.
  destruct (remove_consumer n u T s) as [s1|] eqn:E; [|done].
  cbn [mbind option_bind] in Hr. apply (inj Some) in Hr. subst s'.
  pose proof (remove_consumer_lookup2 _ _ _ _ _ E) as HC.
  destruct (remove_consumer_frame _ _ _ _ _ E) as (_ & S1 & I1 & _).
  destruct (remove_storage_lookup2 n T s1) as (C2 & I2 & S2).
  destruct (remove_id_lookup2 n T (remove_storage n T s1)) as (C3 & S3 & I3).
  split_and!.
  - intros T' n'. rewrite S3, S2, S1. done.
  - intros T' n'. rewrite I3, I2, I1. done.
  - intros T' k. rewrite C3, C2. apply HC.
Qed.

Lemma remove_tokens_lookup2 n u ts : ∀ s s',
  forEach (remove_token n u) ts s = Some s' →
  (∀ T' n', lookup2 (storagesByTokenID s') T' n' =
              if decide (n' = n ∧ T' ∈ ts) then None
              else lookup2 (storagesByTokenID s) T' n') ∧
  (∀ T' n', lookup2 (destinationsIDByTokenID s') T' n' =
              if decide (n' = n ∧ T' ∈ ts) then None
              else lookup2 (destinationsIDByTokenID s) T' n') ∧
  (∀ T' k v, lookup2 (consumersByTokenID s') T' k = Some v →
             lookup2 (consumersByTokenID s) T' k = Some v) ∧
  (is_Some (eventQueue u) →
   ∀ T' k, lookup2 (consumersByTokenID s') T' k =
             if decide (k = n ∧ T' ∈ ts) then None
             else lookup2 (consumersByTokenID s) T' k).
Proof.
  induction ts as [|T ts IH]; intros s s' Hr; cbn [forEach] in Hr.
  - simplify_eq. split_and!; try done.
    + intros T' n'. rewrite decide_False; [done|]. intros [_ Hin]. by apply elem_of_nil in Hin.
    + intros T' n'. rewrite decide_False; [done|]. intros [_ Hin]. by apply elem_of_nil in Hin.
    + intros _ T' n'. rewrite decide_False; [done|]. intros [_ Hin]. by apply elem_of_nil in Hin.
  - destruct (remove_token n u T s) as [s1|] eqn:E; [|done].
    cbn [mbind option_bind] in Hr.
    destruct (remove_token_lookup2 _ _ _ _ _ E) as (S1 & I1 & C1).
    destruct (IH _ _ Hr) as (S2 & I2 & C2 & Q2).
    split_and!.
    + intros T' n'. rewrite S2, S1. pose proof (elem_of_cons ts T' T) as Hc.
      repeat case_decide; try done; exfalso; naive_solver.
    + intros T' n'. rewrite I2, I1. pose proof (elem_of_cons ts T' T) as Hc.
      repeat case_decide; try done; exfalso; naive_solver.
    + intros T' k v Hl. apply C2 in Hl. rewrite C1 in Hl. by case_decide.
    + intros [q Hq] T' k. rewrite Q2 by eauto. rewrite C1, Hq. pose proof (elem_of_cons ts T' T) as Hc.
      repeat case_decide; try done; exfalso; naive_solver.
Qed.

(** After [remove], the destination has no storage and no ID under any of
    its tokens and, when it has a queue, no consumer either; every other
    storage and ID entry is as before, and no consumer entry is new. *)
Lemma remove_lookup2 n u s s' :
  remove n u s = Some s' →
  (∀ T' n', lookup2 (storagesByTokenID s') T' n' =
              if decide (n' = n ∧ T' ∈ tokenIDs u) then None
              else lookup2 (storagesByTokenID s) T' n') ∧
  (∀ T' n', lookup2 (destinationsIDByTokenID s') T' n' =
              if decide (n' = n ∧ T' ∈ tokenIDs u) then None
              else lookup2 (destinationsIDByTokenID s) T' n') ∧
  (∀ T' k v, lookup2 (consumersByTokenID s') T' k = Some v →
             lookup2 (consumersByTokenID s) T' k = Some v) ∧
  (is_Some (eventQueue u) →
   ∀ T' k, lookup2 (consumersByTokenID s') T' k =
             if decide (k = n ∧ T' ∈ tokenIDs u) then None
             else lookup2 (consumersByTokenID s) T' k).
Proof.
  unfold remove. intros Hr.
  destruct (forEach (remove_token n u) (tokenIDs u) s) as [s1|] eqn:E; [|done].
  cbn [mbind option_bind] in Hr. apply (inj Some) in Hr. subst s'.
  prim. by apply remove_tokens_lookup2.
Qed.

(** ** What registering a destination adds to the cycle's collections *)

Lemma register_token_pending n d st q T s p :
  let p' := (register_token n d st q T (s, p)).2 in
  (∀ T' k, lookup2 (newIDs p') T' k =
             if decide (T' = T ∧ k = n ∧ Staged d = false) then Some true
             else lookup2 (newIDs p) T' k) ∧
  (∀ T' k, lookup2 (newStorages p') T' k =
             if decide (T' = T ∧ k = n ∧ Staged d = false ∧ Mode d ≠ StreamMode)
             then Some st else lookup2 (newStorages p) T' k) ∧
  (Mode d = StreamMode →
   ∀ T' k, lookup2 (newConsumers p') T' k =
             if decide (T' = T ∧ k = n ∧ Staged d = false) then Some (QueueConsumer q)
             else lookup2 (newConsumers p) T' k) ∧
  (Mode d ≠ StreamMode →
   ∀ T' k, lookup2 (newConsumers p') T' k =
             if decide (T' = T ∧ k = T ∧ Staged d = false)
             then Some (LoggerConsumer (logger_at s T))
             else lookup2 (newConsumers p) T' k).
Proof.
  unfold register_token, logger_at. destruct (Staged d).
  { cbn [snd]. split_and!; intros; rewrite decide_False; try done; naive_solver. }
  case_decide as Hm.
  { cbn [snd newIDs newStorages newConsumers]. split_and!.
    - intros T' k. rewrite lookup2_Add. repeat case_decide; try done; exfalso; naive_solver.
    - intros T' k. rewrite decide_False; [done|]. naive_solver.
    - intros _ T' k. rewrite lookup2_Add. repeat case_decide; try done; exfalso; naive_solver.
    - done. }
  destruct (loggersUsageByTokenID s !! T) as [lu|] eqn:E;
    cbn [snd newIDs newStorages newConsumers logger CreateIncomingLogger fresh]; split_and!.
  all: try done.
  all: intros; rewrite ?lookup2_Add; repeat case_decide; try done; exfalso; naive_solver.
Qed.

Lemma register_token_logger n d st q T s p :
  let s' := (register_token n d st q T (s, p)).1 in
  (∀ T', is_Some (loggersUsageByTokenID s !! T') →
         is_Some (loggersUsageByTokenID s' !! T') ∧ logger_at s' T' = logger_at s T') ∧
  (Staged d = false → Mode d ≠ StreamMode →
   is_Some (loggersUsageByTokenID s' !! T) ∧ logger_at s' T = logger_at s T).
Proof.
  unfold register_token, logger_at. destruct (Staged d).
  { prim. split; [|done]. intros T' HT'. done. }
  case_decide as Hm.
  { cbn [fst]. split; [|done]. intros T' HT'. done. }
  destruct (loggersUsageByTokenID s !! T) as [lu|] eqn:E; prim; cbn [logger].
  - split.
    + intros T' [lu' HT']. destruct (decide (T' = T)) as [->|Hne].
      * rewrite lookup_insert_eq. rewrite E. split; [by eexists|done].
      * rewrite lookup_insert_ne by done. rewrite HT'. split; [by eexists|done].
    + intros _ _. rewrite lookup_insert_eq. split; [by eexists|done].
  - split.
    + intros T' [lu' HT']. destruct (decide (T' = T)) as [->|Hne]; [congruence|].
      rewrite !lookup_insert_ne by done. rewrite HT'. split; [by eexists|done].
    + intros _ _. rewrite lookup_insert_eq. split; [by eexists|done].
Qed.

Lemma register_loop_logger n d st q ts : ∀ sp,
  let s' := (foldl (λ acc T, register_token n d st q T acc) sp ts).1 in
  ∀ T', is_Some (loggersUsageByTokenID sp.1 !! T') →
        is_Some (loggersUsageByTokenID s' !! T') ∧ logger_at s' T' = logger_at sp.1 T'.
Proof.
  induction ts as [|T ts IH]; intros [s p]; cbn [foldl fst]; [done|].
  intros T' HT'.
  destruct (register_token_logger n d st q T s p) as [H1 _].
  destruct (H1 T' HT') as [HT1 E1].
  destruct (register_token n d st q T (s, p)) as [s1 p1] eqn:E. cbn [fst] in *.
  destruct (IH (s1, p1) T' HT1) as [HT2 E2]. cbn [fst] in *.
  split; [done|]. congruence.
Qed.

Lemma register_loop_pending n d st q ts : ∀ sp,
  let sp' := foldl (λ acc T, register_token n d st q T acc) sp ts in
  (∀ T' k, lookup2 (newIDs sp'.2) T' k =
             if decide (T' ∈ ts ∧ k = n ∧ Staged d = false) then Some true
             else lookup2 (newIDs sp.2) T' k) ∧
  (∀ T' k, lookup2 (newStorages sp'.2) T' k =
             if decide (T' ∈ ts ∧ k = n ∧ Staged d = false ∧ Mode d ≠ StreamMode)
             then Some st else lookup2 (newStorages sp.2) T' k) ∧
  (Mode d = StreamMode →
   ∀ T' k, lookup2 (newConsumers sp'.2) T' k =
             if decide (T' ∈ ts ∧ k = n ∧ Staged d = false) then Some (QueueConsumer q)
             else lookup2 (newConsumers sp.2) T' k) ∧
  (Mode d ≠ StreamMode →
   ∀ T' k, lookup2 (newConsumers sp'.2) T' k =
             if decide (T' ∈ ts ∧ k = T' ∧ Staged d = false)
             then Some (LoggerConsumer (logger_at sp'.1 T'))
             else lookup2 (newConsumers sp.2) T' k).
Proof.
  induction ts as [|T ts IH]; intros [s p]; cbn [foldl fst snd].
  - split_and!; intros; rewrite decide_False; try done;
      intros [Hin _]; by apply elem_of_nil in Hin.
  - destruct (register_token_pending n d st q T s p) as (I1 & S1 & Q1 & L1).
    destruct (register_token_logger n d st q T s p) as [_ G1].
    pose proof (register_loop_logger n d st q ts (register_token n d st q T (s, p))) as G2.
    destruct (register_token n d st q T (s, p)) as [s1 p1] eqn:E. cbn [fst snd] in *.
    destruct (IH (s1, p1)) as (I2 & S2 & Q2 & L2). cbn [fst snd] in *.
    split_and!.
    + intros T' k. rewrite I2, I1. pose proof (elem_of_cons ts T' T) as Hc.
      repeat case_decide; try done; exfalso; naive_solver.
    + intros T' k. rewrite S2, S1. pose proof (elem_of_cons ts T' T) as Hc.
      repeat case_decide; try done; exfalso; naive_solver.
    + intros Hm T' k. rewrite Q2, Q1 by done. pose proof (elem_of_cons ts T' T) as Hc.
      repeat case_decide; try done; exfalso; naive_solver.
    + intros Hm T' k. rewrite L2, L1 by done. pose proof (elem_of_cons ts T' T) as Hc.
      clear IH I1 S1 Q1 L1 I2 S2 Q2 L2.
      repeat case_decide; try done;
        first [ destruct_and!; subst;
                match goal with
                | Hs : Staged d = false |- _ => destruct (G1 Hs Hm) as [Hs1 Hl1]
                end;
                destruct (G2 _ Hs1) as [_ Hl2]; congruence
              | exfalso; clear G1 G2; naive_solver ].
Qed.

Lemma create_pending env n d h s p :
  let sp' := create env n d h (s, p) in
  if bool_decide (OnlyTokens d ≠ []) && negb (Create_fails env n d)
  then
    (∀ T k, lookup2 (newIDs sp'.2) T k =
              if decide (T ∈ OnlyTokens d ∧ k = n ∧ Staged d = false) then Some true
              else lookup2 (newIDs p) T k) ∧
    (∀ T k, lookup2 (newStorages sp'.2) T k =
              if decide (T ∈ OnlyTokens d ∧ k = n ∧ Staged d = false ∧ Mode d ≠ StreamMode)
              then Some (storage (built_unit d h s)) else lookup2 (newStorages p) T k) ∧
    (Mode d = StreamMode →
     ∀ T k, lookup2 (newConsumers sp'.2) T k =
              if decide (T ∈ OnlyTokens d ∧ k = n ∧ Staged d = false)
              then Some (QueueConsumer (eventQueue (built_unit d h s)))
              else lookup2 (newConsumers p) T k) ∧
    (Mode d ≠ StreamMode →
     ∀ T k, lookup2 (newConsumers sp'.2) T k =
              if decide (T ∈ OnlyTokens d ∧ k = T ∧ Staged d = false)
              then Some (LoggerConsumer (logger_at sp'.1 T))
              else lookup2 (newConsumers p) T k)
  else sp'.2 = p.
Proof.
  cbn zeta.
  destruct (bool_decide (OnlyTokens d ≠ []) && negb (Create_fails env n d)) eqn:Eb.
  2:{ pose proof (create_spec env n d h s p _ eq_refl) as (_ & _ & _ & _ & _ & _ & _ & Hs).
      rewrite Eb in Hs. by destruct Hs as (_ & ? & _). }
  apply andb_true_iff in Eb as [Hne%bool_decide_eq_true Hf%negb_true_iff].
  unfold create. rewrite decide_False by (by destruct (OnlyTokens d)).
  rewrite Create_eq, Hf. cbv beta iota zeta.
  match goal with
  | |- context [foldl (λ a t, register_token _ _ ?st ?q t a) ?sp0 ?ts] =>
      pose proof (register_loop_pending n d st q ts sp0) as Hl
  end.
  cbn zeta in Hl. cbn [snd] in Hl. unfold built_unit. cbn [storage eventQueue].
  exact Hl.
Qed.

(** ** The routing tables refer to live units *)

Ltac case_decide_goal :=
  match goal with |- context [@decide ?P ?dec] => destruct (@decide P dec) end.

Lemma RoutedLive_ext s1 s2 :
  unitsByName s2 = unitsByName s1 → consumersByTokenID s2 = consumersByTokenID s1 →
  storagesByTokenID s2 = storagesByTokenID s1 →
  destinationsIDByTokenID s2 = destinationsIDByTokenID s1 →
  RoutedLive s1 → RoutedLive s2.
Proof. unfold RoutedLive. by intros -> -> -> ->. Qed.

Lemma RoutedPending_ext s1 s2 p :
  unitsByName s2 = unitsByName s1 → RoutedPending s1 p → RoutedPending s2 p.
Proof. unfold RoutedPending. by intros ->. Qed.

Lemma Routed_insert units cs ss ids n u :
  units !! n = None → Routed units cs ss ids → Routed (<[n := u]> units) cs ss ids.
Proof.
  intros Hn (HS & HI & HQ). split_and!.
  - intros T k h Hl. destruct (HS _ _ _ Hl) as (u0 & Hu0 & ?). exists u0.
    split; [|done]. rewrite lookup_insert_ne; [done|]. intros <-. congruence.
  - intros T k b Hl. destruct (HI _ _ _ Hl) as (? & u0 & Hu0 & ?). split; [done|].
    exists u0. split; [|done]. rewrite lookup_insert_ne; [done|]. intros <-. congruence.
  - intros T k q Hl. destruct (HQ _ _ _ Hl) as (u0 & Hu0 & ?). exists u0.
    split; [|done]. rewrite lookup_insert_ne; [done|]. intros <-. congruence.
Qed.

Lemma remove_RoutedLive n u s s' :
  remove n u s = Some s' → unitsByName s !! n = Some u → RoutedLive s → RoutedLive s'.
Proof.
  intros Hr Hu (HS & HI & HQ).
  destruct (remove_lookup2 _ _ _ _ Hr) as (LS & LI & LC & LQ).
  apply remove_spec in Hr as (U & _). unfold RoutedLive, Routed. rewrite U. split_and!.
  - intros T k h Hl. rewrite LS in Hl. case_decide as Hd; [done|].
    destruct (HS _ _ _ Hl) as (u0 & Hu0 & ? & ? & Hin). exists u0.
    split_and!; try done. rewrite lookup_delete_ne; [done|].
    intros <-. apply Hd. split; [done|]. congruence.
  - intros T k b Hl. rewrite LI in Hl. case_decide as Hd; [done|].
    destruct (HI _ _ _ Hl) as (? & u0 & Hu0 & Hin). split; [done|]. exists u0.
    split_and!; try done. rewrite lookup_delete_ne; [done|].
    intros <-. apply Hd. split; [done|]. congruence.
  - intros T k q Hl. pose proof (LC _ _ _ Hl) as Hl0.
    destruct (HQ _ _ _ Hl0) as (u0 & Hu0 & Hq & Hin). exists u0.
    split_and!; try done. rewrite lookup_delete_ne; [done|].
    intros <-. assert (u0 = u) as -> by congruence.
    rewrite LQ in Hl by (rewrite Hq; eauto). by rewrite decide_True in Hl.
Qed.

Lemma remove_RoutedPending n u s s' p :
  remove n u s = Some s' → NoPending p n → RoutedPending s p → RoutedPending s' p.
Proof.
  intros Hr Hnp (HS & HI & HQ).
  apply remove_spec in Hr as (U & _). unfold RoutedPending, Routed. rewrite U. split_and!.
  - intros T k h Hl. destruct (HS _ _ _ Hl) as (u0 & Hu0 & ?). exists u0.
    split; [|done]. rewrite lookup_delete_ne; [done|]. intros <-.
    destruct (Hnp T) as (Hn & _). congruence.
  - intros T k b Hl. destruct (HI _ _ _ Hl) as (? & u0 & Hu0 & ?). split; [done|].
    exists u0. split; [|done]. rewrite lookup_delete_ne; [done|]. intros <-.
    destruct (Hnp T) as (_ & Hn & _). congruence.
  - intros T k q Hl. destruct (HQ _ _ _ Hl) as (u0 & Hu0 & ?). exists u0.
    split; [|done]. rewrite lookup_delete_ne; [done|]. intros <-.
    destruct (Hnp T) as (_ & _ & Hn). by apply (Hn q).
Qed.

Lemma create_Routed env n d h s p :
  unitsByName s !! n = None → RoutedLive s → RoutedPending s p →
  RoutedLive (create env n d h (s, p)).1 ∧
  RoutedPending (create env n d h (s, p)).1 (create env n d h (s, p)).2 ∧
  ∀ k, k ≠ n → NoPending p k → NoPending (create env n d h (s, p)).2 k.
Proof.
  intros Hn HL HP.
  pose proof (create_spec env n d h s p _ eq_refl) as (C & S & I & _ & _ & _ & _ & Hs).
  pose proof (create_pending env n d h s p) as Hp. cbn zeta in Hp.
  destruct (create env n d h (s, p)) as [s' p'] eqn:Ec. cbn [fst snd] in *.
  destruct (bool_decide (OnlyTokens d ≠ []) && negb (Create_fails env n d)).
  2:{ destruct Hs as ((U & _) & -> & _). split_and!; [|by eapply RoutedPending_ext|done].
      by eapply RoutedLive_ext. }
  destruct Hs as (U & _). destruct Hp as (PI & PS & PQ & PL).
  split_and!.
  - unfold RoutedLive. rewrite U, C, S, I. by apply Routed_insert.
  - apply (Routed_insert _ _ _ _ n (built_unit d h s) Hn) in HP.
    destruct HP as (HS & HI & HQ). unfold RoutedPending, Routed. rewrite U. split_and!.
    + intros T k v Hl. rewrite PS in Hl. case_decide as Hd; [|by eauto].
      destruct Hd as (Hin & -> & _ & Hm). apply (inj Some) in Hl. subst v.
      exists (built_unit d h s). rewrite lookup_insert_eq. split_and!; try done.
      unfold built_unit. cbn [eventQueue]. by rewrite decide_False.
    + intros T k b Hl. rewrite PI in Hl. case_decide as Hd; [|by eauto].
      destruct Hd as (Hin & -> & _). apply (inj Some) in Hl. subst b. split; [done|].
      exists (built_unit d h s). by rewrite lookup_insert_eq.
    + intros T k q Hl. destruct (decide (Mode d = StreamMode)) as [Hm|Hm].
      * rewrite (PQ Hm) in Hl. case_decide as Hd; [|by eauto].
        destruct Hd as (Hin & -> & _). apply (inj Some) in Hl.
        exists (built_unit d h s). rewrite lookup_insert_eq. split_and!; try done.
        congruence.
      * rewrite (PL Hm) in Hl. case_decide as Hd; [done|by eauto].
  - intros k Hk Hnp T. destruct (Hnp T) as (N1 & N2 & N3). split_and!.
    + rewrite PS. by rewrite decide_False by naive_solver.
    + rewrite PI. by rewrite decide_False by naive_solver.
    + intros q. destruct (decide (Mode d = StreamMode)) as [Hm|Hm].
      * rewrite (PQ Hm). by rewrite decide_False by naive_solver.
      * rewrite (PL Hm). case_decide_goal; [intros ?; simplify_eq|apply N3].
Qed.

Lemma init_destination_Routed env n d s p s' p' :
  init_destination env (n, d) (s, p) = Some (s', p') →
  RoutedLive s → RoutedPending s p → NoPending p n →
  RoutedLive s' ∧ RoutedPending s' p' ∧ ∀ k, k ≠ n → NoPending p k → NoPending p' k.
Proof.
  unfold init_destination. intros Hr HL HP Hnp.
  destruct (only_tokens_log n d s) as ((U0 & _ & C0 & S0 & I0 & _) & _ & _).
  set (s0 := if decide (0 < length (OnlyTokens d)) then s
             else log (OnlyTokensNotProvided n) s) in *.
  clearbody s0.
  assert (RoutedLive s0) as HL0 by (by eapply RoutedLive_ext).
  assert (RoutedPending s0 p) as HP0 by (by eapply RoutedPending_ext).
  clear HL HP U0 C0 S0 I0.
  destruct (unitsByName s0 !! n) as [u|] eqn:Eu.
  - case_decide as Hh.
    + apply (inj Some) in Hr. apply pair_equal_spec in Hr as [<- <-]. done.
    + destruct (remove n u (Lock s0)) as [s1|] eqn:Er; [|done].
      cbn [mbind option_bind] in Hr. apply (inj Some) in Hr.
      assert (RoutedLive (Unlock s1)) as HL1.
      { apply (RoutedLive_ext s1); try reflexivity.
        eapply remove_RoutedLive; [exact Er|exact Eu|].
        by apply (RoutedLive_ext s0). }
      assert (RoutedPending (Unlock s1) p) as HP1.
      { apply (RoutedPending_ext s1); [reflexivity|].
        eapply remove_RoutedPending; [exact Er|exact Hnp|].
        by apply (RoutedPending_ext s0). }
      assert (unitsByName (Unlock s1) !! n = None) as Hn1.
      { apply remove_spec in Er as (U & _).
        change (unitsByName (Unlock s1)) with (unitsByName s1). rewrite U.
        apply lookup_delete_eq. }
      pose proof (create_Routed env n (resolve env d) (getHash n (resolve env d))
                    (Unlock s1) p Hn1 HL1 HP1) as Hc.
      rewrite Hr in Hc. exact Hc.
  - apply (inj Some) in Hr.
    pose proof (create_Routed env n (resolve env d) (getHash n (resolve env d))
                  s0 p Eu HL0 HP0) as Hc.
    rewrite Hr in Hc. exact Hc.
Qed.

Lemma init_loop_Routed env l : NoDup l.*1 → ∀ s p s' p',
  forEach (init_destination env) l (s, p) = Some (s', p') →
  RoutedLive s → RoutedPending s p → (∀ n, n ∈ l.*1 → NoPending p n) →
  RoutedLive s' ∧ RoutedPending s' p'.
Proof.
  induction l as [|[n d] l IH]; intros Hnd s p s' p' Hr HL HP Hnp; cbn [forEach] in Hr.
  - by simplify_eq.
  - rewrite fmap_cons in Hnd. apply NoDup_cons in Hnd as [Hn Hnd]. cbn [fst] in Hn.
    destruct (init_destination env (n, d) (s, p)) as [[s1 p1]|] eqn:E1; [|done].
    cbn [mbind option_bind] in Hr.
    destruct (init_destination_Routed _ _ _ _ _ _ _ E1 HL HP) as (HL1 & HP1 & Hnp1).
    { apply Hnp. rewrite fmap_cons. by left. }
    apply (IH Hnd _ _ _ _ Hr HL1 HP1).
    intros k Hk. apply Hnp1; [by intros ->|]. apply Hnp. rewrite fmap_cons. by right.
Qed.

Lemma remove_all_Routed ld : ∀ s s',
  NoDup ld.*1 → (∀ n u, (n, u) ∈ ld → unitsByName s !! n = Some u) →
  forEach (λ entry : string * Unit, remove entry.1 entry.2) ld s = Some s' →
  RoutedLive s → RoutedLive s'.
Proof.
  induction ld as [|[n u] ld IH]; intros s s' Hnd Hlive Hr HL; cbn [forEach fst snd] in Hr.
  - by simplify_eq.
  - cbn [fmap list_fmap fst] in Hnd. apply NoDup_cons in Hnd as [Hn Hnd].
    destruct (remove n u s) as [s1|] eqn:Er; [|done].
    cbn [mbind option_bind] in Hr.
    assert (RoutedLive s1) as HL1.
    { eapply remove_RoutedLive; [exact Er| |done]. apply Hlive. by left. }
    apply remove_spec in Er as (U1 & _).
    apply (IH s1 s' Hnd); [|done|done].
    intros n' u' Hin. rewrite U1, lookup_delete_ne; [apply Hlive; by right|].
    intros <-. apply Hn. apply list_elem_of_fmap. by exists (n, u').
Qed.

Lemma remove_stale_Routed env dc s s' :
  EnvOK env → remove_stale env dc s = Some s' → RoutedLive s → RoutedLive s'.
Proof.
  intros Hok. unfold remove_stale. case_decide as Hsz; intros Hr HL; [|by simplify_eq].
  match type of Hr with (?loop ≫= _) = _ => destruct loop as [s0|] eqn:E0 end; [|done].
  cbn [mbind option_bind] in Hr. apply (inj Some) in Hr. subst s'.
  apply (RoutedLive_ext s0); try reflexivity.
  eapply (remove_all_Routed _ (Lock s)); [| |exact E0|].
  - destruct Hok as [Hp _]. rewrite (Hp _). apply NoDup_fst_map_to_list.
  - intros n u Hin. by apply range_units_elem in Hin as [? _].
  - by apply (RoutedLive_ext s).
Qed.

Lemma publish_Routed p s :
  RoutedLive s → RoutedPending s p → RoutedLive (publish p s).
Proof.
  intros (HS & HI & HQ) (PS & PI & PQ). unfold RoutedLive, Routed, publish. primg.
  split_and!.
  - intros T n h. rewrite lookup2_AddAll.
    destruct (lookup2 (newStorages p) T n) eqn:E; [intros [= <-]; eauto|eauto].
  - intros T n b. rewrite lookup2_AddAll.
    destruct (lookup2 (newIDs p) T n) eqn:E; [intros [= <-]; eauto|eauto].
  - intros T n q. rewrite lookup2_AddAll.
    destruct (lookup2 (newConsumers p) T n) eqn:E; [intros [= ->]; eauto|eauto].
Qed.

Lemma RoutedPending_empty s : RoutedPending s (mkPending ∅ ∅ ∅).
Proof.
  unfold RoutedPending, Routed. cbn [newConsumers newStorages newIDs].
  split_and!; intros ? ? ?; by rewrite lookup2_empty.
Qed.

Lemma init_Routed env dc s s' :
  EnvOK env → init env dc s = Some s' → RoutedLive s → RoutedLive s'.
Proof.
  intros Hok. unfold init. intros Hr HL.
  destruct (remove_stale env dc (set_Reloading true s)) as [s1|] eqn:Edel; [|done].
  cbn [mbind option_bind] in Hr.
  match type of Hr with (?loop ≫= _) = _ => destruct loop as [[s2 p2]|] eqn:Eloop end;
    [|done].
  cbn [mbind option_bind] in Hr. apply (inj Some) in Hr.
  assert (RoutedLive s1) as HL1.
  { eapply remove_stale_Routed; [done|exact Edel|]. by apply (RoutedLive_ext s). }
  destruct (init_loop_Routed env _ (range_dc_NoDup env dc Hok) _ _ _ _ Eloop HL1
              (RoutedPending_empty s1)) as (HL2 & HP2).
  { intros n _ T. cbn [newConsumers newStorages newIDs]. rewrite !lookup2_empty.
    split_and!; done. }
  pose proof (publish_Routed p2 s2 HL2 HP2) as HL3.
  generalize dependent (publish p2 s2). intros s3 Hr HL3. subst s'.
  by apply (RoutedLive_ext s3).
Qed.

Lemma cycles_Routed cs : ∀ s s',
  Forall (λ c : Env * gmap string DestinationConfig, EnvOK c.1) cs →
  cycles cs s = Some s' → RoutedLive s → RoutedLive s'.
Proof.
  induction cs as [|[env dc] cs IH]; intros s s' Hall Hc HL; cbn [cycles] in Hc.
  - by simplify_eq.
  - apply Forall_cons in Hall as [Hok Hall]. cbn [fst] in Hok.
    destruct (init env dc s) as [s1|] eqn:E1; [|done]. cbn [mbind option_bind] in Hc.
    eapply IH; [done|exact Hc|]. by eapply init_Routed.
Qed.

Lemma RoutedLive_empty : RoutedLive emptyService.
Proof.
  unfold RoutedLive, Routed, emptyService. prim.
  split_and!; intros ? ? ?; by rewrite lookup2_empty.
Qed.

(** ** The accessors in terms of entries *)

Lemma lookup2_default {V} (ts : gmap string (gmap string V)) T n :
  lookup2 ts T n = default ∅ (ts !! T) !! n.
Proof. unfold lookup2. destruct (ts !! T); [done|]. symmetry. apply lookup_empty. Qed.

Lemma elem_of_GetStorages s T h :
  h ∈ GetStorages s T ↔ ∃ n, lookup2 (storagesByTokenID s) T n = Some h.
Proof.
  unfold GetStorages. rewrite list_elem_of_fmap. split.
  - intros ([n h'] & -> & Hin). apply elem_of_map_to_list in Hin.
    exists n. by rewrite lookup2_default.
  - intros (n & Hl). exists (n, h). split; [done|].
    apply elem_of_map_to_list. by rewrite <- lookup2_default.
Qed.

Lemma elem_of_GetConsumers s T c :
  c ∈ GetConsumers s T ↔ ∃ k, lookup2 (consumersByTokenID s) T k = Some c.
Proof.
  unfold GetConsumers. rewrite list_elem_of_fmap. split.
  - intros ([n c'] & -> & Hin). apply elem_of_map_to_list in Hin.
    exists n. by rewrite lookup2_default.
  - intros (n & Hl). exists (n, c). split; [done|].
    apply elem_of_map_to_list. by rewrite <- lookup2_default.
Qed.

Lemma lookup_GetDestinationIDs s T n :
  GetDestinationIDs s T !! n = (λ _, true) <$> lookup2 (destinationsIDByTokenID s) T n.
Proof.
  unfold GetDestinationIDs. rewrite lookup2_default.
  generalize (default ∅ (destinationsIDByTokenID s !! T)). intros m. revert n.
  apply (map_fold_weak_ind (λ (r : gmap string bool) (m : gmap string bool),
           ∀ n, r !! n = (λ _, true) <$> m !! n)).
  - intros n. by rewrite !lookup_empty.
  - intros k b m' r Hk IH n. destruct (decide (n = k)) as [->|Hne].
    + by rewrite !lookup_insert_eq.
    + by rewrite !lookup_insert_ne.
Qed.

(** X9: after any completed run of cycles on a fresh service the routing
    tables refer to live units only: every storage [GetStorages] returns
    for a token is the storage of a registered unit without a queue that
    lists the token, every destination ID [GetDestinationIDs] returns names
    a registered unit that lists the token, and every queue
    [GetConsumers] returns is the queue of a registered unit that lists
    the token. *)
Theorem routes_reference_live_units cs s :
  Forall (λ c : Env * gmap string DestinationConfig, EnvOK c.1) cs →
  cycles cs emptyService = Some s →
  (∀ tokenID h, h ∈ GetStorages s tokenID →
     ∃ name u, unitsByName s !! name = Some u ∧ GetStorageByID s name = (Some h, true) ∧
               eventQueue u = None ∧ tokenID ∈ tokenIDs u) ∧
  (∀ tokenID name b, GetDestinationIDs s tokenID !! name = Some b →
     b = true ∧ ∃ u, unitsByName s !! name = Some u ∧ tokenID ∈ tokenIDs u) ∧
  (∀ tokenID q, QueueConsumer (Some q) ∈ GetConsumers s tokenID →
     ∃ name u, unitsByName s !! name = Some u ∧ eventQueue u = Some q ∧
               tokenID ∈ tokenIDs u).
Proof.
  intros Hall Hc.
  destruct (cycles_Routed cs _ _ Hall Hc RoutedLive_empty) as (HS & HI & HQ).
  split_and!.
  - intros T h (n & Hl)%elem_of_GetStorages.
    destruct (HS _ _ _ Hl) as (u & Hu & Hst & Hq & Hin).
    exists n, u. split_and!; try done. unfold GetStorageByID. rewrite Hu. by rewrite Hst.
  - intros T n b Hl. rewrite lookup_GetDestinationIDs in Hl.
    destruct (lookup2 (destinationsIDByTokenID s) T n) as [b'|] eqn:E; [|done].
    cbn in Hl. apply (inj Some) in Hl. subst b. split; [done|].
    destruct (HI _ _ _ E) as (_ & Hu). exact Hu.
  - intros T q (n & Hl)%elem_of_GetConsumers.
    destruct (HQ _ _ _ Hl) as (u & Hu). by exists n, u.
Qed.

(** X10: a destination that is not in the snapshot is out of the routing
    tables when [init] returns, if the tables referred to live units only
    before: it has no unit, no token lists it among its destination IDs,
    and no token has its storage or its queue. *)
Theorem dropped_destination_is_unrouted env dc s s' name :
  EnvOK env → RoutedLive s → init env dc s = Some s' → dc !! name = None →
  GetStorageByID s' name = (None, false) ∧
  ∀ tokenID,
    GetDestinationIDs s' tokenID !! name = None ∧
    lookup2 (storagesByTokenID s') tokenID name = None ∧
    ∀ q, lookup2 (consumersByTokenID s') tokenID name ≠ Some (QueueConsumer (Some q)).
Proof.
  intros Hok HL Hr Hd.
  destruct (init_Routed _ _ _ _ Hok Hr HL) as (HS & HI & HQ).
  apply init_spec in Hr as (_ & _ & _ & _ & Hgone & _); [|done].
  specialize (Hgone name Hd). split.
  { unfold GetStorageByID. by rewrite Hgone. }
  intros T. split_and!.
  - rewrite lookup_GetDestinationIDs.
    destruct (lookup2 (destinationsIDByTokenID s') T name) as [b|] eqn:E; [|done].
    destruct (HI _ _ _ E) as (_ & u & Hu & _). congruence.
  - destruct (lookup2 (storagesByTokenID s') T name) as [h|] eqn:E; [|done].
    destruct (HS _ _ _ E) as (u & Hu & _). congruence.
  - intros q E. destruct (HQ _ _ _ E) as (u & Hu & _). congruence.
Qed.

(** ** A destination built in a cycle is routed *)

Lemma create_other env n d h s p k :
  k ≠ n →
  ∀ T, lookup2 (newIDs (create env n d h (s, p)).2) T k = lookup2 (newIDs p) T k ∧
       lookup2 (newStorages (create env n d h (s, p)).2) T k = lookup2 (newStorages p) T k ∧
       (T ≠ k → lookup2 (newConsumers (create env n d h (s, p)).2) T k =
                lookup2 (newConsumers p) T k).
Proof.
  intros Hk T. pose proof (create_pending env n d h s p) as Hp. cbn zeta in Hp.
  destruct (bool_decide (OnlyTokens d ≠ []) && negb (Create_fails env n d)).
  2:{ by rewrite Hp. }
  destruct Hp as (PI & PS & PQ & PL). split_and!.
  - rewrite PI. apply decide_False. by intros (_ & ? & _).
  - rewrite PS. apply decide_False. by intros (_ & ? & _).
  - intros HT. destruct (decide (Mode d = StreamMode)) as [Hm|Hm].
    + rewrite (PQ Hm). apply decide_False. by intros (_ & ? & _).
    + rewrite (PL Hm). apply decide_False. by intros (_ & ? & _).
Qed.

Lemma create_built env n d h s p :
  OnlyTokens d ≠ [] → Create_fails env n d = false →
  ∀ T, T ∈ OnlyTokens d → Staged d = false →
    lookup2 (newIDs (create env n d h (s, p)).2) T n = Some true ∧
    (Mode d ≠ StreamMode →
     lookup2 (newStorages (create env n d h (s, p)).2) T n =
       Some (storage (built_unit d h s))) ∧
    (Mode d = StreamMode →
     lookup2 (newConsumers (create env n d h (s, p)).2) T n =
       Some (QueueConsumer (eventQueue (built_unit d h s)))).
Proof.
  intros Hne Hf T Hin Hs. pose proof (create_pending env n d h s p) as Hp. cbn zeta in Hp.
  rewrite bool_decide_true, Hf in Hp by done. cbn [andb negb] in Hp.
  destruct Hp as (PI & PS & PQ & PL). split_and!.
  - rewrite PI. by apply decide_True.
  - intros Hm. rewrite PS. by apply decide_True.
  - intros Hm. rewrite (PQ Hm). by apply decide_True.
Qed.

Lemma init_destination_other env n d s p s' p' k :
  init_destination env (n, d) (s, p) = Some (s', p') → k ≠ n →
  unitsByName s' !! k = unitsByName s !! k ∧
  ∀ T, lookup2 (newIDs p') T k = lookup2 (newIDs p) T k ∧
       lookup2 (newStorages p') T k = lookup2 (newStorages p) T k ∧
       (T ≠ k → lookup2 (newConsumers p') T k = lookup2 (newConsumers p) T k).
Proof.
  intros Hr Hk. split.
  { apply init_destination_spec in Hr as (_ & _ & _ & U & _). rewrite U.
    destruct (unitsByName s !! n); repeat case_match;
      rewrite ?lookup_insert_ne, ?lookup_delete_ne by done; done. }
  revert Hr. unfold init_destination.
  generalize (if decide (0 < length (OnlyTokens d)) then s
              else log (OnlyTokensNotProvided n) s). intros s0 Hr.
  destruct (unitsByName s0 !! n) as [u|].
  - case_decide as Hh.
    + apply (inj Some) in Hr. apply pair_equal_spec in Hr as [_ <-]. done.
    + destruct (remove n u (Lock s0)) as [s1|]; [|done].
      cbn [mbind option_bind] in Hr. apply (inj Some) in Hr.
      pose proof (create_other env n (resolve env d) (getHash n (resolve env d))
                    (Unlock s1) p k Hk) as Hc.
      rewrite Hr in Hc. exact Hc.
  - apply (inj Some) in Hr.
    pose proof (create_other env n (resolve env d) (getHash n (resolve env d)) s0 p k Hk)
      as Hc.
    rewrite Hr in Hc. exact Hc.
Qed.

Lemma init_destination_built env n d s p s' p' :
  init_destination env (n, d) (s, p) = Some (s', p') →
  (∀ u, unitsByName s !! n = Some u → hash u ≠ getHash n (resolve env d)) →
  OnlyTokens (resolve env d) ≠ [] → Create_fails env n (resolve env d) = false →
  unitsByName s' !! n = Some (new_unit env n d s) ∧
  ∀ T, T ∈ OnlyTokens (resolve env d) → Staged d = false →
    lookup2 (newIDs p') T n = Some true ∧
    (Mode d ≠ StreamMode →
     lookup2 (newStorages p') T n = Some (storage (new_unit env n d s))) ∧
    (Mode d = StreamMode →
     lookup2 (newConsumers p') T n = Some (QueueConsumer (eventQueue (new_unit env n d s)))).
Proof.
  intros Hr Hcond Hne Hf.
  assert (builds env n d = true) as Hb.
  { unfold builds. by rewrite bool_decide_true, Hf. }
  split.
  { apply init_destination_spec in Hr as (_ & _ & _ & U & _). rewrite U.
    destruct (unitsByName s !! n) as [u|] eqn:Eu.
    - rewrite decide_False by (by apply Hcond). rewrite Hb. apply lookup_insert_eq.
    - rewrite Hb. apply lookup_insert_eq. }
  revert Hr. unfold init_destination.
  destruct (only_tokens_log n d s) as ((U0 & _ & _ & _ & _ & N0) & _ & _).
  set (s0 := if decide (0 < length (OnlyTokens d)) then s
             else log (OnlyTokensNotProvided n) s) in *.
  clearbody s0. intros Hr. unfold new_unit.
  rewrite <- (resolve_Staged env d), <- (resolve_Mode env d).
  destruct (unitsByName s0 !! n) as [u|] eqn:Eu.
  - rewrite decide_False in Hr by (apply Hcond; by rewrite <- U0).
    destruct (remove n u (Lock s0)) as [s1|] eqn:Er; [|done].
    cbn [mbind option_bind] in Hr. apply (inj Some) in Hr.
    apply remove_spec in Er as (_ & N1 & _).
    pose proof (create_built env n (resolve env d) (getHash n (resolve env d))
                  (Unlock s1) p Hne Hf) as Hc.
    rewrite Hr in Hc. cbn [snd] in Hc.
    rewrite (built_unit_ext _ _ (Unlock s1) s) in Hc; [exact Hc|].
    change (nextHandle (Unlock s1)) with (nextHandle s1).
    change (nextHandle (Lock s0)) with (nextHandle s0) in N1. congruence.
  - apply (inj Some) in Hr.
    pose proof (create_built env n (resolve env d) (getHash n (resolve env d))
                  s0 p Hne Hf) as Hc.
    rewrite Hr in Hc. cbn [snd] in Hc.
    rewrite (built_unit_ext _ _ s0 s) in Hc; [exact Hc|done].
Qed.

Lemma init_loop_other env l : ∀ s p s' p' k,
  forEach (init_destination env) l (s, p) = Some (s', p') → k ∉ l.*1 →
  unitsByName s' !! k = unitsByName s !! k ∧
  ∀ T, lookup2 (newIDs p') T k = lookup2 (newIDs p) T k ∧
       lookup2 (newStorages p') T k = lookup2 (newStorages p) T k ∧
       (T ≠ k → lookup2 (newConsumers p') T k = lookup2 (newConsumers p) T k).
Proof.
  induction l as [|[n d] l IH]; intros s p s' p' k Hr Hk; cbn [forEach] in Hr.
  - by simplify_eq.
  - rewrite fmap_cons in Hk. apply not_elem_of_cons in Hk as [Hkn Hk]. cbn [fst] in Hkn.
    destruct (init_destination env (n, d) (s, p)) as [[s1 p1]|] eqn:E1; [|done].
    cbn [mbind option_bind] in Hr.
    destruct (init_destination_other _ _ _ _ _ _ _ k E1 Hkn) as (U1 & P1).
    destruct (IH _ _ _ _ k Hr Hk) as (U2 & P2).
    split; [congruence|]. intros T.
    destruct (P1 T) as (A1 & B1 & C1). destruct (P2 T) as (A2 & B2 & C2).
    split_and!; [congruence|congruence|]. intros HT. rewrite C2, C1; done.
Qed.

Lemma init_loop_built env l : NoDup l.*1 → ∀ s p s' p' n d,
  forEach (init_destination env) l (s, p) = Some (s', p') → (n, d) ∈ l →
  (∀ u, unitsByName s !! n = Some u → hash u ≠ getHash n (resolve env d)) →
  OnlyTokens (resolve env d) ≠ [] → Create_fails env n (resolve env d) = false →
  ∃ sm, unitsByName s' !! n = Some (new_unit env n d sm) ∧
    ∀ T, T ∈ OnlyTokens (resolve env d) → Staged d = false →
      lookup2 (newIDs p') T n = Some true ∧
      (Mode d ≠ StreamMode →
       lookup2 (newStorages p') T n = Some (storage (new_unit env n d sm))) ∧
      (Mode d = StreamMode → T ≠ n →
       lookup2 (newConsumers p') T n =
         Some (QueueConsumer (eventQueue (new_unit env n d sm)))).
Proof.
  induction l as [|[n0 d0] l IH]; intros Hnd s p s' p' n d Hr Hin Hcond Hne Hf;
    cbn [forEach] in Hr.
  - by apply elem_of_nil in Hin.
  - rewrite fmap_cons in Hnd. apply NoDup_cons in Hnd as [Hn0 Hnd]. cbn [fst] in Hn0.
    destruct (init_destination env (n0, d0) (s, p)) as [[s1 p1]|] eqn:E1; [|done].
    cbn [mbind option_bind] in Hr.
    apply elem_of_cons in Hin as [[= -> ->]|Hin].
    + destruct (init_destination_built _ _ _ _ _ _ _ E1 Hcond Hne Hf) as (U1 & P1).
      destruct (init_loop_other _ _ _ _ _ _ n0 Hr Hn0) as (U2 & P2).
      exists s. split; [congruence|]. intros T HT Hs.
      destruct (P1 T HT Hs) as (A1 & B1 & C1). destruct (P2 T) as (A2 & B2 & C2).
      split_and!.
      * congruence.
      * intros Hm. rewrite B2. by apply B1.
      * intros Hm HTn. rewrite C2 by done. by apply C1.
    + assert (n ≠ n0) as Hnn.
      { intros ->. apply Hn0. apply list_elem_of_fmap. by exists (n0, d). }
      destruct (init_destination_other _ _ _ _ _ _ _ n E1 Hnn) as (U1 & _).
      apply (IH Hnd _ _ _ _ n d Hr Hin); [|done|done].
      intros u. rewrite U1. apply Hcond.
Qed.

Lemma publish_maps p s :
  unitsByName (publish p s) = unitsByName s ∧
  consumersByTokenID (publish p s) = AddAll (newConsumers p) (consumersByTokenID s) ∧
  storagesByTokenID (publish p s) = AddAll (newStorages p) (storagesByTokenID s) ∧
  destinationsIDByTokenID (publish p s) = AddAll (newIDs p) (destinationsIDByTokenID s).
Proof. unfold publish. primg. done. Qed.

(** X11: a destination of the snapshot that is not staged and that a
    completed [init] builds (no unit with the same hash was registered, its
    tokens resolve to a non-empty list and the factory succeeds) is routed
    when [init] returns: its unit is registered with the resolved tokens,
    and under each of them [GetDestinationIDs] lists it, [GetStorages]
    returns its storage when it is not in stream mode, and [GetConsumers]
    returns its queue when it is in stream mode and its name is not the
    token itself. *)
Theorem built_destination_is_routed env dc s s' name d :
  EnvOK env → init env dc s = Some s' → dc !! name = Some d →
  (∀ u, unitsByName s !! name = Some u → hash u ≠ getHash name (resolve env d)) →
  OnlyTokens (resolve env d) ≠ [] → Create_fails env name (resolve env d) = false →
  Staged d = false →
  ∃ u, unitsByName s' !! name = Some u ∧ tokenIDs u = OnlyTokens (resolve env d) ∧
    ∀ tokenID, tokenID ∈ OnlyTokens (resolve env d) →
      GetDestinationIDs s' tokenID !! name = Some true ∧
      (Mode d ≠ StreamMode →
       eventQueue u = None ∧ storage u ∈ GetStorages s' tokenID) ∧
      (Mode d = StreamMode → tokenID ≠ name →
       is_Some (eventQueue u) ∧ QueueConsumer (eventQueue u) ∈ GetConsumers s' tokenID).
Proof.
  intros Hok Hr Hd Hcond Hne Hf Hs. revert Hr. unfold init. intros Hr.
  destruct (remove_stale env dc (set_Reloading true s)) as [s1|] eqn:Edel; [|done].
  cbn [mbind option_bind] in Hr.
  match type of Hr with (?loop ≫= _) = _ => destruct loop as [[s2 p2]|] eqn:Eloop end;
    [|done].
  cbn [mbind option_bind] in Hr. apply (inj Some) in Hr.
  apply remove_stale_spec in Edel as (U1 & _); [|done].
  destruct (init_loop_built env _ (range_dc_NoDup env dc Hok) _ _ _ _ name d Eloop)
    as (sm & U2 & P2); [by apply range_dc_elem| |done|done|].
  { intros u. rewrite U1, Hd. apply Hcond. }
  destruct (publish_maps p2 s2) as (U3 & C3 & S3 & I3).
  generalize dependent (publish p2 s2). intros s3 Hr U3 C3 S3 I3. subst s'.
  change (unitsByName (set_Reloading false s3)) with (unitsByName s3).
  exists (new_unit env name d sm). split; [congruence|]. split; [done|].
  intros T HT. destruct (P2 T HT Hs) as (A & B & C). split_and!.
  - rewrite lookup_GetDestinationIDs.
    change (destinationsIDByTokenID (set_Reloading false s3))
      with (destinationsIDByTokenID s3).
    by rewrite I3, lookup2_AddAll, A.
  - intros Hm. split.
    + unfold new_unit, built_unit. cbn [eventQueue].
      rewrite decide_False; [done|]. by rewrite resolve_Mode.
    + apply elem_of_GetStorages. exists name.
      change (storagesByTokenID (set_Reloading false s3)) with (storagesByTokenID s3).
      by rewrite S3, lookup2_AddAll, (B Hm).
  - intros Hm HTn. split.
    + unfold new_unit, built_unit. cbn [eventQueue].
      rewrite decide_True; [by eexists|]. by rewrite resolve_Mode.
    + apply elem_of_GetConsumers. exists name.
      change (consumersByTokenID (set_Reloading false s3)) with (consumersByTokenID s3).
      by rewrite C3, lookup2_AddAll, (C Hm HTn).
Qed.

(** ** The lock discipline of a cycle *)

Lemma lock_run_app b evs1 evs2 :
  lock_run b (evs1 ++ evs2) = lock_run b evs1 ≫= λ b', lock_run b' evs2.
Proof.
  revert b. induction evs1 as [|e evs1 IH]; intros b; [done|].
  destruct e; cbn [app lock_run]; try (destruct b; by rewrite ?IH).
  all: destruct (lock_ok b _); [apply IH|done].
Qed.

Lemma lock_run_ok b evs :
  Forall (λ e, lock_ok b e = true) evs → lock_run b evs = Some b.
Proof.
  induction 1 as [|e evs He _ IH]; [done|].
  destruct e; cbn [lock_run]; try done; by rewrite He.
Qed.

Lemma lockrun_refl s : lockrun s s.
Proof. exists []. by rewrite app_nil_r. Qed.

Lemma lockrun_trans s1 s2 s3 : lockrun s1 s2 → lockrun s2 s3 → lockrun s1 s3.
Proof.
  intros (e1 & E1 & R1) (e2 & E2 & R2). exists (e1 ++ e2). split.
  - by rewrite E2, E1, app_assoc.
  - by rewrite lock_run_app, R1.
Qed.

Lemma lockrun_extends s s' :
  extends (λ e, lock_ok (locked s) e = true) s s' → locked s' = locked s → lockrun s s'.
Proof.
  intros (evs & E & F) L. exists evs. split; [done|]. rewrite L. by apply lock_run_ok.
Qed.

Lemma lockrun_Lock s : locked s = false → lockrun s (Lock s).
Proof. intros L. exists [EvLock]. split; [done|]. by rewrite L. Qed.

Lemma lockrun_Unlock s : locked s = true → lockrun s (Unlock s).
Proof. intros L. exists [EvUnlock]. split; [done|]. by rewrite L. Qed.

Lemma remove_consumer_lock n u T s s' :
  remove_consumer n u T s = Some s' → locked s = true →
  extends (λ e, lock_ok true e = true) s s'.
Proof.
  unfold remove_consumer. intros Hr Hl.
  destruct (eventQueue u); simplify_option_eq; repeat case_decide; ext;
    rewrite ?Hl; fa.
Qed.

Lemma remove_storage_lock n T s :
  locked s = true → extends (λ e, lock_ok true e = true) s (remove_storage n T s).
Proof.
  intros Hl. unfold remove_storage. destruct (storagesByTokenID s !! T).
  - case_decide; ext; rewrite ?Hl; fa.
  - apply extends_refl.
Qed.

Lemma remove_id_lock n T s :
  locked s = true → extends (λ e, lock_ok true e = true) s (remove_id n T s).
Proof.
  intros Hl. unfold remove_id. destruct (destinationsIDByTokenID s !! T).
  - case_decide; ext; rewrite ?Hl; fa.
  - apply extends_refl.
Qed.

Lemma remove_token_lock n u T s s' :
  remove_token n u T s = Some s' → locked s = true →
  extends (λ e, lock_ok true e = true) s s'.
Proof.
  unfold remove_token. intros Hr Hl.
  destruct (remove_consumer n u T s) as [s1|] eqn:E; [|done].
  cbn [mbind option_bind] in Hr. apply (inj Some) in Hr. subst s'.
  destruct (remove_consumer_frame _ _ _ _ _ E) as (_ & _ & _ & _ & L1 & _).
  pose proof (remove_consumer_lock _ _ _ _ _ E Hl) as X1.
  destruct (remove_storage_frame n T s1) as (_ & _ & _ & L2 & _).
  pose proof (remove_storage_lock n T s1 ltac:(congruence)) as X2.
  pose proof (remove_id_lock n T (remove_storage n T s1) ltac:(congruence)) as X3.
  eauto using extends_trans.
Qed.

Lemma remove_tokens_lock n u ts : ∀ s s',
  forEach (remove_token n u) ts s = Some s' → locked s = true →
  extends (λ e, lock_ok true e = true) s s'.
Proof.
  induction ts as [|T ts IH]; intros s s' Hr Hl; cbn [forEach] in Hr.
  - simplify_eq. apply extends_refl.
  - destruct (remove_token n u T s) as [s1|] eqn:E; [|done].
    cbn [mbind option_bind] in Hr.
    destruct (remove_token_frame _ _ _ _ _ E) as (_ & _ & L1 & _).
    eapply extends_trans; [by eapply remove_token_lock|].
    eapply IH; [done|congruence].
Qed.

Lemma remove_lock n u s s' :
  remove n u s = Some s' → locked s = true →
  extends (λ e, lock_ok true e = true) s s' ∧ locked s' = true.
Proof.
  intros Hr Hl. split; [|apply remove_spec in Hr as (_ & _ & L & _); congruence].
  revert Hr. unfold remove. intros Hr.
  destruct (forEach (remove_token n u) (tokenIDs u) s) as [s1|] eqn:E; [|done].
  cbn [mbind option_bind] in Hr. apply (inj Some) in Hr. subst s'.
  destruct (remove_tokens_frame _ _ _ _ _ E) as (_ & _ & L1 & _).
  eapply extends_trans; [by eapply remove_tokens_lock|].
  rewrite Hl in L1. ext. rewrite ?L1. fa.
Qed.

Lemma remove_all_lock ld : ∀ s s',
  forEach (λ entry : string * Unit, remove entry.1 entry.2) ld s = Some s' →
  locked s = true →
  extends (λ e, lock_ok true e = true) s s' ∧ locked s' = true.
Proof.
  induction ld as [|[n u] ld IH]; intros s s' Hr Hl; cbn [forEach fst snd] in Hr.
  - simplify_eq. split; [apply extends_refl|done].
  - destruct (remove n u s) as [s1|] eqn:Er; [|done].
    cbn [mbind option_bind] in Hr.
    destruct (remove_lock _ _ _ _ Er Hl) as (X1 & L1).
    destruct (IH _ _ Hr L1) as (X2 & L2).
    split; [eauto using extends_trans|done].
Qed.

Lemma register_token_lock n d st q T s p :
  extends (λ e, lock_ok (locked s) e = true) s (register_token n d st q T (s, p)).1.
Proof.
  unfold register_token. destruct (Staged d).
  { ext. fa. }
  case_decide.
  { apply extends_refl. }
  destruct (loggersUsageByTokenID s !! T); ext; destruct (locked s); fa.
Qed.

Lemma register_loop_lock n d st q ts : ∀ sp,
  extends (λ e, lock_ok (locked sp.1) e = true) sp.1
    (foldl (λ acc T, register_token n d st q T acc) sp ts).1.
Proof.
  induction ts as [|T ts IH]; intros [s p]; cbn [foldl fst].
  - apply extends_refl.
  - pose proof (register_token_lock n d st q T s p) as X1.
    destruct (register_token_frame n d st q T s p) as (_ & _ & _ & _ & L1 & _).
    specialize (IH (register_token n d st q T (s, p))). rewrite L1 in IH.
    eauto using extends_trans.
Qed.

Lemma create_lock env n d h s p :
  extends (λ e, lock_ok (locked s) e = true) s (create env n d h (s, p)).1.
Proof.
  unfold create. case_decide as Hlen.
  { ext. fa. }
  rewrite Create_eq. destruct (Create_fails env n d) eqn:Ef.
  { ext. fa. }
  match goal with |- context [foldl ?f ?sp0 ?ts] =>
    pose proof (register_loop_lock n d (nextHandle s)
                  (if decide (Mode d = StreamMode) then Some (S (nextHandle s)) else None)
                  ts sp0) as X end.
  eapply extends_trans; [|exact X].
  ext. destruct (locked s); fa.
Qed.

Lemma init_destination_lock env n d s p s' p' :
  init_destination env (n, d) (s, p) = Some (s', p') → locked s = false →
  lockrun s s' ∧ locked s' = false.
Proof.
  intros Hr Hl.
  split; [|by apply init_destination_spec in Hr as (_ & L & _); apply L].
  revert Hr. unfold init_destination.
  destruct (only_tokens_log n d s) as (_ & L0 & X0).
  set (s0 := if decide (0 < length (OnlyTokens d)) then s
             else log (OnlyTokensNotProvided n) s) in *.
  clearbody s0. intros Hr.
  assert (lockrun s s0) as R0.
  { apply lockrun_extends; [|done]. eapply extends_weaken; [|exact X0].
    intros [] He; try done. }
  eapply lockrun_trans; [exact R0|]. rewrite <- L0 in Hl. clear R0 X0 L0.
  destruct (unitsByName s0 !! n) as [u|].
  - case_decide as Hh.
    + apply (inj Some) in Hr. apply pair_equal_spec in Hr as [<- _]. apply lockrun_refl.
    + destruct (remove n u (Lock s0)) as [s1|] eqn:Er; [|done].
      cbn [mbind option_bind] in Hr. apply (inj Some) in Hr.
      destruct (remove_lock _ _ _ _ Er eq_refl) as (X1 & L1).
      eapply lockrun_trans; [by apply lockrun_Lock|].
      eapply lockrun_trans; [apply lockrun_extends; [exact X1|by rewrite L1]|].
      eapply lockrun_trans; [by apply lockrun_Unlock|].
      pose proof (create_lock env n (resolve env d) (getHash n (resolve env d))
                    (Unlock s1) p) as Xc.
      pose proof (create_spec env n (resolve env d) (getHash n (resolve env d))
                    (Unlock s1) p _ eq_refl) as (_ & _ & _ & Lc & _).
      rewrite Hr in Xc, Lc. cbn [fst] in Xc, Lc.
      by apply lockrun_extends.
  - apply (inj Some) in Hr.
    pose proof (create_lock env n (resolve env d) (getHash n (resolve env d)) s0 p) as Xc.
    pose proof (create_spec env n (resolve env d) (getHash n (resolve env d))
                  s0 p _ eq_refl) as (_ & _ & _ & Lc & _).
    rewrite Hr in Xc, Lc. cbn [fst] in Xc, Lc.
    by apply lockrun_extends.
Qed.

Lemma init_loop_lock env l : ∀ s p s' p',
  forEach (init_destination env) l (s, p) = Some (s', p') → locked s = false →
  lockrun s s' ∧ locked s' = false.
Proof.
  induction l as [|[n d] l IH]; intros s p s' p' Hr Hl; cbn [forEach] in Hr.
  - simplify_eq. split; [apply lockrun_refl|done].
  - destruct (init_destination env (n, d) (s, p)) as [[s1 p1]|] eqn:E1; [|done].
    cbn [mbind option_bind] in Hr.
    destruct (init_destination_lock _ _ _ _ _ _ _ E1 Hl) as (R1 & L1).
    destruct (IH _ _ _ _ Hr L1) as (R2 & L2).
    split; [eauto using lockrun_trans|done].
Qed.

Lemma remove_stale_lock env dc s s' :
  remove_stale env dc s = Some s' → locked s = false →
  lockrun s s' ∧ locked s' = false.
Proof.
  unfold remove_stale. case_decide as Hsz; intros Hr Hl.
  2:{ simplify_eq. split; [apply lockrun_refl|done]. }
  match type of Hr with (?loop ≫= _) = _ => destruct loop as [s0|] eqn:E0 end; [|done].
  cbn [mbind option_bind] in Hr. apply (inj Some) in Hr. subst s'.
  destruct (remove_all_lock _ _ _ E0 eq_refl) as (X1 & L1).
  split; [|done].
  eapply lockrun_trans; [by apply lockrun_Lock|].
  eapply lockrun_trans; [apply lockrun_extends; [exact X1|by rewrite L1]|].
  by apply lockrun_Unlock.
Qed.

Lemma publish_lock p s : locked s = false → lockrun s (publish p s).
Proof.
  intros Hl. unfold publish, lockrun. primg. rewrite Hl, <- !app_assoc.
  eexists. split; [reflexivity|]. done.
Qed.

Lemma init_lockrun env dc s s' :
  init env dc s = Some s' → locked s = false → lockrun s s' ∧ locked s' = false.
Proof.
  unfold init. intros Hr Hl.
  destruct (remove_stale env dc (set_Reloading true s)) as [s1|] eqn:Edel; [|done].
  cbn [mbind option_bind] in Hr.
  match type of Hr with (?loop ≫= _) = _ => destruct loop as [[s2 p2]|] eqn:Eloop end;
    [|done].
  cbn [mbind option_bind] in Hr. apply (inj Some) in Hr.
  destruct (remove_stale_lock _ _ _ _ Edel Hl) as (R1 & L1).
  destruct (init_loop_lock _ _ _ _ _ _ Eloop L1) as (R2 & L2).
  pose proof (publish_lock p2 s2 L2) as R3.
  destruct (publish_frame p2 s2) as (_ & _ & _ & L3 & _).
  generalize dependent (publish p2 s2). intros s3 Hr R3 L3. subst s'.
  split; [|done].
  assert (lockrun s s3) as (evs & E & R).
  { eapply lockrun_trans; [|eapply lockrun_trans; [exact R2|exact R3]]. exact R1. }
  exists evs. split; done.
Qed.

Lemma lock_run_no_unlocked_write evs : ∀ b b' r,
  lock_run b evs = Some b' → r ≠ RUnits → r ≠ RLoggers → EvMutate r false ∉ evs.
Proof.
  induction evs as [|e evs IH]; intros b b' r R Hu Hlg Hin;
    [by apply elem_of_nil in Hin|].
  apply elem_of_cons in Hin as [<-|Hin].
  - cbn [lock_run lock_ok] in R.
    destruct b; cbn [Bool.eqb andb orb] in R; [done|].
    rewrite bool_decide_false in R by (by intros [?|?]). done.
  - destruct e; cbn [lock_run] in R.
    1,2: destruct b; try done; by eapply IH.
    all: match type of R with
         | (if ?c then _ else _) = _ => destruct c; [by eapply IH|done]
         end.
Qed.

(** X12: the lock discipline of a cycle.  Started with the lock free, a
    completed [init] never locks a lock it holds and never unlocks a free
    one, writes the three tokenized maps only while it holds the lock, and
    returns with the lock released. *)
Theorem init_lock_discipline env dc s s' :
  locked s = false → init env dc s = Some s' →
  ∃ evs, trace s' = trace s ++ evs ∧ lock_run false evs = Some false ∧
         ∀ r, r ≠ RUnits → r ≠ RLoggers → EvMutate r false ∉ evs.
Proof.
  intros Hl Hr. destruct (init_lockrun _ _ _ _ Hr Hl) as ((evs & E & R) & L).
  rewrite Hl, L in R. exists evs. split; [done|]. split; [done|].
  intros r. by eapply lock_run_no_unlocked_write.
Qed.

End Proofs.

(** * Examples on the concrete instance *)

Lemma demoEnv_ok : EnvOK demoEnv.
Proof. split; intros l; reflexivity. Defined.

Lemma demoEnvRev_ok : EnvOK demoEnvRev.
Proof. split; intros l; [reflexivity|apply reverse_Permutation]. Defined.

(** C10 as stated fails: with server.destinations_reload_sec at 0,
    NewService returns no service and the error on the reload interval,
    whether or not the destinations config unmarshals. *)
Lemma C10_counterexample_reload_sec_zero :
  NewService demoEnv 0 (Some None) EmptyString = Some (None, Some ReloadSecEmpty) ∧
  ¬ ∃ s, NewService demoEnv 0 (Some None) EmptyString = Some (Some s, None).
Proof. split; [reflexivity|]. intros [s Hs]. discriminate Hs. Qed.

Lemma C10_witness :
  1%Z ≠ 0%Z ∧
  ∃ s, NewService demoEnv 1 (Some None) EmptyString = Some (Some s, None) ∧
       ∀ id, GetConsumers s id = [] ∧ GetStorages s id = [] ∧
             GetDestinationIDs s id = ∅ ∧ GetStorageByID s id = (None, false).
Proof.
  split; [lia|].
  apply (C10_unmarshal_failure_gives_empty_service demoEnv 1 EmptyString). lia.
Defined.

Lemma C7_witness :
  parseFromBytes (String.list_byte_of_string "[]"%string) = None ∧
  ∃ s', updateDestinations demoEnv (String.list_byte_of_string "[]"%string) emptyService = Some s' ∧
        same_state emptyService s' ∧ locked s' = locked emptyService ∧
        Reloading s' = Reloading emptyService ∧
        trace s' = trace emptyService ++ [EvLog MarshallingError].
Proof.
  split; [reflexivity|].
  apply (C7_malformed_payload_keeps_state demoEnv (String.list_byte_of_string "[]"%string)).
  reflexivity.
Defined.

Lemma C2_witness :
  ∃ s, cycles [(demoEnv, demoOneBatch); (demoEnv, ∅)] emptyService = Some s ∧
    (∀ tokenID lu, loggersUsageByTokenID s !! tokenID = Some lu →
       (0 ≤ usage lu)%Z ∧ (1 ≤ usage lu)%Z) ∧
    (∀ name unit tokenID s0 s1 lu,
       eventQueue unit = None →
       loggersUsageByTokenID s0 !! tokenID = Some lu →
       remove_token name unit tokenID s0 = Some s1 →
       if decide (usage lu - 1 = 0)%Z
       then loggersUsageByTokenID s1 !! tokenID = None ∧
            ∃ evs, trace s1 = trace s0 ++ evs ∧ EvLoggerClose tokenID (logger lu) ∈ evs
       else loggersUsageByTokenID s1 !! tokenID =
              Some (mkLoggerUsage (logger lu) (usage lu - 1)) ∧
            ∃ evs, trace s1 = trace s0 ++ evs ∧ ∀ l, EvLoggerClose tokenID l ∉ evs).
Proof.
  assert (is_Some (cycles [(demoEnv, demoOneBatch); (demoEnv, ∅)] emptyService)) as [s Hs]
    by (apply (bool_decide_unpack _); vm_compute; exact I).
  exists s. split; [exact Hs|].
  exact (C2_usage_never_negative [(demoEnv, demoOneBatch); (demoEnv, ∅)] s Hs).
Defined.

(** The cycle that builds the batch destination A, by computation: its
    trace. *)
Lemma demoOneBatch_trace :
  trace <$> init demoEnv demoOneBatch emptyService =
  Some [EvFactoryCreate "A" true; EvMutate RUnits false;
        EvCreateIncomingLogger "T" 1; EvMutate RLoggers false;
        EvMutate RLoggers false; EvLock; EvMutate RConsumers true;
        EvMutate RStorages true; EvMutate RIDs true; EvUnlock].
Proof. vm_compute. exact eq_refl. Qed.

(** C5 fails on the code: [init] writes the unit registry (the assignment
    s.unitsByName[name] = ...) and the logger registry (the new entry and
    the increment of its count) between its two locked sections, with the
    lock not held, while GetStorageByID reads the unit registry under the
    read lock.  Here for a cycle that builds one batch destination. *)
Theorem C5_registries_written_without_lock :
  ∃ s, init demoEnv demoOneBatch emptyService = Some s ∧
       EvMutate RUnits false ∈ trace s ∧ EvMutate RLoggers false ∈ trace s.
Proof.
  pose proof demoOneBatch_trace as E.
  destruct (init demoEnv demoOneBatch emptyService) as [s|]; [|discriminate E].
  injection E as E. exists s. split; [reflexivity|]. rewrite E.
  split; apply (bool_decide_unpack _); vm_compute; exact I.
Qed.

Lemma demoStagedOnly_eval :
  (s1 ← init demoEnv demoStagedOnly emptyService;
   unit ← unitsByName s1 !! "A"%string;
   Some (eventQueue unit, tokenIDs unit, loggersUsageByTokenID s1 !! "T"%string,
         remove "A"%string unit s1, init demoEnv ∅ s1)) =
  Some (None, ["T"%string], None, None, None).
Proof. vm_compute. exact eq_refl. Qed.

(** C9 fails on the code: a cycle registers the staged batch destination A
    with its token and no queue, and without an entry in the logger
    registry; the next cycle, in which A is gone, calls [remove] on it,
    which reads the missing entry and dereferences nil. *)
Theorem C9_removing_staged_batch_unit_panics :
  ∃ s1 unit,
    init demoEnv demoStagedOnly emptyService = Some s1 ∧
    unitsByName s1 !! "A"%string = Some unit ∧
    eventQueue unit = None ∧ tokenIDs unit = ["T"%string] ∧
    loggersUsageByTokenID s1 !! "T"%string = None ∧
    remove "A"%string unit s1 = None ∧
    init demoEnv ∅ s1 = None.
Proof.
  pose proof demoStagedOnly_eval as E.
  destruct (init demoEnv demoStagedOnly emptyService) as [s1|]; [|discriminate E].
  cbn [mbind option_bind] in E.
  destruct (unitsByName s1 !! "A"%string) as [unit|] eqn:Eu; [|discriminate E].
  cbn [mbind option_bind] in E. injection E as E1 E2 E3 E4 E5.
  exists s1, unit. split_and!; [reflexivity|assumption..].
Qed.

Lemma demoStagedChanged_eval :
  (s2 ← cycles [(demoEnv, demoStagedOnly); (demoEnvRev, demoStagedChanged)] emptyService;
   Some (consumersByTokenID s2 !! "T"%string,
         bool_decide (EvLoggerClose "T" 2 ∈ trace s2),
         loggersUsageByTokenID s2 !! "T"%string,
         bool_decide (is_Some (unitsByName s2 !! "B"%string)))) =
  Some (Some {[ "T"%string := LoggerConsumer 2 ]}, true, None, true).
Proof. vm_compute. exact eq_refl. Qed.

(** C1 fails on the code: after a cycle with the staged batch destination
    A on token T, a cycle whose snapshot changes A and adds the batch
    destination B on T, and which visits B first, creates T's logger for B
    and then closes it while removing the old A; the merge at the end of
    the cycle publishes the closed logger as T's consumer, and T has no
    entry in the logger registry. *)
Theorem C1_closed_logger_published :
  ∃ s2 l,
    cycles [(demoEnv, demoStagedOnly); (demoEnvRev, demoStagedChanged)] emptyService
      = Some s2 ∧
    consumersByTokenID s2 !! "T"%string = Some {[ "T"%string := LoggerConsumer l ]} ∧
    EvLoggerClose "T"%string l ∈ trace s2 ∧
    loggersUsageByTokenID s2 !! "T"%string = None ∧
    is_Some (unitsByName s2 !! "B"%string).
Proof.
  pose proof demoStagedChanged_eval as E.
  destruct (cycles [(demoEnv, demoStagedOnly); (demoEnvRev, demoStagedChanged)] emptyService)
    as [s2|]; [|discriminate E].
  cbn [mbind option_bind] in E. injection E as E1 E2 E3 E4.
  exists s2, 2. split_and!; [done|done| |done|].
  - by apply bool_decide_eq_true in E2.
  - by apply bool_decide_eq_true in E4.
Qed.


Lemma no_tokens_no_unit_witness :
  ∃ s', init demoEnv demoNoTokensOnly emptyService = Some s' ∧
  (unitsByName s' !! "C"%string = None ∨
   ∃ u, unitsByName emptyService !! "C"%string = Some u ∧
        hash u = getHash "C"%string (resolve demoEnv demoNoTokens) ∧
        unitsByName s' !! "C"%string = Some u) ∧
  (∃ evs, trace s' = trace emptyService ++ evs ∧
          ∀ ok, EvFactoryCreate "C"%string ok ∉ evs) ∧
  (∀ env2 dc2 d2,
     EnvOK env2 → Consistent s' → NoStagedBatch dc2 →
     unitsByName s' !! "C"%string = None →
     dc2 !! "C"%string = Some d2 → OnlyTokens (resolve env2 d2) ≠ [] →
     Create_fails env2 "C"%string (resolve env2 d2) = false →
     ∃ s'' sm, init env2 dc2 s' = Some s'' ∧
       nextHandle s' ≤ nextHandle sm ∧ nextHandle sm < nextHandle s'' ∧
       unitsByName s'' !! "C"%string = Some (new_unit env2 "C"%string d2 sm) ∧
       ∃ evs, trace s'' = trace s' ++ evs ∧ EvFactoryCreate "C"%string true ∈ evs).
Proof.
  assert (is_Some (init demoEnv demoNoTokensOnly emptyService)) as [s' Hs']
    by (apply (bool_decide_unpack _); vm_compute; exact I).
  exists s'. split; [exact Hs'|].
  apply (no_tokens_no_unit demoEnv demoNoTokensOnly emptyService s' "C"%string demoNoTokens
           demoEnv_ok); [reflexivity|reflexivity|exact Hs'].
Defined.



Lemma demo_snapshots_ok :
  NoStagedBatch demoTwo ∧ NoStagedBatch demoOneBatch ∧ NoStagedBatch ∅.
Proof.
  split_and!;
    match goal with
    | |- NoStagedBatch ?dc =>
        change (map_Forall (λ _ d, Staged d = true → Mode d = StreamMode) dc)
    end;
    apply (bool_decide_unpack _); vm_compute; exact I.
Defined.

Lemma cycles_never_panic_witness :
  ∃ s, cycles [(demoEnv, demoTwo); (demoEnvRev, demoOneBatch); (demoEnv, ∅)] emptyService
         = Some s ∧ Consistent s.
Proof.
  apply (cycles_never_panic
           [(demoEnv, demoTwo); (demoEnvRev, demoOneBatch); (demoEnv, ∅)] emptyService).
  - apply Consistent_empty.
  - destruct demo_snapshots_ok as (H1 & H2 & H3).
    repeat first [apply Forall_nil_2 | apply Forall_cons_2].
    + split; [apply demoEnv_ok|exact H1].
    + split; [apply demoEnvRev_ok|exact H2].
    + split; [apply demoEnv_ok|exact H3].
Defined.

Lemma loggers_closed_exactly_once_witness :
  ∃ s, cycles [(demoEnv, demoOneBatch); (demoEnv, ∅)] emptyService = Some s ∧
    (∀ tokenID l, EvCreateIncomingLogger tokenID l ∈ trace s →
       closes tokenID l (trace s) =
         if decide (logger <$> loggersUsageByTokenID s !! tokenID = Some l) then 0 else 1) ∧
    (∀ tokenID lu, loggersUsageByTokenID s !! tokenID = Some lu →
       EvCreateIncomingLogger tokenID (logger lu) ∈ trace s ∧
       closes tokenID (logger lu) (trace s) = 0) ∧
    (∀ tokenID l, EvLoggerClose tokenID l ∈ trace s →
       EvCreateIncomingLogger tokenID l ∈ trace s).
Proof.
  assert (is_Some (cycles [(demoEnv, demoOneBatch); (demoEnv, ∅)] emptyService)) as [s Hs]
    by (apply (bool_decide_unpack _); vm_compute; exact I).
  exists s. split; [exact Hs|].
  exact (loggers_closed_exactly_once [(demoEnv, demoOneBatch); (demoEnv, ∅)] s Hs).
Defined.

Lemma NewService_never_panics_witness :
  ∃ r, NewService demoEnv 5 (Some (Some demoStagedOnly)) EmptyString = Some r ∧
       (is_Some r.1 ↔ r.2 = None) ∧
       (is_Some r.2 ↔
          5%Z = 0%Z ∨
          (Some (Some demoStagedOnly) = None ∧ EmptyString ≠ EmptyString ∧
           HasPrefix EmptyString "http://" = false ∧
           HasPrefix EmptyString "https://" = false ∧
           Contains EmptyString "file://" = false ∧
           HasPrefix EmptyString "/" = false ∧
           (HasPrefix EmptyString "{" && HasSuffix EmptyString "}") = false)) ∧
       (∀ s, r.1 = Some s → locked s = false ∧ Reloading s = false).
Proof.
  exact (NewService_never_panics demoEnv 5 (Some (Some demoStagedOnly)) EmptyString
           demoEnv_ok).
Defined.

Lemma demoCloseEnv_ok : CloseEnvOK demoCloseEnv.
Proof. split; intros l; [reflexivity|apply reverse_Permutation]. Defined.

Lemma Close_closes_everything_witness :
  ∃ s, init demoEnv demoTwo emptyService = Some s ∧
  same_state s (Close demoCloseEnv s).2 ∧
  (∃ evs, trace (Close demoCloseEnv s).2 = trace s ++ evs ∧
     (∀ tokenID l, closes tokenID l evs =
        if decide (logger <$> loggersUsageByTokenID s !! tokenID = Some l) then 1 else 0) ∧
     (∀ name u, unitsByName s !! name = Some u →
        EvUnitClose name (storage u) (eventQueue u) ∈ evs)) ∧
  (∀ tokenID, LoggerCloseError tokenID ∈ (Close demoCloseEnv s).1 ↔
     ∃ lu, loggersUsageByTokenID s !! tokenID = Some lu ∧
           logger_Close_fails demoCloseEnv tokenID (logger lu) = true) ∧
  (∀ name, UnitCloseError name ∈ (Close demoCloseEnv s).1 ↔
     ∃ u, unitsByName s !! name = Some u ∧ unit_Close_fails demoCloseEnv name u = true).
Proof.
  assert (is_Some (init demoEnv demoTwo emptyService)) as [s Hs]
    by (apply (bool_decide_unpack _); vm_compute; exact I).
  exists s. split; [exact Hs|].
  exact (Close_closes_everything demoCloseEnv s demoCloseEnv_ok).
Defined.

Lemma shutdown_closes_every_logger_once_witness :
  ∃ s, cycles [(demoEnv, demoTwo); (demoEnv, demoOneBatch)] emptyService = Some s ∧
  ∀ tokenID l, EvCreateIncomingLogger tokenID l ∈ trace (Close demoCloseEnv s).2 →
    closes tokenID l (trace (Close demoCloseEnv s).2) = 1.
Proof.
  assert (is_Some (cycles [(demoEnv, demoTwo); (demoEnv, demoOneBatch)] emptyService))
    as [s Hs] by (apply (bool_decide_unpack _); vm_compute; exact I).
  exists s. split; [exact Hs|].
  exact (shutdown_closes_every_logger_once demoCloseEnv
           [(demoEnv, demoTwo); (demoEnv, demoOneBatch)] s demoCloseEnv_ok Hs).
Defined.

Lemma routes_reference_live_units_witness :
  ∃ s, cycles [(demoEnv, demoTwo); (demoEnvRev, demoOneBatch)] emptyService = Some s ∧
  (∀ tokenID h, h ∈ GetStorages s tokenID →
     ∃ name u, unitsByName s !! name = Some u ∧ GetStorageByID s name = (Some h, true) ∧
               eventQueue u = None ∧ tokenID ∈ tokenIDs u) ∧
  (∀ tokenID name b, GetDestinationIDs s tokenID !! name = Some b →
     b = true ∧ ∃ u, unitsByName s !! name = Some u ∧ tokenID ∈ tokenIDs u) ∧
  (∀ tokenID q, QueueConsumer (Some q) ∈ GetConsumers s tokenID →
     ∃ name u, unitsByName s !! name = Some u ∧ eventQueue u = Some q ∧
               tokenID ∈ tokenIDs u).
Proof.
  assert (is_Some (cycles [(demoEnv, demoTwo); (demoEnvRev, demoOneBatch)] emptyService))
    as [s Hs] by (apply (bool_decide_unpack _); vm_compute; exact I).
  exists s. split; [exact Hs|].
  apply (routes_reference_live_units
           [(demoEnv, demoTwo); (demoEnvRev, demoOneBatch)] s); [|exact Hs].
  repeat first [apply Forall_nil_2 | apply Forall_cons_2];
    [apply demoEnv_ok|apply demoEnvRev_ok].
Defined.

Lemma dropped_destination_is_unrouted_witness :
  ∃ s s', init demoEnv demoTwo emptyService = Some s ∧
          init demoEnv demoOneBatch s = Some s' ∧
  GetStorageByID s' "B" = (None, false) ∧
  ∀ tokenID,
    GetDestinationIDs s' tokenID !! "B"%string = None ∧
    lookup2 (storagesByTokenID s') tokenID "B" = None ∧
    ∀ q, lookup2 (consumersByTokenID s') tokenID "B" ≠ Some (QueueConsumer (Some q)).
Proof.
  assert (is_Some (init demoEnv demoTwo emptyService)) as [s Hs]
    by (apply (bool_decide_unpack _); vm_compute; exact I).
  assert (is_Some (s ← init demoEnv demoTwo emptyService; init demoEnv demoOneBatch s))
    as [s' Hs'] by (apply (bool_decide_unpack _); vm_compute; exact I).
  rewrite Hs in Hs'. cbn [mbind option_bind] in Hs'.
  exists s, s'. split; [exact Hs|]. split; [exact Hs'|].
  apply (dropped_destination_is_unrouted demoEnv demoOneBatch s s' "B" demoEnv_ok);
    [|exact Hs'|reflexivity].
  exact (init_Routed demoEnv demoTwo emptyService s demoEnv_ok Hs RoutedLive_empty).
Defined.

Lemma built_destination_is_routed_witness :
  ∃ s', init demoEnv demoTwo emptyService = Some s' ∧
  ∃ u, unitsByName s' !! "A"%string = Some u ∧
    tokenIDs u = OnlyTokens (resolve demoEnv (demoBatch "T")) ∧
    ∀ tokenID, tokenID ∈ OnlyTokens (resolve demoEnv (demoBatch "T")) →
      GetDestinationIDs s' tokenID !! "A"%string = Some true ∧
      (Mode (demoBatch "T") ≠ StreamMode →
       eventQueue u = None ∧ storage u ∈ GetStorages s' tokenID) ∧
      (Mode (demoBatch "T") = StreamMode → tokenID ≠ "A"%string →
       is_Some (eventQueue u) ∧ QueueConsumer (eventQueue u) ∈ GetConsumers s' tokenID).
Proof.
  assert (is_Some (init demoEnv demoTwo emptyService)) as [s' Hs']
    by (apply (bool_decide_unpack _); vm_compute; exact I).
  exists s'. split; [exact Hs'|].
  apply (built_destination_is_routed demoEnv demoTwo emptyService s' "A"
           (demoBatch "T") demoEnv_ok Hs').
  - reflexivity.
  - intros u Hu. discriminate Hu.
  - discriminate.
  - reflexivity.
  - reflexivity.
Defined.

Lemma init_lock_discipline_witness :
  ∃ s', init demoEnv demoTwo emptyService = Some s' ∧
  ∃ evs, trace s' = trace emptyService ++ evs ∧ lock_run false evs = Some false ∧
         ∀ r, r ≠ RUnits → r ≠ RLoggers → EvMutate r false ∉ evs.
Proof.
  assert (is_Some (init demoEnv demoTwo emptyService)) as [s' Hs']
    by (apply (bool_decide_unpack _); vm_compute; exact I).
  exists s'. split; [exact Hs'|].
  exact (init_lock_discipline demoEnv demoTwo emptyService s' eq_refl Hs').
Defined.
